(** * KisSmallColorWidget: a shallow embedding of the small colour selector

    Source: [plugins/dockers/smallcolorselector/kis_small_color_widget.cc].

    The widget keeps a colour as hue, saturation and value, a relative
    dynamic range for HDR displays, and a few flags.  This file embeds the
    [Private] struct and every member function that reads or writes it, as
    state-passing functions in an error monad (a null dereference or an
    out-of-range conversion to [int] ends the run).

    Numbers.  [qreal] (double), [float] and the 16-bit [half] of the image
    pixels are IEEE 754 binary floating-point numbers: a value is NaN, an
    infinity or a rational, and every operation gives the exact result
    rounded to the nearest value of the format it is computed in, ties to
    even, as the C++ expression has it ([float * float] in binary32,
    anything with a [double] operand in binary64, a store to a [float] or
    a [half] rounds once more).  The two zeros are one value: the sign of a
    zero shows only in a division by a negative zero, for which the widget
    would need a dynamic range that is a negative zero.  [int] is [Z]; a
    conversion from a floating-point number to [int] that does not fit 32
    bits, or is no number, is an error.

    Code of the repository that the widget calls but that is not part of the
    embedded files (the HSV/RGB conversions of KoColorConversions, the colour
    conversions of KoColor and KoColorSpace, the slider spin box, the display
    colour converter) is a field of the class [Externals], over which every
    definition and theorem is stated.

    The file has the model first, then the properties and a sample instance
    of [Externals] on which the model runs, then the proofs. *)

From Stdlib Require Import ZArith QArith Qcanon Qround Qpower Lqa Lia Bool List.
From Stdlib Require Import SpecFloat.
Import ListNotations.

Set Implicit Arguments.

(** ** Numbers: IEEE 754 binary floating point *)

(** A floating-point value: not a number, an infinity with its sign, or a
    finite value, given by the rational it is. *)
Inductive ieee :=
| NaN
| Inf (negative : bool)
| Fin (q : Qc).

Definition qreal := ieee.
Definition float := ieee.
Definition half := ieee.

(** A binary format: the precision in bits and the exponent bound. *)
Record format := { prec : Z; emax : Z }.

Definition binary16 : format := {| prec := 11; emax := 16 |}.
Definition binary32 : format := {| prec := 24; emax := 128 |}.
Definition binary64 : format := {| prec := 53; emax := 1024 |}.

(** The exponent of the least positive value. *)
Definition emin (f : format) : Z := 3 - emax f - prec f.

Definition pow2 (k : Z) : Q := (2 ^ k)%Q.

(** The integer part of the binary logarithm of a positive rational. *)
Definition ilog2 (q : Q) : Z :=
  let k := (Z.log2 (Qnum q) - Z.log2 (Zpos (Qden q)))%Z in
  if Qle_bool (pow2 k) q then k else (k - 1)%Z.

(** The nearest integer, the even one of two that are equally near. *)
Definition round_half_even (q : Q) : Z :=
  let f := Qfloor q in
  match (q - inject_Z f ?= 1 # 2)%Q with
  | Lt => f
  | Gt => (f + 1)%Z
  | Eq => if Z.even f then f else (f + 1)%Z
  end.

(** The exponent of the unit in the last place of a positive rational. *)
Definition exponent (f : format) (q : Q) : Z :=
  Z.max (ilog2 q - prec f + 1) (emin f).

(** A positive rational rounded to a multiple of its unit in the last
    place. *)
Definition rounded (f : format) (q : Q) : Q :=
  let e := exponent f q in
  (inject_Z (round_half_even (q / pow2 e)) * pow2 e)%Q.

(** Rounding to nearest, ties to even, of a positive rational: what
    reaches [2 ^ emax] overflows to infinity. *)
Definition rnd_pos (f : format) (q : Q) : ieee :=
  let r := rounded f q in
  if Qle_bool (pow2 (emax f)) r then Inf false else Fin (Q2Qc r).

Definition fneg (x : ieee) : ieee :=
  match x with
  | NaN => NaN
  | Inf s => Inf (negb s)
  | Fin q => Fin (- q)%Qc
  end.

(** Rounding of any rational. *)
Definition rnd (f : format) (q : Qc) : ieee :=
  match (q ?= 0)%Qc with
  | Eq => Fin 0%Qc
  | Gt => rnd_pos f (this q)
  | Lt => fneg (rnd_pos f (- this q)%Q)
  end.

Definition is_zero (q : Qc) : bool :=
  match (q ?= 0)%Qc with Eq => true | _ => false end.

Definition is_neg (q : Qc) : bool :=
  match (q ?= 0)%Qc with Lt => true | _ => false end.

(** The four operations in a format. *)
Definition fadd (f : format) (x y : ieee) : ieee :=
  match x, y with
  | NaN, _ | _, NaN => NaN
  | Inf a, Inf b => if Bool.eqb a b then Inf a else NaN
  | Inf a, Fin _ => Inf a
  | Fin _, Inf b => Inf b
  | Fin a, Fin b => rnd f (a + b)%Qc
  end.

Definition fsub (f : format) (x y : ieee) : ieee := fadd f x (fneg y).

Definition fmul (f : format) (x y : ieee) : ieee :=
  match x, y with
  | NaN, _ | _, NaN => NaN
  | Inf a, Inf b => Inf (xorb a b)
  | Inf a, Fin q | Fin q, Inf a =>
      if is_zero q then NaN else Inf (xorb a (is_neg q))
  | Fin a, Fin b => rnd f (a * b)%Qc
  end.

Definition fdiv (f : format) (x y : ieee) : ieee :=
  match x, y with
  | NaN, _ | _, NaN => NaN
  | Inf _, Inf _ => NaN
  | Inf a, Fin q => Inf (xorb a (is_neg q))
  | Fin _, Inf _ => Fin 0%Qc
  | Fin a, Fin b =>
      if is_zero b then (if is_zero a then NaN else Inf (is_neg a))
      else rnd f (a / b)%Qc
  end.

(** The comparison: NaN compares with nothing. *)
Definition fcompare (x y : ieee) : option comparison :=
  match x, y with
  | NaN, _ | _, NaN => None
  | Inf a, Inf b =>
      Some (if a then (if b then Eq else Lt) else (if b then Gt else Eq))
  | Inf a, Fin _ => Some (if a then Lt else Gt)
  | Fin _, Inf b => Some (if b then Gt else Lt)
  | Fin a, Fin b => Some (a ?= b)%Qc
  end.

(** The C++ operators [<] and [<=] ([>=] with the operands exchanged). *)
Definition fltb (x y : ieee) : bool :=
  match fcompare x y with Some Lt => true | _ => false end.

Definition fleb (x y : ieee) : bool :=
  match fcompare x y with Some Lt | Some Eq => true | _ => false end.

Definition flt (x y : ieee) : Prop := fltb x y = true.
Definition fle (x y : ieee) : Prop := fleb x y = true.

(** A store to a [float] and to a [half]; a [float] read as a [double]
    keeps its value. *)
Definition to_float (x : ieee) : float :=
  match x with Fin q => rnd binary32 q | _ => x end.

Definition to_half (x : ieee) : half :=
  match x with Fin q => rnd binary16 q | _ => x end.

(** The product of two [float]s. *)
Definition mulf (x y : float) : float := fmul binary32 x y.

Declare Scope ieee_scope.
Delimit Scope ieee_scope with F.
Bind Scope ieee_scope with ieee.
Open Scope ieee_scope.

(** The operators of [double] arithmetic. *)
Notation "0" := (Fin 0%Qc) : ieee_scope.
Notation "1" := (Fin 1%Qc) : ieee_scope.
Infix "+" := (fadd binary64) : ieee_scope.
Infix "-" := (fsub binary64) : ieee_scope.
Infix "*" := (fmul binary64) : ieee_scope.
Infix "/" := (fdiv binary64) : ieee_scope.
Notation "- x" := (fneg x) : ieee_scope.
Infix "<?" := fltb (at level 70, no associativity) : ieee_scope.
Infix "<=?" := fleb (at level 70, no associativity) : ieee_scope.
Infix "<" := flt : ieee_scope.
Infix "<=" := fle : ieee_scope.
Notation "x <= y <= z" := (fle x y /\ fle y z) : ieee_scope.

(** A literal that is a value of its format as it stands, [n/d]. *)
Definition lit (n : Z) (d : positive) : ieee := Fin (Q2Qc (n # d)).

(** A [float] literal, rounded as the compiler rounds it: [1.10f]. *)
Definition litf (n : Z) (d : positive) : float := rnd binary32 (Q2Qc (n # d)).

(** [int] to [qreal]: every [int] is a [double]. *)
Definition ofInt (z : Z) : qreal := Fin (Q2Qc (inject_Z z)).

(** [int] to [float]. *)
Definition ofIntf (z : Z) : float := rnd binary32 (Q2Qc (inject_Z z)).

(** A value of Stdlib's [spec_float], to compare the operations above
    with those of [SpecFloat]. *)
Definition ofSpecFloat (x : spec_float) : ieee :=
  match x with
  | S754_zero _ => 0
  | S754_infinity s => Inf s
  | S754_nan => NaN
  | S754_finite s m e =>
      Fin (Q2Qc (inject_Z (if s then Zneg m else Zpos m) * pow2 e)%Q)
  end.

(** The same number. *)
Definition same_number (x y : ieee) : bool :=
  match x, y with
  | NaN, NaN => true
  | Inf a, Inf b => Bool.eqb a b
  | Fin a, Fin b => Qeq_bool (this a) (this b)
  | _, _ => false
  end.

Definition agrees (f : format)
    (spec : Z -> Z -> spec_float -> spec_float -> spec_float)
    (op : format -> ieee -> ieee -> ieee) (x y : spec_float) : bool :=
  same_number (ofSpecFloat (spec (prec f) (emax f) x y))
              (op f (ofSpecFloat x) (ofSpecFloat y)).

(** ** The Qt helpers of qglobal.h (Qt 5) *)

(** [qMin(a, b)] is [(a < b) ? a : b]. *)
Definition qMin (a b : ieee) : ieee := if a <? b then a else b.

(** [qMax(a, b)] is [(a < b) ? b : a]. *)
Definition qMax (a b : ieee) : ieee := if a <? b then b else a.

(** [qBound(min, val, max)] is [qMax(min, qMin(max, val))]. *)
Definition qBound (min val max : ieee) : ieee := qMax min (qMin max val).

(** [qAbs(t)] is [t >= 0 ? t : -t]. *)
Definition qAbs (t : ieee) : ieee := if 0 <=? t then t else - t.

(** [qFuzzyCompare(double p1, double p2)] is
    [qAbs(p1 - p2) * 1000000000000. <= qMin(qAbs(p1), qAbs(p2))]. *)
Definition qFuzzyCompare (p1 p2 : qreal) : bool :=
  qAbs (p1 - p2) * lit 1000000000000 1 <=? qMin (qAbs p1) (qAbs p2).

(** The limits of a 32-bit [int]. *)
Definition INT_MIN : Z := - 2 ^ 31.
Definition INT_MAX : Z := 2 ^ 31 - 1.

(** [int(d)]: the cast of a double to [int] truncates towards zero; its
    behaviour is undefined when the double is no number or the truncated
    value does not fit. *)
Definition toInt (d : qreal) : option Z :=
  match d with
  | Fin q =>
      let z := Z.quot (Qnum (this q)) (Zpos (Qden (this q))) in
      if ((INT_MIN <=? z) && (z <=? INT_MAX))%Z then Some z else None
  | _ => None
  end.

(** [qRound(double d)] is
    [d >= 0.0 ? int(d + 0.5) : int(d - double(int(d-1)) + 0.5) + int(d-1)]. *)
Definition qRound (d : qreal) : option Z :=
  if 0 <=? d then toInt (d + lit 1 2)
  else
    match toInt (d - 1) with
    | None => None
    | Some i =>
        match toInt (d - ofInt i + lit 1 2) with
        | None => None
        | Some j => Some (j + i)%Z
        end
    end.

(** [std::max({r, g, b})]: the first greatest element. *)
Definition max3 (r g b : float) : float :=
  let m := if r <? g then g else r in
  if m <? b then b else m.

(** ** Colour spaces *)

(** The colour model and colour depth identifiers of
    KoColorModelStandardIds.h that the widget names; every other identifier
    is an [Other...] value. *)
Inductive ColorModelId :=
| RGBAColorModelID
| OtherColorModelID (n : nat).

Inductive ColorDepthId :=
| Integer8BitsColorDepthID
| Float16BitsColorDepthID
| Float32BitsColorDepthID
| Float64BitsColorDepthID
| OtherColorDepthID (n : nat).

Definition ColorModelId_eqb (a b : ColorModelId) : bool :=
  match a, b with
  | RGBAColorModelID, RGBAColorModelID => true
  | OtherColorModelID n, OtherColorModelID m => Nat.eqb n m
  | _, _ => false
  end.

Definition ColorDepthId_eqb (a b : ColorDepthId) : bool :=
  match a, b with
  | Integer8BitsColorDepthID, Integer8BitsColorDepthID => true
  | Float16BitsColorDepthID, Float16BitsColorDepthID => true
  | Float32BitsColorDepthID, Float32BitsColorDepthID => true
  | Float64BitsColorDepthID, Float64BitsColorDepthID => true
  | OtherColorDepthID n, OtherColorDepthID m => Nat.eqb n m
  | _, _ => false
  end.

Definition KoColorProfile := nat.

Record KoColorSpace := {
  colorModelId : ColorModelId;
  colorDepthId : ColorDepthId;
  profile : KoColorProfile
}.

(** [QSurfaceFormat::ColorSpace]. *)
Inductive SurfaceColorSpace :=
| DefaultColorSpace
| sRGBColorSpace
| scRGBColorSpace
| bt2020PQColorSpace.

(** ** The objects the widget owns or points to *)

(** The display colour converter, as far as the widget asks it. *)
Record KisDisplayColorConverter := {
  paintingColorSpace : KoColorSpace;
  canSkipDisplayConversion : KoColorSpace -> bool
}.

(** The two clickable image widgets: the handle position and its opacity
    flag.  The image they show is computed by [uploadPaletteData]. *)
Record KisClickableGLImageWidget := {
  normalizedPos : qreal * qreal;
  useHandleOpacity : bool
}.

(** The luminance slider. *)
Record KisSliderSpinBox := {
  sliderValue : Z;
  isEnabled : bool
}.

(** [struct KisSmallColorWidget::Private], without the timers and the signal
    compressors, which only schedule repaints. *)
Record Private := {
  hue : qreal;          (* 0 ... 1.0 *)
  value : qreal;        (* 0 ... 1.0 *)
  saturation : qreal;   (* 0 ... 1.0 *)
  updateAllowed : bool;
  hueWidget : KisClickableGLImageWidget;
  valueWidget : KisClickableGLImageWidget;
  dynamicRange : option KisSliderSpinBox;
  currentRelativeDynamicRange : qreal;
  displayColorConverter : option KisDisplayColorConverter;
  hasHDR : bool;
  hasHardwareHDR : bool
}.

Definition huePreferredHeight : Z := 32.

(** [qreal effectiveRelativeDynamicRange() const] *)
Definition effectiveRelativeDynamicRange (d : Private) : qreal :=
  if hasHDR d then currentRelativeDynamicRange d else 1.

(** Field updates. *)
Definition set_hue (h : qreal) (d : Private) : Private :=
  {| hue := h; value := value d; saturation := saturation d;
     updateAllowed := updateAllowed d; hueWidget := hueWidget d;
     valueWidget := valueWidget d; dynamicRange := dynamicRange d;
     currentRelativeDynamicRange := currentRelativeDynamicRange d;
     displayColorConverter := displayColorConverter d;
     hasHDR := hasHDR d; hasHardwareHDR := hasHardwareHDR d |}.

Definition set_value (v : qreal) (d : Private) : Private :=
  {| hue := hue d; value := v; saturation := saturation d;
     updateAllowed := updateAllowed d; hueWidget := hueWidget d;
     valueWidget := valueWidget d; dynamicRange := dynamicRange d;
     currentRelativeDynamicRange := currentRelativeDynamicRange d;
     displayColorConverter := displayColorConverter d;
     hasHDR := hasHDR d; hasHardwareHDR := hasHardwareHDR d |}.

Definition set_saturation (s : qreal) (d : Private) : Private :=
  {| hue := hue d; value := value d; saturation := s;
     updateAllowed := updateAllowed d; hueWidget := hueWidget d;
     valueWidget := valueWidget d; dynamicRange := dynamicRange d;
     currentRelativeDynamicRange := currentRelativeDynamicRange d;
     displayColorConverter := displayColorConverter d;
     hasHDR := hasHDR d; hasHardwareHDR := hasHardwareHDR d |}.

Definition set_updateAllowed (u : bool) (d : Private) : Private :=
  {| hue := hue d; value := value d; saturation := saturation d;
     updateAllowed := u; hueWidget := hueWidget d;
     valueWidget := valueWidget d; dynamicRange := dynamicRange d;
     currentRelativeDynamicRange := currentRelativeDynamicRange d;
     displayColorConverter := displayColorConverter d;
     hasHDR := hasHDR d; hasHardwareHDR := hasHardwareHDR d |}.

Definition set_hueWidget (w : KisClickableGLImageWidget) (d : Private) : Private :=
  {| hue := hue d; value := value d; saturation := saturation d;
     updateAllowed := updateAllowed d; hueWidget := w;
     valueWidget := valueWidget d; dynamicRange := dynamicRange d;
     currentRelativeDynamicRange := currentRelativeDynamicRange d;
     displayColorConverter := displayColorConverter d;
     hasHDR := hasHDR d; hasHardwareHDR := hasHardwareHDR d |}.

Definition set_valueWidget (w : KisClickableGLImageWidget) (d : Private) : Private :=
  {| hue := hue d; value := value d; saturation := saturation d;
     updateAllowed := updateAllowed d; hueWidget := hueWidget d;
     valueWidget := w; dynamicRange := dynamicRange d;
     currentRelativeDynamicRange := currentRelativeDynamicRange d;
     displayColorConverter := displayColorConverter d;
     hasHDR := hasHDR d; hasHardwareHDR := hasHardwareHDR d |}.

Definition set_dynamicRange (s : option KisSliderSpinBox) (d : Private) : Private :=
  {| hue := hue d; value := value d; saturation := saturation d;
     updateAllowed := updateAllowed d; hueWidget := hueWidget d;
     valueWidget := valueWidget d; dynamicRange := s;
     currentRelativeDynamicRange := currentRelativeDynamicRange d;
     displayColorConverter := displayColorConverter d;
     hasHDR := hasHDR d; hasHardwareHDR := hasHardwareHDR d |}.

Definition set_currentRelativeDynamicRange (x : qreal) (d : Private) : Private :=
  {| hue := hue d; value := value d; saturation := saturation d;
     updateAllowed := updateAllowed d; hueWidget := hueWidget d;
     valueWidget := valueWidget d; dynamicRange := dynamicRange d;
     currentRelativeDynamicRange := x;
     displayColorConverter := displayColorConverter d;
     hasHDR := hasHDR d; hasHardwareHDR := hasHardwareHDR d |}.

Definition set_displayColorConverter (c : option KisDisplayColorConverter)
    (d : Private) : Private :=
  {| hue := hue d; value := value d; saturation := saturation d;
     updateAllowed := updateAllowed d; hueWidget := hueWidget d;
     valueWidget := valueWidget d; dynamicRange := dynamicRange d;
     currentRelativeDynamicRange := currentRelativeDynamicRange d;
     displayColorConverter := c;
     hasHDR := hasHDR d; hasHardwareHDR := hasHardwareHDR d |}.

Definition set_hasHDR (b : bool) (d : Private) : Private :=
  {| hue := hue d; value := value d; saturation := saturation d;
     updateAllowed := updateAllowed d; hueWidget := hueWidget d;
     valueWidget := valueWidget d; dynamicRange := dynamicRange d;
     currentRelativeDynamicRange := currentRelativeDynamicRange d;
     displayColorConverter := displayColorConverter d;
     hasHDR := b; hasHardwareHDR := hasHardwareHDR d |}.

(** The setters of the owned widgets. *)
Definition setNormalizedPos (p : qreal * qreal) (w : KisClickableGLImageWidget)
  : KisClickableGLImageWidget :=
  {| normalizedPos := p; useHandleOpacity := useHandleOpacity w |}.

Definition setUseHandleOpacity (b : bool) (w : KisClickableGLImageWidget)
  : KisClickableGLImageWidget :=
  {| normalizedPos := normalizedPos w; useHandleOpacity := b |}.

Definition setEnabled (b : bool) (s : KisSliderSpinBox) : KisSliderSpinBox :=
  {| sliderValue := sliderValue s; isEnabled := b |}.

(** ** The monad of the member functions

    A member function reads and writes the [Private] struct and either
    returns or ends the run (a null pointer is dereferenced, a conversion to
    [int] is out of range). *)

Definition M (A : Type) : Type := Private -> option (A * Private).

Definition ret {A} (a : A) : M A := fun d => Some (a, d).

Definition bind {A B} (m : M A) (k : A -> M B) : M B :=
  fun d => match m d with
           | Some (a, d') => k a d'
           | None => None
           end.

Definition crash {A} : M A := fun _ => None.

Definition get : M Private := fun d => Some (d, d).

Definition modify (f : Private -> Private) : M unit := fun d => Some (tt, f d).

Notation "x <- m ;; k" := (bind m (fun x => k))
  (at level 61, m at next level, right associativity).
Notation "m ;;; k" := (bind m (fun _ => k))
  (at level 61, right associativity).
Notation "' pat <- m ;; k" := (bind m (fun x => match x with pat => k end))
  (at level 61, pat pattern, m at next level, right associativity).

(** The state a run ends in, if it ends. *)
Definition exec {A} (m : M A) (d : Private) : option Private :=
  match m d with Some (_, d') => Some d' | None => None end.

(** ** Images *)

(** One pixel: [Imf::Rgba], and four consecutive floats of a paint device. *)
Record Rgba := {
  pxl_r : float;
  pxl_g : float;
  pxl_b : float;
  pxl_a : float
}.

(** [KisGLImageF16]: the size and the pixels, row after row. *)
Record KisGLImageF16 := {
  width : Z;
  height : Z;
  data : list Rgba
}.

(** A pixel of floats stored as a pixel of halves. *)
Definition halves (p : Rgba) : Rgba :=
  {| pxl_r := to_half (pxl_r p); pxl_g := to_half (pxl_g p);
     pxl_b := to_half (pxl_b p); pxl_a := to_half (pxl_a p) |}.

(** The pixel at column [x] of row [y]. *)
Definition pixel (image : KisGLImageF16) (x y : Z) : option Rgba :=
  nth_error (data image) (Z.to_nat (y * width image + x)).

(** The values [0, 1, ..., n-1] of a loop counter. *)
Definition upto (n : Z) : list Z := map Z.of_nat (seq 0 (Z.to_nat n)).

(** [for (y = 0; y < h; y++) for (x = 0; x < w; x++)], one pixel a turn. *)
Definition forEachPixel (w h : Z) (f : Z -> Z -> Rgba) : list Rgba :=
  flat_map (fun y => map (fun x => f x y) (upto w)) (upto h).

(** The two fill policies of [uploadPaletteData]. *)
Inductive FillPolicy := FillHPolicy | FillSVPolicy.

(** ** What the widget calls outside the embedded files

    One record holds the functions of the repository that the widget calls
    and whose code is elsewhere; every definition and theorem below is
    stated for an arbitrary such record. *)
Class Externals := {
  (** [KoColor], with [KoColor::convertTo] and the two channel functions of
      [KoColorSpace].  A channel vector is the [QVector<float>] of four
      elements the widget allocates. *)
  KoColor : Type;
  convertTo : KoColor -> KoColorSpace -> KoColor;
  normalisedChannelsValue : KoColorSpace -> KoColor -> list float;
  fromNormalisedChannelsValue : KoColorSpace -> list float -> KoColor;

  (** [RGBToHSV(r, g, b, &h, &s, &v)] and [HSVToRGB(h, s, v, &r, &g, &b)] of
      KoColorConversions.h, with the results returned as a triple. *)
  RGBToHSV : float -> float -> float -> float * float * float;
  HSVToRGB : float -> float -> float -> float * float * float;

  (** The profile of [KoColorSpaceRegistry::rgb8()] and the profile the
      registry picks when [colorSpace] is called without one. *)
  rgb8_profile : KoColorProfile;
  defaultProfile : ColorModelId -> ColorDepthId -> KoColorProfile;

  (** [KisSliderSpinBox::setValue]: from the value shown and the value asked
      for, the value shown afterwards and the value, if any, handed to the
      slots of [valueChanged(int)]. *)
  sliderSetValue : Z -> Z -> Z * option Z;

  (** The owned widgets as their constructors leave them. *)
  newGLImageWidget : KisClickableGLImageWidget;
  newSliderSpinBox : KisSliderSpinBox;

  (** The slots connected to [colorChanged(KoColor)]: the colours they hand
      back to [setColor] while the signal is delivered.  Of the widget the
      slots call [setColor] only, the call [updateAllowed] guards. *)
  colorChangedSlots : KoColor -> list KoColor;

  (** The default of the parameter [notifyChanged] of [setHSV], which is
      declared in the header. *)
  notifyChanged_default : bool;

  (** [KisOpenGLModeProber::instance()->surfaceformatInUse().colorSpace()]. *)
  surfaceColorSpace : SurfaceColorSpace;

  (** [KisDisplayColorConverter::applyDisplayFilteringF32] on a device of the
      given colour space, and [KisFixedPaintDevice::convertTo] from one
      colour space to another, both on a buffer of four floats a pixel. *)
  applyDisplayFilteringF32 :
    KisDisplayColorConverter -> KoColorSpace -> list Rgba -> list Rgba;
  convertDeviceTo : KoColorSpace -> KoColorSpace -> list Rgba -> list Rgba
}.

(** ** The member functions of KisSmallColorWidget *)

Section Widget.

Context {E : Externals}.

(** *** The colour space registry *)

Definition colorSpace (m : ColorModelId) (dp : ColorDepthId) (p : KoColorProfile)
  : KoColorSpace :=
  {| colorModelId := m; colorDepthId := dp; profile := p |}.

Definition rgb8 : KoColorSpace :=
  colorSpace RGBAColorModelID Integer8BitsColorDepthID rgb8_profile.

(** *** Construction *)

(** The constructor of KisSmallColorWidget; [useHDRMode] is
    what [KisOpenGLModeProber::instance()->useHDRMode()] answers.  The
    slider is given its first value, 80 times the dynamic range, before
    [valueChanged] is connected. *)
Definition KisSmallColorWidget_new (useHDRMode : bool) : Private :=
  {| hue := 0;
     value := 0;
     saturation := 0;
     updateAllowed := true;
     hueWidget := newGLImageWidget;
     valueWidget := newGLImageWidget;
     dynamicRange :=
       if useHDRMode
       then Some {| sliderValue :=
                      fst (sliderSetValue (sliderValue newSliderSpinBox) 80);
                    isEnabled := isEnabled newSliderSpinBox |}
       else None;
     currentRelativeDynamicRange := 1;
     displayColorConverter := None;
     hasHDR := false;
     hasHardwareHDR := useHDRMode |}.

(** *** setHue, setHSV *)

(** [setHSV(h, s, v, notifyChanged)].  The function is written against the
    action [tell] it runs when [notifyChanged] holds, which is
    [tellColorChanged]: that one delivers a signal whose slots call
    [setColor], and [setColor] calls [setHSV] with [notifyChanged] false.
    [newH] only starts a signal compressor. *)
Definition setHSV_with (tell : M unit) (h s v : qreal) (notifyChanged : bool)
  : M unit :=
  let h := qBound 0 h 1 in
  let s := qBound 0 s 1 in
  let v := qBound 0 v 1 in
  modify (set_hue h) ;;;
  modify (set_value v) ;;;
  modify (set_saturation s) ;;;
  if notifyChanged then tell else ret tt.

(** *** slotUpdateDynamicRange, slotDisplayConfigurationChanged *)

(** [slotUpdatePalettes()] uploads two images to the image widgets and
    leaves [Private] as it is; the images are [updateHuePalette] and
    [updateSVPalette] below. *)
Definition slotUpdatePalettes : M unit := ret tt.

(** [slotUpdateDynamicRange(int maxLuminance)] *)
Definition slotUpdateDynamicRange (maxLuminance : Z) : M unit :=
  d <- get ;;
  let oldRange := currentRelativeDynamicRange d in
  let newRange := ofInt maxLuminance / lit 80 1 in
  if qFuzzyCompare oldRange newRange then ret tt
  else
    let denormHue := to_float (hue d * lit 360 1) in
    let saturation := to_float (saturation d) in
    let value := to_float (value d) in
    let '(r, g, b) := HSVToRGB denormHue saturation value in
    let transformCoeff := newRange / oldRange in
    let r := to_float (qBound 0 (r * transformCoeff) 1) in
    let g := to_float (qBound 0 (g * transformCoeff) 1) in
    let b := to_float (qBound 0 (b * transformCoeff) 1) in
    let '(denormHue, saturation, value) := RGBToHSV r g b in
    modify (set_currentRelativeDynamicRange newRange) ;;;
    slotUpdatePalettes ;;;
    setHSV_with (ret tt) (denormHue / lit 360 1) saturation value false ;;;
    modify (fun d => set_hueWidget
              (setNormalizedPos (denormHue / lit 360 1, 0) (hueWidget d)) d) ;;;
    modify (fun d => set_valueWidget
              (setNormalizedPos (saturation, 1 - value) (valueWidget d)) d).

(** The depths for which [slotDisplayConfigurationChanged] turns HDR on. *)
Definition isFloatDepth (dp : ColorDepthId) : bool :=
  ColorDepthId_eqb dp Float16BitsColorDepthID
  || ColorDepthId_eqb dp Float32BitsColorDepthID
  || ColorDepthId_eqb dp Float64BitsColorDepthID.

(** [slotDisplayConfigurationChanged()] *)
Definition slotDisplayConfigurationChanged : M unit :=
  modify (set_hasHDR false) ;;;
  d <- get ;;
  (match hasHardwareHDR d, displayColorConverter d with
   | true, Some conv =>
       let cs := paintingColorSpace conv in
       modify (set_hasHDR
                 (ColorModelId_eqb (colorModelId cs) RGBAColorModelID
                  && isFloatDepth (colorDepthId cs)))
   | _, _ => ret tt
   end) ;;;
  modify (fun d => match dynamicRange d with
                   | Some s => set_dynamicRange (Some (setEnabled (hasHDR d) s)) d
                   | None => d
                   end) ;;;
  modify (fun d => set_hueWidget
            (setUseHandleOpacity (negb (hasHDR d)) (hueWidget d)) d) ;;;
  modify (fun d => set_valueWidget
            (setUseHandleOpacity (negb (hasHDR d)) (valueWidget d)) d) ;;;
  slotUpdatePalettes.

(** [setDisplayColorConverter(converter)]; [None] is the null pointer. *)
Definition setDisplayColorConverter (converter : option KisDisplayColorConverter)
  : M unit :=
  modify (set_displayColorConverter converter) ;;;
  slotDisplayConfigurationChanged.

(** *** setColor *)

(** The colour space both [setColor] and [tellColorChanged] work in: the
    painting colour space, or rgb8 when its model is not RGBA. *)
Definition workingColorSpace (conv : KisDisplayColorConverter) : KoColorSpace :=
  let cs := paintingColorSpace conv in
  if negb (ColorModelId_eqb (colorModelId cs) RGBAColorModelID) then rgb8
  else cs.

(** [setColor]: r, g and b are picked from the channel vector. *)
Definition channelsToRGB (cs : KoColorSpace) (channels : list float)
  : float * float * float :=
  if ColorDepthId_eqb (colorDepthId cs) Integer8BitsColorDepthID
  then (nth 2 channels 0, nth 1 channels 0, nth 0 channels 0)
  else (nth 0 channels 0, nth 1 channels 0, nth 2 channels 0).

(** [setColor]: from the colour to r, g and b, through a conversion to the
    working colour space and its normalised channels. *)
Definition setColor_channels (color : KoColor) (conv : KisDisplayColorConverter)
  : float * float * float :=
  let cs := workingColorSpace conv in
  let newColor := convertTo color cs in
  let channels := normalisedChannelsValue cs newColor in
  channelsToRGB cs channels.

(** [d->dynamicRange->setValue(v)], with the delivery of [valueChanged] to
    [slotUpdateDynamicRange], the slot the constructor connects. *)
Definition dynamicRange_setValue (v : Z) : M unit :=
  d <- get ;;
  match dynamicRange d with
  | None => crash
  | Some s =>
      let '(shown, emitted) := sliderSetValue (sliderValue s) v in
      modify (set_dynamicRange
                (Some {| sliderValue := shown; isEnabled := isEnabled s |})) ;;;
      match emitted with
      | Some e => slotUpdateDynamicRange e
      | None => ret tt
      end
  end.

(** [setColor], inside [if (d->hasHDR)]: the range coefficient the channels
    are divided by. *)
Definition setColor_rangeCoeff (r g b : float) : M qreal :=
  d <- get ;;
  let rangeCoeff := effectiveRelativeDynamicRange d in
  if (rangeCoeff <? r) || (rangeCoeff <? g) || (rangeCoeff <? b) then
    let rangeCoeff := mulf (max3 r g b) (litf 11 10) in
    match qRound (lit 80 1 * rangeCoeff) with
    | None => crash
    | Some newMaxLuminance =>
        slotUpdateDynamicRange newMaxLuminance ;;;
        dynamicRange_setValue newMaxLuminance ;;;
        ret rangeCoeff
    end
  else ret rangeCoeff.

(** [setColor]: the channels are brought into the unit range. *)
Definition setColor_scale (r g b : float) : M (float * float * float) :=
  d <- get ;;
  if hasHDR d then
    rangeCoeff <- setColor_rangeCoeff r g b ;;
    ret (to_float (r / rangeCoeff), to_float (g / rangeCoeff),
         to_float (b / rangeCoeff))
  else
    ret (qBound 0 r 1, qBound 0 g 1, qBound 0 b 1).

(** [setColor(const KoColor &color)].  The first assertion recovers by
    running [slotDisplayConfigurationChanged], the second by returning. *)
Definition setColor (color : KoColor) : M unit :=
  d <- get ;;
  if negb (updateAllowed d) then ret tt
  else
    (match dynamicRange d with
     | Some s =>
         if Bool.eqb (hasHDR d) (isEnabled s) then ret tt
         else slotDisplayConfigurationChanged
     | None => ret tt
     end) ;;;
    d <- get ;;
    if negb (negb (hasHDR d) || hasHardwareHDR d) then ret tt
    else
      match displayColorConverter d with
      | None => crash
      | Some conv =>
          let '(r, g, b) := setColor_channels color conv in
          ' (r, g, b) <- setColor_scale r g b ;;
          let '(denormHue, saturation, value) := RGBToHSV r g b in
          modify (fun d => set_hueWidget
                    (setNormalizedPos (denormHue / lit 360 1, 0) (hueWidget d)) d) ;;;
          modify (fun d => set_valueWidget
                    (setNormalizedPos (saturation, 1 - value) (valueWidget d)) d) ;;;
          setHSV_with (ret tt) (denormHue / lit 360 1) saturation value false
      end.

(** *** tellColorChanged *)

(** [tellColorChanged]: the channel vector built from r, g and b. *)
Definition rgbToValues (cs : KoColorSpace) (r g b : float) : list float :=
  if ColorDepthId_eqb (colorDepthId cs) Integer8BitsColorDepthID
  then [b; g; r; 1]
  else [r; g; b; 1].

(** [emit colorChanged(c)]: the connected slots run one after the other. *)
Fixpoint deliver (colors : list KoColor) : M unit :=
  match colors with
  | [] => ret tt
  | c :: rest => setColor c ;;; deliver rest
  end.

Definition emit_colorChanged (c : KoColor) : M unit :=
  deliver (colorChangedSlots c).

(** [tellColorChanged]: the colour that is announced. *)
Definition tellColorChanged_color (d : Private) (conv : KisDisplayColorConverter)
  : KoColor :=
  let '(r, g, b) := HSVToRGB (hue d * lit 360 1) (saturation d) (value d) in
  let '(r, g, b) :=
    if hasHDR d then
      let rangeCoeff := to_float (effectiveRelativeDynamicRange d) in
      (mulf r rangeCoeff, mulf g rangeCoeff, mulf b rangeCoeff)
    else (r, g, b) in
  let cs := workingColorSpace conv in
  let values := rgbToValues cs r g b in
  fromNormalisedChannelsValue cs values.

(** [tellColorChanged()], written against what [emit colorChanged(c)]
    does with the colour. *)
Definition tellColorChanged_with (emit : KoColor -> M unit) : M unit :=
  modify (set_updateAllowed false) ;;;
  d <- get ;;
  match displayColorConverter d with
  | None => crash
  | Some conv =>
      emit (tellColorChanged_color d conv) ;;;
      modify (set_updateAllowed true)
  end.

(** [tellColorChanged()]: the signal is delivered to the connected
    slots. *)
Definition tellColorChanged : M unit :=
  tellColorChanged_with emit_colorChanged.

(** [setHSV(h, s, v, notifyChanged)] *)
Definition setHSV (h s v : qreal) (notifyChanged : bool) : M unit :=
  setHSV_with tellColorChanged h s v notifyChanged.

(** [setHue(h)] *)
Definition setHue (h : qreal) : M unit :=
  let h := qBound 0 h 1 in
  modify (set_hue h) ;;;
  tellColorChanged.

(** *** The slots of the two image widgets, and resizing *)

(** [slotHueSliderChanged(const QPointF &pos)] *)
Definition slotHueSliderChanged (pos : qreal * qreal) : M unit :=
  d <- get ;;
  let newHue := fst pos in
  if negb (qFuzzyCompare newHue (hue d)) then setHue newHue else ret tt.

(** [slotValueSliderChanged(const QPointF &pos)] *)
Definition slotValueSliderChanged (pos : qreal * qreal) : M unit :=
  d <- get ;;
  let newSaturation := fst pos in
  let newValue := 1 - snd pos in
  if negb (qFuzzyCompare newSaturation (saturation d))
     || negb (qFuzzyCompare newValue (value d))
  then setHSV (hue d) newSaturation newValue notifyChanged_default
  else ret tt.

(** [resizeEvent]: a repaint is scheduled and the palettes are uploaded
    again later. *)
Definition resizeEvent : M unit := ret tt.

(** *** The palette images *)

(** [FillHPolicy::getRGB] and [FillSVPolicy::getRGB] *)
Definition getRGB (policy : FillPolicy) (hue : qreal)
    (xPortionCoeff yPortionCoeff : float) (x y : Z) : float * float * float :=
  match policy with
  | FillHPolicy =>
      HSVToRGB (mulf (mulf xPortionCoeff (ofIntf x)) (litf 360 1)) 1 1
  | FillSVPolicy =>
      HSVToRGB (hue * lit 360 1) (mulf xPortionCoeff (ofIntf x))
               (1 - mulf yPortionCoeff (ofIntf y))
  end.

(** [uploadPaletteData]: the output colour space for the surface in use. *)
Definition outputColorSpace : KoColorSpace :=
  match surfaceColorSpace with
  | scRGBColorSpace =>
      colorSpace RGBAColorModelID Float32BitsColorDepthID
                 (defaultProfile RGBAColorModelID Float32BitsColorDepthID)
  | _ => colorSpace RGBAColorModelID Float32BitsColorDepthID (profile rgb8)
  end.

(** [uploadPaletteData]: the colour space the pixels are generated in. *)
Definition generationColorSpace (d : Private) : KoColorSpace :=
  match displayColorConverter d with
  | None => outputColorSpace
  | Some conv =>
      let cs := paintingColorSpace conv in
      if negb (ColorModelId_eqb (colorModelId cs) RGBAColorModelID)
      then outputColorSpace
      else if negb (ColorDepthId_eqb (colorDepthId cs) Float32BitsColorDepthID)
      then colorSpace RGBAColorModelID Float32BitsColorDepthID (profile cs)
      else cs
  end.

(** [uploadPaletteData]: whether the pixels go to the image as they are. *)
Definition skipsDisplayConversion (d : Private) : bool :=
  match displayColorConverter d with
  | None => true
  | Some conv => canSkipDisplayConversion conv (generationColorSpace d)
  end.

(** [uploadPaletteData<FillPolicy>(widget, size)]: the image handed to
    [widget->loadImage]. *)
Definition uploadPaletteData (policy : FillPolicy) (size : Z * Z) (d : Private)
  : KisGLImageF16 :=
  let w := fst size in
  let h := snd size in
  let xPortionCoeff := to_float (1 / ofInt w) in
  let yPortionCoeff := to_float (1 / ofInt h) in
  let rangeCoeff := to_float (effectiveRelativeDynamicRange d) in
  let fill x y :=
    let '(r, g, b) := getRGB policy (hue d) xPortionCoeff yPortionCoeff x y in
    {| pxl_r := mulf r rangeCoeff; pxl_g := mulf g rangeCoeff;
       pxl_b := mulf b rangeCoeff; pxl_a := 1 |} in
  if skipsDisplayConversion d then
    {| width := w; height := h;
       data := forEachPixel w h (fun x y => halves (fill x y)) |}
  else
    match displayColorConverter d with
    | None => {| width := w; height := h; data := [] |}
    | Some conv =>
        let device := forEachPixel w h fill in
        let device := applyDisplayFilteringF32 conv (generationColorSpace d) device in
        let device := convertDeviceTo (generationColorSpace d) outputColorSpace device in
        {| width := w; height := h; data := map halves device |}
    end.

(** [updateHuePalette()] and [updateSVPalette()]; [w] and [h] are the
    width and the height of the widget. *)
Definition updateHuePalette (w : Z) (d : Private) : KisGLImageF16 :=
  uploadPaletteData FillHPolicy (w, huePreferredHeight) d.

Definition updateSVPalette (w h : Z) (d : Private) : KisGLImageF16 :=
  uploadPaletteData FillSVPolicy (w, h) d.

(** ** The widget as a transition system *)

(** The converter the widget points to belongs to the canvas, which may
    change the painting colour space at any time; the signal
    [displayConfigurationChanged], when it follows, is a call of the
    slot. *)
Definition converterChanges (converter : KisDisplayColorConverter) : M unit :=
  modify (fun d => match displayColorConverter d with
                   | Some _ => set_displayColorConverter (Some converter) d
                   | None => d
                   end).

(** What can happen to a widget: a call of a public member function, the
    delivery of a signal to one of its slots, or a change of the
    converter. *)
Inductive Call :=
| CsetHue (h : qreal)
| CsetHSV (h s v : qreal) (notifyChanged : bool)
| CsetColor (color : KoColor)
| CsetDisplayColorConverter (converter : option KisDisplayColorConverter)
| CslotUpdatePalettes
| CslotHueSliderChanged (pos : qreal * qreal)
| CslotValueSliderChanged (pos : qreal * qreal)
| CslotUpdateDynamicRange (maxLuminance : Z)
| CslotDisplayConfigurationChanged
| CresizeEvent
| CconverterChanges (converter : KisDisplayColorConverter).

Definition run (c : Call) : M unit :=
  match c with
  | CsetHue h => setHue h
  | CsetHSV h s v n => setHSV h s v n
  | CsetColor color => setColor color
  | CsetDisplayColorConverter converter => setDisplayColorConverter converter
  | CslotUpdatePalettes => slotUpdatePalettes
  | CslotHueSliderChanged pos => slotHueSliderChanged pos
  | CslotValueSliderChanged pos => slotValueSliderChanged pos
  | CslotUpdateDynamicRange l => slotUpdateDynamicRange l
  | CslotDisplayConfigurationChanged => slotDisplayConfigurationChanged
  | CresizeEvent => resizeEvent
  | CconverterChanges converter => converterChanges converter
  end.

(** The states of a widget: the constructed one, and every state a call
    that returns leads to.  [allowed] says which calls are considered. *)
Inductive reachable (allowed : Call -> Prop) : Private -> Prop :=
| reachable_new : forall useHDRMode,
    reachable allowed (KisSmallColorWidget_new useHDRMode)
| reachable_run : forall d c d',
    reachable allowed d ->
    allowed c ->
    exec (run c) d = Some d' ->
    reachable allowed d'.

(** Every call. *)
Definition anyCall (c : Call) : Prop := True.

(** The calls in which [slotUpdateDynamicRange] receives a value of the
    slider, whose range the constructor sets to 80 ... 10000. *)
Definition sliderCall (c : Call) : Prop :=
  match c with
  | CslotUpdateDynamicRange l => (80 <= l <= 10000)%Z
  | _ => True
  end.

End Widget.

(** ** The properties that are proved

    Hoare triples over the monad, and the invariants of the widget. *)

Section Properties.

Context {E : Externals}.

(** From a state in [P], a run of [m] that returns ends in [Q]. *)
Definition hoare {A} (P : Private -> Prop) (m : M A)
    (Q : A -> Private -> Prop) : Prop :=
  forall d a d', P d -> m d = Some (a, d') -> Q a d'.

Definition preserves {A} (I : Private -> Prop) (m : M A) : Prop :=
  hoare I m (fun _ => I).

Definition hsv_in_range (d : Private) : Prop :=
  0 <= hue d <= 1 /\ 0 <= saturation d <= 1 /\ 0 <= value d <= 1.

(** A field update that writes none of the three keeps them. *)
Definition keeps_hsv (f : Private -> Private) : Prop :=
  forall d, hue (f d) = hue d /\ saturation (f d) = saturation d
            /\ value (f d) = value d.

(** The condition under which [slotDisplayConfigurationChanged] turns HDR
    on: HDR hardware, and a converter whose painting colour space is RGBA
    with a float depth. *)
Definition hdrEligible (d : Private) : Prop :=
  hasHardwareHDR d = true
  /\ exists conv,
       displayColorConverter d = Some conv
       /\ colorModelId (paintingColorSpace conv) = RGBAColorModelID
       /\ (colorDepthId (paintingColorSpace conv) = Float16BitsColorDepthID
           \/ colorDepthId (paintingColorSpace conv) = Float32BitsColorDepthID
           \/ colorDepthId (paintingColorSpace conv) = Float64BitsColorDepthID).

(** A field update that leaves the configuration alone. *)
Definition keeps_config (f : Private -> Private) : Prop :=
  forall d, hasHDR (f d) = hasHDR d
            /\ hasHardwareHDR (f d) = hasHardwareHDR d
            /\ displayColorConverter (f d) = displayColorConverter d
            /\ (dynamicRange (f d) = None -> dynamicRange d = None).

(** HDR needs HDR hardware, and HDR hardware comes with the slider. *)
Definition wired (d : Private) : Prop :=
  (hasHDR d = true -> hasHardwareHDR d = true)
  /\ (hasHardwareHDR d = true -> dynamicRange d <> None).

(** Relative to a state with hardware flag [hw0] and HDR flag [b0]: the
    hardware flag is the same, and the HDR flag is the same or says
    whether HDR is eligible. *)
Definition hdr_tracked (hw0 b0 : bool) (d : Private) : Prop :=
  hasHardwareHDR d = hw0
  /\ (hasHDR d = b0 \/ (hasHDR d = true <-> hdrEligible d)).

(** The slider tells its slots values of its range only, which the
    constructor sets to 80 ... 10000. *)
Definition slider_in_range : Prop :=
  forall shown asked shown' e,
    sliderSetValue shown asked = (shown', Some e) -> (80 <= e)%Z.

Definition range_ok (d : Private) : Prop :=
  1 <= currentRelativeDynamicRange d.

Definition keeps_range (f : Private -> Private) : Prop :=
  forall d, currentRelativeDynamicRange (f d) = currentRelativeDynamicRange d.

End Properties.

(** ** Further properties of the widget *)

Section MoreProperties.

Context {E : Externals}.

(** Two states that differ at most in the colour, the handle positions,
    the dynamic range and the value the slider shows. *)
Definition same_rest (d d' : Private) : Prop :=
  updateAllowed d' = updateAllowed d
  /\ hasHDR d' = hasHDR d
  /\ hasHardwareHDR d' = hasHardwareHDR d
  /\ displayColorConverter d' = displayColorConverter d
  /\ useHandleOpacity (hueWidget d') = useHandleOpacity (hueWidget d)
  /\ useHandleOpacity (valueWidget d') = useHandleOpacity (valueWidget d)
  /\ option_map isEnabled (dynamicRange d') = option_map isEnabled (dynamicRange d).

(** A run of [m] that returns changes nothing else. *)
Definition frames {A} (m : M A) : Prop :=
  forall d a d', m d = Some (a, d') -> same_rest d d'.

(** The slider is enabled, and the handles are opaque, as
    [slotDisplayConfigurationChanged] leaves them for the HDR flag. *)
Definition slider_synced (d : Private) : Prop :=
  forall s, dynamicRange d = Some s -> isEnabled s = hasHDR d.

Definition display_synced (d : Private) : Prop :=
  slider_synced d
  /\ useHandleOpacity (hueWidget d) = negb (hasHDR d)
  /\ useHandleOpacity (valueWidget d) = negb (hasHDR d).

(** The slider exists exactly on HDR hardware. *)
Definition slider_matches_hardware (d : Private) : Prop :=
  dynamicRange d = None <-> hasHardwareHDR d = false.

(** Some channel exceeds the coefficient [c]. *)
Definition exceeds (c : qreal) (r g b : float) : bool :=
  (c <? r) || (c <? g) || (c <? b).

(** The relative dynamic range is a whole luminance of at least 80,
    divided by 80. *)
Definition on_grid (d : Private) : Prop :=
  exists l, (80 <= l)%Z /\ currentRelativeDynamicRange d = ofInt l / lit 80 1.

End MoreProperties.

(** ** Bounds on rounded values *)

(** A positive rational in the range of the normal values of a format. *)
Definition normal (f : format) (q : Q) : Prop :=
  (pow2 (emin f + prec f - 1) <= q)%Q.

(** The relative error of rounding a normal value: half a unit in the last
    place of 1. *)
Definition half_ulp (f : format) : Q := pow2 (- prec f).

(** A floating-point value that is at least a rational: a finite value
    that is, or the positive infinity. *)
Definition at_least (x : ieee) (q : Q) : Prop :=
  match x with
  | Fin r => (q <= this r)%Q
  | Inf false => True
  | _ => False
  end.

Definition is_finite (x : ieee) : bool :=
  match x with Fin _ => true | _ => false end.

(** A finite value between two rationals. *)
Definition between (x : ieee) (lo hi : Q) : Prop :=
  match x with
  | Fin r => (lo <= this r /\ this r <= hi)%Q
  | _ => False
  end.

(** ** A sample instance, to run the model

    Colours are a colour space with a channel vector, converting keeps the
    channels, the HSV conversions are those of greys (the value is the
    greatest channel), and the slider keeps its value inside 80 ... 10000
    and tells it to its slots. *)

Definition sampleSetValue (shown asked : Z) : Z * option Z :=
  let v := Z.max 80 (Z.min 10000 asked) in (v, Some v).

Definition sampleGLImageWidget : KisClickableGLImageWidget :=
  {| normalizedPos := (0, 0); useHandleOpacity := true |}.

Definition sampleSlider : KisSliderSpinBox :=
  {| sliderValue := 0; isEnabled := true |}.

Definition sampleExternals : Externals := {|
  KoColor := KoColorSpace * list float;
  convertTo := fun c cs => (cs, snd c);
  normalisedChannelsValue := fun _ c => snd c;
  fromNormalisedChannelsValue := fun cs v => (cs, v);
  RGBToHSV := fun r g b => (0, 0, max3 r g b);
  HSVToRGB := fun h s v => (v, v, v);
  rgb8_profile := O;
  defaultProfile := fun _ _ => 1%nat;
  sliderSetValue := sampleSetValue;
  newGLImageWidget := sampleGLImageWidget;
  newSliderSpinBox := sampleSlider;
  colorChangedSlots := fun c => [c];
  notifyChanged_default := true;
  surfaceColorSpace := sRGBColorSpace;
  applyDisplayFilteringF32 := fun _ _ px => px;
  convertDeviceTo := fun _ _ px => px
|}.

(** A float RGBA painting colour space, an 8-bit one, and converters for
    them. *)
Definition rgbaF32 : KoColorSpace :=
  {| colorModelId := RGBAColorModelID;
     colorDepthId := Float32BitsColorDepthID; profile := 1%nat |}.

Definition rgbaU8 : KoColorSpace :=
  {| colorModelId := RGBAColorModelID;
     colorDepthId := Integer8BitsColorDepthID; profile := O |}.

Definition converterF32 : KisDisplayColorConverter :=
  {| paintingColorSpace := rgbaF32; canSkipDisplayConversion := fun _ => true |}.

Definition converterU8 : KisDisplayColorConverter :=
  {| paintingColorSpace := rgbaU8; canSkipDisplayConversion := fun _ => true |}.

(** A widget on HDR hardware that was given the float converter. *)
Definition sampleHDRWidget : option Private :=
  exec (setDisplayColorConverter (Some converterF32))
       (KisSmallColorWidget_new (E := sampleExternals) true).

Definition hdrState : Private :=
  match sampleHDRWidget with
  | Some d => d
  | None => KisSmallColorWidget_new (E := sampleExternals) true
  end.

(** A widget without HDR hardware, as constructed, and the same widget in
    the middle of [tellColorChanged]. *)
Definition sdrState : Private :=
  KisSmallColorWidget_new (E := sampleExternals) false.

Definition blockedState : Private := set_updateAllowed false sdrState.

(** Pairs of doubles and of floats, as [SpecFloat] has them, on which the
    four operations are compared with those of [SpecFloat]. *)
Definition dbl (m e : Z) : spec_float := binary_normalize 53 1024 m e false.
Definition flt32 (m e : Z) : spec_float := binary_normalize 24 128 m e false.

Definition sampleDoubles : list (spec_float * spec_float) :=
    [ (dbl 19 (-4), dbl 11 (-1)); (dbl 1 0, dbl 3 0); (dbl 1 0, dbl 10 0);
    (dbl 123456789 (-40), dbl 987654321 (-3)); (dbl 1 (-1074), dbl 1 (-1));
    (dbl 1 (-1074), dbl 3 (-2)); (dbl 1 1023, dbl 3 0); (dbl (-7) 0, dbl 3 0);
    (dbl 1 (-1000), dbl 1 (-100)); (dbl 5 (-1075), dbl 1 0);
    (dbl 9007199254740993 0, dbl 1 0); (dbl 9007199254740995 0, dbl 1 0);
    (dbl 132 0, dbl 80 0); (dbl 81 0, dbl 80 0); (dbl 1 1023, dbl 1 1023);
    (dbl 0 0, dbl 0 0); (dbl 1 0, dbl 0 0); (S754_infinity false, dbl 0 0);
    (S754_infinity false, S754_infinity true); (S754_nan, dbl 1 0);
    (dbl (-1) 0, S754_infinity true) ].

Definition sampleFloats : list (spec_float * spec_float) :=
    [ (flt32 19 (-4), flt32 9227469 (-23)); (flt32 1 0, flt32 3 0); (flt32 1 0, flt32 10 0);
    (flt32 12345678 (-20), flt32 9876543 (-3)); (flt32 1 (-149), flt32 1 (-1));
    (flt32 1 (-149), flt32 3 (-2)); (flt32 1 127, flt32 3 0); (flt32 (-7) 0, flt32 3 0);
    (flt32 16777217 0, flt32 1 0); (flt32 16777219 0, flt32 1 0);
    (flt32 3 (-1), flt32 9227469 (-23)); (flt32 1 127, flt32 1 127);
    (flt32 0 0, flt32 1 0); (S754_infinity true, flt32 5 0); (S754_nan, S754_nan) ].

Definition agree_all (f : format) (l : list (spec_float * spec_float)) : bool :=
  forallb (fun p =>
             agrees f SFadd fadd (fst p) (snd p)
             && agrees f SFsub fsub (fst p) (snd p)
             && agrees f SFmul fmul (fst p) (snd p)
             && agrees f SFdiv fdiv (fst p) (snd p)) l.

(** A grey of half the brightness, in the float colour space. *)
Definition sampleGrey : @KoColor sampleExternals :=
  (rgbaF32, [lit 1 2; lit 1 2; lit 1 2; 1]).

(** The HDR sample widget after that grey was set. *)
Definition greyState : Private :=
  match exec (setColor (E := sampleExternals) sampleGrey) hdrState with
  | Some d => d
  | None => hdrState
  end.

(** A widget on HDR hardware whose converter was put in place without
    [slotDisplayConfigurationChanged]: the slider is enabled, HDR is off. *)
Definition unsyncedState : Private :=
  set_displayColorConverter (Some converterF32)
    (KisSmallColorWidget_new (E := sampleExternals) true).

Definition recoveredState : Private :=
  match exec (setColor (E := sampleExternals) sampleGrey) unsyncedState with
  | Some d => d
  | None => unsyncedState
  end.

(** A widget without HDR hardware that was given the 8-bit converter. *)
Definition u8State : Private :=
  match exec (setDisplayColorConverter (Some converterU8))
             sdrState with
  | Some d => d
  | None => sdrState
  end.
(** ** The model at work *)

(** The four operations give what those of [SpecFloat] give, on doubles
    and on floats: normal and subnormal values, ties, overflow, division by
    zero, infinities and NaN. *)
Example operations_agree_with_SpecFloat :
  agree_all binary64 sampleDoubles = true
  /\ agree_all binary32 sampleFloats = true.
Proof. split; vm_compute; reflexivity. Qed.

(** [1.10f], a float product, a double quotient, the half of the float
    nearest to 2/3, the float of the double nearest to 81/80, overflow in
    a half, and the divisions by zero. *)
Example rounding_examples :
  same_number (litf 11 10) (lit 9227469 8388608) = true
  /\ same_number (mulf (lit 19 16) (litf 11 10)) (lit 10957619 8388608) = true
  /\ same_number (ofInt 132 / lit 80 1)
       (lit 3715469692580659 2251799813685248) = true
  /\ same_number (to_half (litf 2 3)) (lit 1365 2048) = true
  /\ same_number (to_float (ofInt 81 / lit 80 1)) (lit 8493466 8388608) = true
  /\ to_half (lit 65520 1) = Inf false
  /\ 1 / 0 = Inf false
  /\ 0 / 0 = NaN.
Proof. repeat split; vm_compute; reflexivity. Qed.

Example qRound_examples :
  qRound (lit 177 2) = Some 89%Z
  /\ qRound (lit 5 2) = Some 3%Z
  /\ qRound (lit (-5) 2) = Some (-2)%Z
  /\ qRound (lit (-26) 10) = Some (-3)%Z
  /\ qRound (lit 100000000000 1) = None
  /\ qRound NaN = None
  /\ qRound (Inf false) = None.
Proof. repeat split; vm_compute; reflexivity. Qed.

Example qFuzzyCompare_examples :
  qFuzzyCompare 1 1 = true
  /\ qFuzzyCompare 1 (lit 11 10) = false
  /\ qFuzzyCompare 0 0 = true
  /\ qFuzzyCompare 0 (lit 1 1000000000000000) = false
  /\ qFuzzyCompare NaN NaN = false
  /\ qFuzzyCompare (Inf false) (Inf false) = false.
Proof. repeat split; vm_compute; reflexivity. Qed.

Example qBound_examples :
  qBound 0 (lit 3 2) 1 = 1
  /\ qBound 0 (lit (-3) 2) 1 = 0
  /\ qBound 0 (lit 1 4) 1 = lit 1 4
  /\ qBound 0 NaN 1 = 0
  /\ qBound 0 (Inf false) 1 = 1.
Proof. repeat split. Qed.

(** On the HDR sample widget, whose range is 1, the colour (1/2, 3/2, 1/4)
    raises the coefficient to the float product of 3/2 and 1.10f and the
    luminance to 132; the range stored is the double nearest to 132/80 and
    the value the float nearest to 3/2 over the coefficient. *)
Example setColor_raises_the_range :
  match exec (setColor (E := sampleExternals)
                (rgbaF32, [lit 1 2; lit 3 2; lit 1 4; 1])) hdrState with
  | Some d' =>
      same_number (value d') (lit 7626007 8388608) = true
      /\ same_number (currentRelativeDynamicRange d')
           (lit 3715469692580659 2251799813685248) = true
      /\ option_map sliderValue (dynamicRange d') = Some 132%Z
  | None => False
  end.
Proof. vm_compute. repeat split. Qed.

(** The channel 19/16: 80 times the float product with 1.10f is just below
    104.5, and the luminance is 104. *)
Example setColor_rounds_the_luminance :
  qRound (lit 80 1 * mulf (max3 (lit 1 2) (lit 19 16) (lit 1 4)) (litf 11 10))
  = Some 104%Z.
Proof. vm_compute. reflexivity. Qed.

(** Without a converter [setColor] and [setHue] dereference a null
    pointer. *)
Example setColor_without_converter :
  exec (setColor (E := sampleExternals)
          (rgbaF32, [lit 1 2; lit 3 2; lit 1 4; 1])) sdrState = None
  /\ exec (setHue (E := sampleExternals) (lit 1 4)) sdrState = None.
Proof. split; reflexivity. Qed.

(** A 3 by 2 palette has six pixels, row after row. *)
Example palette_size :
  length (data (updateSVPalette (E := sampleExternals) 3 2 sdrState)) = 6%nat.
Proof. reflexivity. Qed.
(** ** Rounding to nearest is monotone *)

Lemma two_not_zero : ~ (2 == 0)%Q.
Proof. discriminate. Qed.

Lemma pow2_pos k : (0 < pow2 k)%Q.
Proof. apply Qpower_0_lt. reflexivity. Qed.

Lemma pow2_add a b : (pow2 (a + b) == pow2 a * pow2 b)%Q.
Proof. apply Qpower_plus, two_not_zero. Qed.

Lemma pow2_le a b : (a <= b)%Z -> (pow2 a <= pow2 b)%Q.
Proof. intros H. apply Qpower_le_compat_l; [exact H | discriminate]. Qed.

Lemma pow2_lt a b : (a < b)%Z -> (pow2 a < pow2 b)%Q.
Proof. intros H. apply Qpower_lt_compat_l; [exact H | reflexivity]. Qed.

Lemma pow2_lt_inv a b : (pow2 a < pow2 b)%Q -> (a < b)%Z.
Proof. intros H. apply (Qpower_lt_compat_l_inv 2); [exact H | reflexivity]. Qed.

Lemma pow2_Z k : (0 <= k)%Z -> (pow2 k == inject_Z (2 ^ k))%Q.
Proof. intros H. symmetry. apply (Zpower_Qpower 2 k H). Qed.

Lemma pow2_div a b : (pow2 a / pow2 b == pow2 (a - b))%Q.
Proof.
  pose proof (pow2_pos b) as Hb.
  apply Qmult_inj_r with (z := pow2 b).
  { intros N. rewrite N in Hb. exact (Qlt_irrefl _ Hb). }
  rewrite <- pow2_add. replace (a - b + b)%Z with a by ring.
  field. intros N. rewrite N in Hb. exact (Qlt_irrefl _ Hb).
Qed.

Lemma ilog2_spec (q : Q) :
  (0 < q)%Q -> (pow2 (ilog2 q) <= q)%Q /\ (q < pow2 (ilog2 q + 1))%Q.
Proof.
  intros Hq. destruct q as [a b].
  assert (Ha : (0 < a)%Z).
  { unfold Qlt in Hq. simpl in Hq. lia. }
  unfold ilog2. cbn [Qnum Qden].
  set (la := Z.log2 a). set (lb := Z.log2 (Zpos b)).
  assert (Hla : (0 <= la)%Z) by apply Z.log2_nonneg.
  assert (Hlb : (0 <= lb)%Z) by apply Z.log2_nonneg.
  destruct (Z.log2_spec a Ha) as [A1 A2]. fold la in A1, A2.
  destruct (Z.log2_spec (Zpos b) eq_refl) as [B1 B2]. fold lb in B1, B2.
  assert (QA1 : (pow2 la <= inject_Z a)%Q).
  { rewrite pow2_Z by exact Hla. rewrite <- Zle_Qle. exact A1. }
  assert (QA2 : (inject_Z a < pow2 (la + 1))%Q).
  { rewrite pow2_Z by lia. rewrite <- Zlt_Qlt. unfold Z.succ in A2. exact A2. }
  assert (QB1 : (pow2 lb <= inject_Z (Zpos b))%Q).
  { rewrite pow2_Z by exact Hlb. rewrite <- Zle_Qle. exact B1. }
  assert (QB2 : (inject_Z (Zpos b) < pow2 (lb + 1))%Q).
  { rewrite pow2_Z by lia. rewrite <- Zlt_Qlt. unfold Z.succ in B2. exact B2. }
  assert (HB : (0 < inject_Z (Zpos b))%Q) by reflexivity.
  assert (Hdiv : (a # b == inject_Z a / inject_Z (Zpos b))%Q) by apply Qmake_Qdiv.
  destruct (Qle_bool (pow2 (la - lb)) (a # b)) eqn:Hk.
  - split.
    + apply Qle_bool_iff. exact Hk.
    + rewrite Hdiv. apply Qlt_shift_div_r; [exact HB|].
      eapply Qlt_le_trans; [exact QA2|].
      replace (la + 1)%Z with ((la - lb + 1) + lb)%Z by ring.
      rewrite pow2_add. apply Qmult_le_l; [apply pow2_pos | exact QB1].
  - assert (Hlt : (a # b < pow2 (la - lb))%Q).
    { apply Qnot_le_lt. intros N. apply Qle_bool_iff in N. congruence. }
    split.
    + rewrite Hdiv. apply Qle_shift_div_l; [exact HB|].
      eapply Qle_trans; [|exact QA1].
      replace la with ((la - lb - 1) + (lb + 1))%Z at 2 by ring.
      rewrite pow2_add. apply Qmult_le_l; [apply pow2_pos|].
      apply Qlt_le_weak, QB2.
    + replace (la - lb - 1 + 1)%Z with (la - lb)%Z by ring. exact Hlt.
Qed.

Lemma ilog2_mono (x y : Q) :
  (0 < x)%Q -> (x <= y)%Q -> (ilog2 x <= ilog2 y)%Z.
Proof.
  intros Hx Hxy.
  assert (Hy : (0 < y)%Q) by (eapply Qlt_le_trans; eassumption).
  destruct (ilog2_spec Hx) as [X1 _]. destruct (ilog2_spec Hy) as [_ Y2].
  assert (H : (pow2 (ilog2 x) < pow2 (ilog2 y + 1))%Q).
  { eapply Qle_lt_trans; [exact X1|]. eapply Qle_lt_trans; eassumption. }
  apply pow2_lt_inv in H. lia.
Qed.

Lemma round_half_even_bounds (q : Q) :
  (Qfloor q <= round_half_even q <= Qfloor q + 1)%Z.
Proof.
  unfold round_half_even.
  destruct (q - inject_Z (Qfloor q) ?= 1 # 2)%Q; [destruct (Z.even _)| |]; lia.
Qed.

Lemma round_half_even_mono (x y : Q) :
  (x <= y)%Q -> (round_half_even x <= round_half_even y)%Z.
Proof.
  intros Hxy. pose proof (Qfloor_resp_le _ _ Hxy) as Hf.
  pose proof (round_half_even_bounds x) as Bx.
  pose proof (round_half_even_bounds y) as By.
  destruct (Z.eq_dec (Qfloor x) (Qfloor y)) as [E|N]; [|lia].
  unfold round_half_even. rewrite <- E.
  assert (Hr : (x - inject_Z (Qfloor x) <= y - inject_Z (Qfloor x))%Q)
    by (unfold Qminus; apply Qplus_le_l; exact Hxy).
  revert Hr.
  generalize (x - inject_Z (Qfloor x))%Q (y - inject_Z (Qfloor x))%Q.
  intros rx ry Hr.
  destruct (Qcompare_spec rx (1 # 2)); destruct (Qcompare_spec ry (1 # 2));
    try (destruct (Z.even (Qfloor x))); try lia; exfalso; lra.
Qed.

Lemma round_half_even_Z (z : Z) : round_half_even (inject_Z z) = z.
Proof.
  unfold round_half_even. rewrite Qfloor_Z.
  assert (H : (inject_Z z - inject_Z z ?= 1 # 2)%Q = Lt).
  { rewrite <- Qlt_alt. generalize (inject_Z z). intros c. lra. }
  rewrite H. reflexivity.
Qed.

Lemma round_half_even_ge (z : Z) (q : Q) :
  (inject_Z z <= q)%Q -> (z <= round_half_even q)%Z.
Proof.
  intros H. rewrite <- (round_half_even_Z z). apply round_half_even_mono, H.
Qed.

Lemma round_half_even_le (z : Z) (q : Q) :
  (q <= inject_Z z)%Q -> (round_half_even q <= z)%Z.
Proof.
  intros H. rewrite <- (round_half_even_Z z).
  apply round_half_even_mono, H.
Qed.

Section Rounding.

Variable f : format.
Hypothesis Hprec : (1 <= prec f)%Z.

Lemma exponent_mono (x y : Q) :
  (0 < x)%Q -> (x <= y)%Q -> (exponent f x <= exponent f y)%Z.
Proof.
  intros Hx Hxy. unfold exponent.
  pose proof (ilog2_mono Hx Hxy). lia.
Qed.

Lemma rounded_nonneg (x : Q) : (0 < x)%Q -> (0 <= rounded f x)%Q.
Proof.
  intros Hx. unfold rounded.
  apply Qmult_le_0_compat; [|apply Qlt_le_weak, pow2_pos].
  change 0%Q with (inject_Z 0). rewrite <- Zle_Qle.
  apply round_half_even_ge. change (inject_Z 0) with 0%Q.
  apply Qle_shift_div_l; [apply pow2_pos|]. rewrite Qmult_0_l.
  apply Qlt_le_weak, Hx.
Qed.

Lemma rounded_mono (x y : Q) :
  (0 < x)%Q -> (x <= y)%Q -> (rounded f x <= rounded f y)%Q.
Proof.
  intros Hx Hxy.
  assert (Hy : (0 < y)%Q) by (eapply Qlt_le_trans; eassumption).
  pose proof (exponent_mono Hx Hxy) as He.
  unfold rounded.
  destruct (Z.eq_dec (exponent f x) (exponent f y)) as [E|N].
  - rewrite <- E. apply Qmult_le_compat_r; [|apply Qlt_le_weak, pow2_pos].
    rewrite <- Zle_Qle. apply round_half_even_mono.
    apply Qmult_le_compat_r; [exact Hxy|].
    apply Qlt_le_weak, Qinv_lt_0_compat, pow2_pos.
  - set (ex := exponent f x) in *. set (ey := exponent f y) in *.
    set (p := prec f) in *.
    assert (Eey : ey = (ilog2 y - p + 1)%Z).
    { unfold ey, ex, exponent in *. fold p in He, N |- *. lia. }
    assert (Eex : (ilog2 x + 1 <= ex + p)%Z).
    { unfold ex, exponent. fold p. lia. }
    destruct (ilog2_spec Hx) as [_ X2]. destruct (ilog2_spec Hy) as [Y1 _].
    apply Qle_trans with (pow2 (p + ex)).
    + rewrite pow2_add.
      apply Qmult_le_compat_r; [|apply Qlt_le_weak, pow2_pos].
      assert (Hp : (0 <= p)%Z) by (unfold p; lia).
      rewrite (pow2_Z Hp). rewrite <- Zle_Qle.
      apply round_half_even_le. rewrite <- (pow2_Z Hp).
      apply Qle_shift_div_r; [apply pow2_pos|].
      rewrite <- pow2_add. apply Qlt_le_weak.
      eapply Qlt_le_trans; [exact X2|]. apply pow2_le. lia.
    + apply Qle_trans with (pow2 (p - 1 + ey)); [apply pow2_le; lia|].
      rewrite pow2_add.
      apply Qmult_le_compat_r; [|apply Qlt_le_weak, pow2_pos].
      assert (Hp : (0 <= p - 1)%Z) by (unfold p; lia).
      rewrite (pow2_Z Hp). rewrite <- Zle_Qle.
      apply round_half_even_ge. rewrite <- (pow2_Z Hp).
      apply Qle_shift_div_l; [apply pow2_pos|].
      rewrite <- pow2_add. eapply Qle_trans; [|exact Y1].
      apply pow2_le. lia.
Qed.

End Rounding.

(** ** The order of the floating-point values *)

Lemma Fin_eq (a b : Qc) : (this a == this b)%Q -> Fin a = Fin b.
Proof. intros H. f_equal. apply Qc_is_canon, H. Qed.

Lemma same_number_eq (x y : ieee) : same_number x y = true -> x = y.
Proof.
  destruct x as [|a|a], y as [|b|b]; simpl; try discriminate.
  - reflexivity.
  - intros H. apply Bool.eqb_prop in H. congruence.
  - intros H. apply Fin_eq, Qeq_bool_iff, H.
Qed.

Lemma Qccompare_refl (a : Qc) : (a ?= a)%Qc = Eq.
Proof. apply Qceq_alt. reflexivity. Qed.

Lemma Qccompare_spec (a b : Qc) :
  CompareSpec (a = b) (a < b)%Qc (b < a)%Qc (a ?= b)%Qc.
Proof.
  destruct (a ?= b)%Qc eqn:C; constructor.
  - apply Qceq_alt, C.
  - apply Qclt_alt, C.
  - apply Qcgt_alt, C.
Qed.

Lemma fle_Fin (a b : Qc) : Fin a <= Fin b <-> (a <= b)%Qc.
Proof.
  unfold fle, fleb. cbn [fcompare]. rewrite Qcle_alt.
  destruct (a ?= b)%Qc; split; congruence.
Qed.

Lemma flt_Fin (a b : Qc) : Fin a < Fin b <-> (a < b)%Qc.
Proof.
  unfold flt, fltb. cbn [fcompare]. rewrite Qclt_alt.
  destruct (a ?= b)%Qc; split; congruence.
Qed.

Lemma fleb_Fin (a b : Qc) : (Fin a <=? Fin b) = true <-> (a <= b)%Qc.
Proof. apply fle_Fin. Qed.

Lemma fltb_Fin (a b : Qc) : (Fin a <? Fin b) = true <-> (a < b)%Qc.
Proof. apply flt_Fin. Qed.

Lemma fltb_Fin_false (a b : Qc) : (Fin a <? Fin b) = false <-> (b <= a)%Qc.
Proof.
  unfold fltb. cbn [fcompare]. split.
  - intros H. destruct (a ?= b)%Qc eqn:C; try discriminate H.
    + apply Qceq_alt in C. subst b. apply Qcle_refl.
    + apply Qcgt_alt in C. apply Qclt_le_weak, C.
  - intros H. destruct (a ?= b)%Qc eqn:C; try reflexivity.
    apply Qclt_alt in C. exfalso. exact (Qcle_not_lt _ _ H C).
Qed.

Lemma fleb_Fin_false (a b : Qc) : (Fin a <=? Fin b) = false <-> (b < a)%Qc.
Proof.
  split.
  - intros H. apply Qcnot_le_lt. intros N. apply fleb_Fin in N. congruence.
  - intros H. destruct (Fin a <=? Fin b) eqn:C; [|reflexivity].
    apply fleb_Fin in C. exfalso. exact (Qcle_not_lt _ _ C H).
Qed.

(** Case analysis on floating-point values in a goal about their order. *)
Ltac ieee_order :=
  unfold fle, flt, fleb, fltb in *; cbn [fcompare fneg negb] in *;
  try discriminate; try reflexivity; try congruence.

Lemma fle_refl (x : ieee) : x <> NaN -> x <= x.
Proof.
  destruct x as [|[]|a]; intros H; ieee_order.
  rewrite Qccompare_refl. reflexivity.
Qed.

Lemma fle_ninf (x : ieee) : x <> NaN -> Inf true <= x.
Proof. destruct x as [|[]|a]; intros H; ieee_order. Qed.

Lemma fle_pinf (x : ieee) : x <> NaN -> x <= Inf false.
Proof. destruct x as [|[]|a]; intros H; ieee_order. Qed.

Lemma fle_nan_l (x : ieee) : ~ NaN <= x.
Proof. ieee_order. Qed.

Lemma fle_nan_r (x : ieee) : ~ x <= NaN.
Proof. destruct x as [|[]|a]; ieee_order. Qed.

Lemma fle_number (x y : ieee) : x <= y -> x <> NaN /\ y <> NaN.
Proof.
  intros H. split; intros ->; [exact (fle_nan_l H) | exact (fle_nan_r H)].
Qed.

Lemma flt_number (x y : ieee) : x < y -> x <> NaN /\ y <> NaN.
Proof.
  destruct x as [|[]|a], y as [|[]|b]; intros H; ieee_order;
    split; discriminate.
Qed.

Lemma flt_le_weak (x y : ieee) : x < y -> x <= y.
Proof.
  destruct x as [|[]|a], y as [|[]|b]; intros H; ieee_order.
  destruct (a ?= b)%Qc; congruence.
Qed.

Lemma fle_trans (x y z : ieee) : x <= y -> y <= z -> x <= z.
Proof.
  destruct x as [|[]|a], y as [|[]|b], z as [|[]|c]; intros H1 H2;
    try (exfalso; revert H1 H2; ieee_order; fail); try (ieee_order; fail).
  apply fle_Fin in H1, H2. apply fle_Fin. eapply Qcle_trans; eassumption.
Qed.

Lemma flt_le_trans (x y z : ieee) : x < y -> y <= z -> x < z.
Proof.
  destruct x as [|[]|a], y as [|[]|b], z as [|[]|c]; intros H1 H2;
    try (exfalso; revert H1 H2; ieee_order; fail); try (ieee_order; fail).
  apply flt_Fin in H1. apply fle_Fin in H2. apply flt_Fin.
  eapply Qclt_le_trans; eassumption.
Qed.

Lemma fle_lt_trans (x y z : ieee) : x <= y -> y < z -> x < z.
Proof.
  destruct x as [|[]|a], y as [|[]|b], z as [|[]|c]; intros H1 H2;
    try (exfalso; revert H1 H2; ieee_order; fail); try (ieee_order; fail).
  apply fle_Fin in H1. apply flt_Fin in H2. apply flt_Fin.
  eapply Qcle_lt_trans; eassumption.
Qed.

Lemma flt_trans (x y z : ieee) : x < y -> y < z -> x < z.
Proof. intros H1 H2. eapply flt_le_trans; [exact H1 | apply flt_le_weak, H2]. Qed.

Lemma fle_antisym (x y : ieee) : x <= y -> y <= x -> x = y.
Proof.
  destruct x as [|[]|a], y as [|[]|b]; intros H1 H2;
    try (exfalso; revert H1 H2; ieee_order; fail); try reflexivity.
  apply fle_Fin in H1, H2. f_equal. apply Qcle_antisym; assumption.
Qed.

(** [!(x < y)] between numbers is [y <= x]. *)
Lemma fltb_false (x y : ieee) :
  x <> NaN -> y <> NaN -> (x <? y) = false -> y <= x.
Proof.
  destruct x as [|[]|a], y as [|[]|b]; intros Hx Hy H;
    try congruence; try (ieee_order; fail).
  apply fle_Fin, fltb_Fin_false, H.
Qed.

Lemma fleb_false (x y : ieee) :
  x <> NaN -> y <> NaN -> (x <=? y) = false -> y < x.
Proof.
  destruct x as [|[]|a], y as [|[]|b]; intros Hx Hy H;
    try congruence; try (ieee_order; fail).
  apply flt_Fin, fleb_Fin_false, H.
Qed.

Lemma fle_not_lt (x y : ieee) : x <= y -> (y <? x) = false.
Proof.
  destruct x as [|[]|a], y as [|[]|b]; intros H; try (ieee_order; fail).
  apply fltb_Fin_false, fle_Fin, H.
Qed.

Lemma flt_not_le (x y : ieee) : x < y -> (y <=? x) = false.
Proof.
  destruct x as [|[]|a], y as [|[]|b]; intros H; try (ieee_order; fail).
  apply fleb_Fin_false, flt_Fin, H.
Qed.

Lemma fle_fneg (x y : ieee) : x <= y -> - y <= - x.
Proof.
  destruct x as [|[]|a], y as [|[]|b]; intros H; try (ieee_order; fail).
  apply fle_Fin in H. apply fle_Fin. apply Qcopp_le_compat, H.
Qed.

(** ** Rounding on the floating-point values *)

Lemma rnd_pos_number f q : rnd_pos f q <> NaN.
Proof. unfold rnd_pos. destruct (Qle_bool _ _); discriminate. Qed.

Lemma rnd_number f q : rnd f q <> NaN.
Proof.
  unfold rnd. destruct (q ?= 0)%Qc; try discriminate.
  - pose proof (rnd_pos_number f (- this q)).
    destruct (rnd_pos f (- this q)); simpl; congruence.
  - apply rnd_pos_number.
Qed.

Lemma rnd_is f (q r : Qc) :
  same_number (rnd f q) (Fin r) = true -> rnd f q = Fin r.
Proof. apply same_number_eq. Qed.

Lemma rnd_0 f : rnd f 0%Qc = 0.
Proof. reflexivity. Qed.

Lemma Q2Qc_le (a b : Q) : (a <= b)%Q -> (Q2Qc a <= Q2Qc b)%Qc.
Proof.
  intros H. unfold Qcle. cbn [this Q2Qc]. rewrite !Qred_correct. exact H.
Qed.

Section RoundingOrder.

Variable f : format.
Hypothesis Hprec : (1 <= prec f)%Z.

Lemma rnd_pos_nonneg (q : Q) : (0 < q)%Q -> 0 <= rnd_pos f q.
Proof.
  intros Hq. unfold rnd_pos.
  destruct (Qle_bool (pow2 (emax f)) (rounded f q)); [reflexivity|].
  apply fle_Fin. apply (Q2Qc_le (a := 0%Q)). apply rounded_nonneg, Hq.
Qed.

Lemma rnd_pos_mono (x y : Q) :
  (0 < x)%Q -> (x <= y)%Q -> rnd_pos f x <= rnd_pos f y.
Proof.
  intros Hx Hxy. pose proof (@rounded_mono f Hprec x y Hx Hxy) as Hr.
  unfold rnd_pos.
  destruct (Qle_bool (pow2 (emax f)) (rounded f y)) eqn:Oy.
  - destruct (Qle_bool (pow2 (emax f)) (rounded f x)); reflexivity.
  - destruct (Qle_bool (pow2 (emax f)) (rounded f x)) eqn:Ox.
    + exfalso. apply Qle_bool_iff in Ox.
      assert (N : Qle_bool (pow2 (emax f)) (rounded f y) = true).
      { apply Qle_bool_iff. eapply Qle_trans; eassumption. }
      congruence.
    + apply fle_Fin, Q2Qc_le, Hr.
Qed.

(** Rounding to nearest keeps the order. *)
Lemma rnd_mono (a b : Qc) : (a <= b)%Qc -> rnd f a <= rnd f b.
Proof.
  intros Hab. unfold rnd.
  destruct (Qccompare_spec a 0%Qc) as [Ca|Ca|Ca];
    destruct (Qccompare_spec b 0%Qc) as [Cb|Cb|Cb].
  - reflexivity.
  - exfalso. subst a. exact (Qcle_not_lt _ _ Hab Cb).
  - apply rnd_pos_nonneg. exact Cb.
  - subst b. change 0 with (- 0). apply fle_fneg, rnd_pos_nonneg.
    unfold Qclt, Qlt in *. simpl in *. lia.
  - apply fle_fneg, rnd_pos_mono.
    + unfold Qclt, Qlt in *. simpl in *. lia.
    + apply Qopp_le_compat. exact Hab.
  - apply fle_trans with 0.
    + change 0 with (- 0). apply fle_fneg, rnd_pos_nonneg.
      unfold Qclt, Qlt in *. simpl in *. lia.
    + apply rnd_pos_nonneg. exact Cb.
  - exfalso. subst b. exact (Qcle_not_lt _ _ Hab Ca).
  - exfalso.
    exact (Qcle_not_lt _ _ Hab (Qclt_trans _ _ _ Cb Ca)).
  - apply rnd_pos_mono; assumption.
Qed.

End RoundingOrder.

Lemma prec16 : (1 <= prec binary16)%Z.
Proof. discriminate. Qed.

Lemma prec32 : (1 <= prec binary32)%Z.
Proof. discriminate. Qed.

Lemma prec64 : (1 <= prec binary64)%Z.
Proof. discriminate. Qed.

Lemma rnd16_mono (a b : Qc) : (a <= b)%Qc -> rnd binary16 a <= rnd binary16 b.
Proof. apply (@rnd_mono binary16 prec16). Qed.

Lemma rnd32_mono (a b : Qc) : (a <= b)%Qc -> rnd binary32 a <= rnd binary32 b.
Proof. apply (@rnd_mono binary32 prec32). Qed.

Lemma rnd64_mono (a b : Qc) : (a <= b)%Qc -> rnd binary64 a <= rnd binary64 b.
Proof. apply (@rnd_mono binary64 prec64). Qed.

(** ** The error of rounding to nearest *)

Lemma round_half_even_near (q : Q) :
  (inject_Z (round_half_even q) - (1 # 2) <= q
   /\ q <= inject_Z (round_half_even q) + (1 # 2))%Q.
Proof.
  pose proof (Qfloor_le q) as H1. pose proof (Qlt_floor q) as H2.
  unfold round_half_even.
  rewrite inject_Z_plus in H2. change (inject_Z 1) with 1%Q in H2.
  destruct (Qcompare_spec (q - inject_Z (Qfloor q)) (1 # 2)) as [C|C|C];
    [destruct (Z.even (Qfloor q))| |];
    rewrite ?inject_Z_plus; change (inject_Z 1) with 1%Q;
    revert H1 H2 C; generalize (inject_Z (Qfloor q)); intros c H1 H2 C;
    split; lra.
Qed.

Section RoundingError.

Variable f : format.

Lemma normal_pos (q : Q) : normal f q -> (0 < q)%Q.
Proof. intros H. eapply Qlt_le_trans; [apply pow2_pos | exact H]. Qed.

Lemma exponent_normal (q : Q) :
  normal f q -> exponent f q = (ilog2 q - prec f + 1)%Z.
Proof.
  intros Hn. pose proof (normal_pos Hn) as Hq. unfold exponent.
  destruct (ilog2_spec Hq) as [_ H2].
  assert (H : (pow2 (emin f + prec f - 1) < pow2 (ilog2 q + 1))%Q).
  { eapply Qle_lt_trans; [exact Hn | exact H2]. }
  apply pow2_lt_inv in H. lia.
Qed.

(** The relative error of rounding a normal value is at most
    [2 ^ - prec]. *)
Lemma rounded_near (q : Q) :
  normal f q ->
  (q * (1 - half_ulp f) <= rounded f q
   /\ rounded f q <= q * (1 + half_ulp f))%Q.
Proof.
  intros Hn. pose proof (normal_pos Hn) as Hq.
  unfold rounded, half_ulp. rewrite (exponent_normal Hn).
  set (e := (ilog2 q - prec f + 1)%Z).
  destruct (ilog2_spec Hq) as [L1 _].
  pose proof (pow2_pos e) as He.
  destruct (round_half_even_near (q / pow2 e)) as [N1 N2].
  set (n := inject_Z (round_half_even (q / pow2 e))) in *.
  assert (Hq' : (q == q / pow2 e * pow2 e)%Q).
  { field. intros N. rewrite N in He. exact (Qlt_irrefl _ He). }
  assert (Hu : (pow2 e * (1 # 2) <= q * pow2 (- prec f))%Q).
  { apply Qle_trans with (pow2 (ilog2 q) * pow2 (- prec f))%Q.
    - rewrite <- pow2_add.
      replace (ilog2 q + - prec f)%Z with (e + -1)%Z by (unfold e; ring).
      rewrite pow2_add. apply Qle_refl.
    - apply Qmult_le_compat_r; [exact L1 | apply Qlt_le_weak, pow2_pos]. }
  assert (M1 : ((n - (1 # 2)) * pow2 e <= q / pow2 e * pow2 e)%Q).
  { apply Qmult_le_compat_r; [exact N1 | apply Qlt_le_weak, He]. }
  assert (M2 : (q / pow2 e * pow2 e <= (n + (1 # 2)) * pow2 e)%Q).
  { apply Qmult_le_compat_r; [exact N2 | apply Qlt_le_weak, He]. }
  rewrite <- Hq' in M1, M2.
  revert Hu M1 M2. generalize (pow2 (- prec f)) (pow2 e) n.
  intros u p m Hu M1 M2. split; nra.
Qed.

(** What a normal value rounds to is at least any rational below it by
    the relative error. *)
Lemma rnd_pos_at_least (q lo : Q) :
  normal f q -> (lo <= q * (1 - half_ulp f))%Q -> at_least (rnd_pos f q) lo.
Proof.
  intros Hn Hlo. destruct (rounded_near Hn) as [H1 _].
  unfold rnd_pos. destruct (Qle_bool _ _); cbn [at_least this Q2Qc]; [exact I|].
  rewrite Qred_correct. eapply Qle_trans; eassumption.
Qed.

Lemma rnd_at_least (q : Qc) (lo : Q) :
  normal f (this q) -> (lo <= this q * (1 - half_ulp f))%Q ->
  at_least (rnd f q) lo.
Proof.
  intros Hn Hlo. pose proof (normal_pos Hn) as Hq. unfold rnd.
  destruct (Qccompare_spec q 0%Qc) as [C|C|C].
  - exfalso. subst q. exact (Qlt_irrefl _ Hq).
  - exfalso. unfold Qclt in C. simpl in C.
    exact (Qlt_irrefl _ (Qlt_trans _ _ _ Hq C)).
  - apply rnd_pos_at_least; assumption.
Qed.

End RoundingError.

Lemma at_least_weaken (x : ieee) (a b : Q) :
  (a <= b)%Q -> at_least x b -> at_least x a.
Proof.
  intros H. destruct x as [|[]|r]; simpl; try tauto.
  intros Hb. eapply Qle_trans; eassumption.
Qed.

Lemma at_least_fle (x : ieee) (a : Qc) : at_least x (this a) -> Fin a <= x.
Proof.
  destruct x as [|[]|r]; simpl; try tauto.
  - intros _. reflexivity.
  - intros H. apply fle_Fin. exact H.
Qed.

Lemma at_least_flt (x : ieee) (a : Qc) (lo : Q) :
  at_least x lo -> (this a < lo)%Q -> Fin a < x.
Proof.
  destruct x as [|[]|r]; simpl; try tauto.
  - intros _ _. reflexivity.
  - intros H1 H2. apply flt_Fin. unfold Qclt. eapply Qlt_le_trans; eassumption.
Qed.

Lemma normal32 (q : Q) : (1 # 1024 <= q)%Q -> normal binary32 q.
Proof.
  intros H. unfold normal. eapply Qle_trans; [|exact H]. vm_compute. discriminate.
Qed.

Lemma normal64 (q : Q) : (1 # 1024 <= q)%Q -> normal binary64 q.
Proof.
  intros H. unfold normal. eapply Qle_trans; [|exact H]. vm_compute. discriminate.
Qed.

Lemma rnd32_at_least (q : Qc) (lo : Q) :
  (1 # 1024 <= this q)%Q -> (lo <= this q * (16777215 # 16777216))%Q ->
  at_least (rnd binary32 q) lo.
Proof.
  intros H1 H2. apply rnd_at_least; [apply normal32, H1|].
  assert (E : (1 - half_ulp binary32 == 16777215 # 16777216)%Q)
    by (vm_compute; reflexivity).
  rewrite E. exact H2.
Qed.

Lemma rnd64_at_least (q : Qc) (lo : Q) :
  (1 # 1024 <= this q)%Q ->
  (lo <= this q * (9007199254740991 # 9007199254740992))%Q ->
  at_least (rnd binary64 q) lo.
Proof.
  intros H1 H2. apply rnd_at_least; [apply normal64, H1|].
  assert (E : (1 - half_ulp binary64 == 9007199254740991 # 9007199254740992)%Q)
    by (vm_compute; reflexivity).
  rewrite E. exact H2.
Qed.

(** A normal value whose rounding does not overflow rounds to a finite
    value within the relative error. *)
Lemma rnd_pos_between (f : format) (q lo hi : Q) :
  normal f q ->
  (lo <= q * (1 - half_ulp f))%Q -> (q * (1 + half_ulp f) <= hi)%Q ->
  (hi < pow2 (emax f))%Q ->
  between (rnd_pos f q) lo hi.
Proof.
  intros Hn Hlo Hhi Hmax. destruct (rounded_near Hn) as [H1 H2].
  unfold rnd_pos.
  destruct (Qle_bool (pow2 (emax f)) (rounded f q)) eqn:O.
  - exfalso. apply Qle_bool_iff in O.
    assert (H : (rounded f q < pow2 (emax f))%Q).
    { eapply Qle_lt_trans; [|exact Hmax]. eapply Qle_trans; eassumption. }
    exact (Qlt_irrefl _ (Qlt_le_trans _ _ _ H O)).
  - cbn [between this Q2Qc]. rewrite Qred_correct. split.
    + eapply Qle_trans; eassumption.
    + eapply Qle_trans; eassumption.
Qed.

Lemma rnd64_between (q : Qc) (lo hi : Q) :
  (1 # 1024 <= this q)%Q ->
  (lo <= this q * (9007199254740991 # 9007199254740992))%Q ->
  (this q * (9007199254740993 # 9007199254740992) <= hi)%Q ->
  (hi <= 4294967296)%Q ->
  between (rnd binary64 q) lo hi.
Proof.
  intros H1 H2 H3 H4.
  assert (Hn : normal binary64 (this q)) by (apply normal64, H1).
  pose proof (normal_pos Hn) as Hq. unfold rnd.
  destruct (Qccompare_spec q 0%Qc) as [C|C|C].
  - exfalso. subst q. exact (Qlt_irrefl _ Hq).
  - exfalso. unfold Qclt in C. simpl in C.
    exact (Qlt_irrefl _ (Qlt_trans _ _ _ Hq C)).
  - assert (E1 : (1 - half_ulp binary64
                  == 9007199254740991 # 9007199254740992)%Q)
      by (vm_compute; reflexivity).
    assert (E2 : (1 + half_ulp binary64
                  == 9007199254740993 # 9007199254740992)%Q)
      by (vm_compute; reflexivity).
    apply rnd_pos_between.
    + exact Hn.
    + rewrite E1. exact H2.
    + rewrite E2. exact H3.
    + eapply Qle_lt_trans; [exact H4|]. vm_compute. reflexivity.
Qed.

Lemma between_at_least (x : ieee) (lo hi : Q) : between x lo hi -> at_least x lo.
Proof. destruct x as [|[]|r]; simpl; tauto. Qed.

(** ** Bounds *)

Lemma this_Q2Qc (q : Q) : (this (Q2Qc q) == q)%Q.
Proof. apply Qred_correct. Qed.

(** From an inequality on [Qc] to one on [Q], for [lra]. *)
Ltac qc2q :=
  unfold Qcle, Qclt, Qcdiv, Qcminus, Qcplus, Qcopp, Qcmult, Qcinv in *;
  cbn [this Q2Qc] in *;
  repeat match goal with
         | H : context [Qred _] |- _ => setoid_rewrite Qred_correct in H
         end;
  repeat setoid_rewrite Qred_correct.

(** [qBound(lo, x, hi)] lies between [lo] and [hi] whatever [x] is, NaN
    and the infinities included. *)
Lemma qBound_range (lo x hi : ieee) : lo <= hi -> lo <= qBound lo x hi <= hi.
Proof.
  intros H. destruct (fle_number H) as [Nlo Nhi].
  unfold qBound, qMax, qMin.
  destruct (hi <? x) eqn:E1.
  - destruct (lo <? hi) eqn:E2.
    + split; [assumption | apply fle_refl, Nhi].
    + split; [apply fle_refl, Nlo | assumption].
  - destruct (lo <? x) eqn:E2.
    + destruct (flt_number E2) as [_ Nx].
      split; [apply flt_le_weak, E2 | apply fltb_false; assumption].
    + split; [apply fle_refl, Nlo | assumption].
Qed.

Lemma qBound_unit (x : ieee) : 0 <= qBound 0 x 1 <= 1.
Proof. apply qBound_range. reflexivity. Qed.

(** A NaN is bounded to the lower bound. *)
Lemma qBound_NaN (lo hi : ieee) : qBound lo NaN hi = lo.
Proof.
  unfold qBound, qMin, qMax.
  destruct hi as [|[]|h]; destruct lo as [|[]|l]; reflexivity.
Qed.

(** ** Hoare triples for the member functions *)

Section Hoare.

Context {E : Externals}.

Lemma hoare_ret {A} (P : Private -> Prop) (a : A) :
  hoare P (ret a) (fun x d => x = a /\ P d).
Proof. intros d x d' H [= <- <-]. auto. Qed.

Lemma hoare_get (P : Private -> Prop) :
  hoare P get (fun x d => x = d /\ P d).
Proof. intros d x d' H [= <- <-]. auto. Qed.

Lemma hoare_modify (P : Private -> Prop) f :
  hoare P (modify f) (fun _ d' => exists d, P d /\ d' = f d).
Proof. intros d x d' H [= _ <-]. eauto. Qed.

Lemma hoare_crash {A} P (Q : A -> Private -> Prop) : hoare P crash Q.
Proof. intros d x d' _ [=]. Qed.

Lemma hoare_bind {A B} P (m : M A) Q (k : A -> M B) R :
  hoare P m Q -> (forall a, hoare (Q a) (k a) R) -> hoare P (bind m k) R.
Proof.
  intros Hm Hk d b d' HP. unfold bind.
  destruct (m d) as [[a d1]|] eqn:Em; [|discriminate].
  intros Hkd. exact (Hk a d1 b d' (Hm _ _ _ HP Em) Hkd).
Qed.

Lemma hoare_weaken {A} (P P' : Private -> Prop) (m : M A)
    (Q Q' : A -> Private -> Prop) :
  hoare P' m Q' -> (forall d, P d -> P' d) ->
  (forall a d, Q' a d -> Q a d) -> hoare P m Q.
Proof. intros H HP HQ d a d' Hd Hm. eauto. Qed.

Lemma preserves_ret {A} I (a : A) : preserves I (ret a).
Proof. intros d x d' H [= <- <-]. assumption. Qed.

Lemma preserves_get I : preserves I get.
Proof. intros d x d' H [= <- <-]. assumption. Qed.

Lemma preserves_crash {A} I : preserves I (@crash A).
Proof. apply hoare_crash. Qed.

Lemma preserves_modify (I : Private -> Prop) f :
  (forall d, I d -> I (f d)) -> preserves I (modify f).
Proof. intros Hf d x d' H [= _ <-]. auto. Qed.

Lemma preserves_bind {A B} I (m : M A) (k : A -> M B) :
  preserves I m -> (forall a, preserves I (k a)) -> preserves I (bind m k).
Proof. intros Hm Hk. eapply hoare_bind; [exact Hm | exact Hk]. Qed.

End Hoare.

(** One step of a proof that a member function keeps an invariant: the
    monad laws first, then the case distinctions of the code. *)
Ltac preserves_step :=
  lazymatch goal with
  | |- preserves _ (ret _) => apply preserves_ret
  | |- preserves _ get => apply preserves_get
  | |- preserves _ crash => apply preserves_crash
  | |- preserves _ (bind _ _) => apply preserves_bind; [ | intros ? ]
  | |- preserves _ (match ?x with _ => _ end) => destruct x eqn:?
  end.

Ltac preserves_auto := repeat preserves_step.

(** ** Hue, saturation and value stay in the unit range *)

Section UnitRange.

Context {E : Externals}.

Lemma hsv_in_range_new useHDRMode :
  hsv_in_range (KisSmallColorWidget_new useHDRMode).
Proof. repeat split; discriminate. Qed.

Lemma keeps_hsv_in_range f d :
  keeps_hsv f -> hsv_in_range d -> hsv_in_range (f d).
Proof.
  intros K H. destruct (K d) as (Eh & Es & Ev).
  unfold hsv_in_range. rewrite Eh, Es, Ev. exact H.
Qed.

Lemma setHSV_with_in_range tell h s v n :
  preserves hsv_in_range tell ->
  preserves hsv_in_range (setHSV_with tell h s v n).
Proof.
  intros Ht. unfold setHSV_with.
  apply preserves_bind; [|intros _].
  { apply preserves_modify. intros d (Hh & Hs & Hv).
    repeat split; try apply Hs; try apply Hv; apply qBound_unit. }
  apply preserves_bind; [|intros _].
  { apply preserves_modify. intros d (Hh & Hs & Hv).
    repeat split; try apply Hh; try apply Hs; apply qBound_unit. }
  apply preserves_bind; [|intros _].
  { apply preserves_modify. intros d (Hh & Hs & Hv).
    repeat split; try apply Hh; try apply Hv; apply qBound_unit. }
  destruct n; [exact Ht | apply preserves_ret].
Qed.

Ltac keep := apply preserves_modify; intros; apply keeps_hsv_in_range;
             [ intros ?; repeat split; try reflexivity | assumption ].

Lemma slotUpdateDynamicRange_in_range l :
  preserves hsv_in_range (slotUpdateDynamicRange l).
Proof.
  unfold slotUpdateDynamicRange, slotUpdatePalettes.
  preserves_auto; try keep.
  apply setHSV_with_in_range, preserves_ret.
Qed.

Lemma slotDisplayConfigurationChanged_in_range :
  preserves hsv_in_range slotDisplayConfigurationChanged.
Proof.
  unfold slotDisplayConfigurationChanged, slotUpdatePalettes.
  preserves_auto; try keep.
  all: try (apply preserves_modify; intros d0 H0;
            destruct (dynamicRange d0); [|assumption];
            apply (keeps_hsv_in_range (f := set_dynamicRange _));
            [intros ?; repeat split; reflexivity | assumption]).
Qed.

Lemma dynamicRange_setValue_in_range v :
  preserves hsv_in_range (dynamicRange_setValue v).
Proof.
  unfold dynamicRange_setValue.
  preserves_auto; try keep; apply slotUpdateDynamicRange_in_range.
Qed.

Lemma setColor_in_range color :
  preserves hsv_in_range (setColor color).
Proof.
  unfold setColor, setColor_scale, setColor_rangeCoeff.
  preserves_auto; try keep;
    first [ apply slotDisplayConfigurationChanged_in_range
          | apply slotUpdateDynamicRange_in_range
          | apply dynamicRange_setValue_in_range
          | apply setHSV_with_in_range, preserves_ret ].
Qed.

Lemma deliver_in_range colors :
  preserves hsv_in_range (deliver colors).
Proof.
  induction colors as [|c rest IH]; simpl.
  - apply preserves_ret.
  - apply preserves_bind; [apply setColor_in_range | intros _; exact IH].
Qed.

Lemma tellColorChanged_in_range :
  preserves hsv_in_range tellColorChanged.
Proof.
  unfold tellColorChanged, tellColorChanged_with, emit_colorChanged.
  preserves_auto; try keep; apply deliver_in_range.
Qed.

Lemma setHue_in_range h : preserves hsv_in_range (setHue h).
Proof.
  unfold setHue.
  apply preserves_bind; [|intros _; apply tellColorChanged_in_range].
  apply preserves_modify. intros d (Hh & Hs & Hv).
  repeat split; try apply Hs; try apply Hv; apply qBound_unit.
Qed.

Lemma run_in_range c : preserves hsv_in_range (run c).
Proof.
  destruct c; simpl.
  - apply setHue_in_range.
  - apply setHSV_with_in_range, tellColorChanged_in_range.
  - apply setColor_in_range.
  - unfold setDisplayColorConverter.
    apply preserves_bind; [keep | intros _].
    apply slotDisplayConfigurationChanged_in_range.
  - apply preserves_ret.
  - unfold slotHueSliderChanged. preserves_auto. apply setHue_in_range.
  - unfold slotValueSliderChanged. preserves_auto.
    apply setHSV_with_in_range, tellColorChanged_in_range.
  - apply slotUpdateDynamicRange_in_range.
  - apply slotDisplayConfigurationChanged_in_range.
  - apply preserves_ret.
  - unfold converterChanges. apply preserves_modify. intros d H.
    destruct (displayColorConverter d); exact H.
Qed.

End UnitRange.

(** ** The guard against re-entrant updates *)

Section Guard.

Context {E : Externals}.

Lemma setColor_blocked color d :
  updateAllowed d = false -> setColor color d = Some (tt, d).
Proof.
  intros H. unfold setColor, bind, get. rewrite H. reflexivity.
Qed.

Lemma deliver_blocked colors d :
  updateAllowed d = false -> deliver colors d = Some (tt, d).
Proof.
  intros H. induction colors as [|c rest IH]; simpl.
  - reflexivity.
  - unfold bind. rewrite (setColor_blocked c d H). exact IH.
Qed.

(** What [tellColorChanged] does to the state. *)
Lemma tellColorChanged_eq d :
  tellColorChanged d =
  match displayColorConverter d with
  | Some _ => Some (tt, set_updateAllowed true d)
  | None => None
  end.
Proof.
  unfold tellColorChanged, tellColorChanged_with, bind, modify, get, emit_colorChanged. simpl.
  destruct (displayColorConverter d) as [conv|]; [|reflexivity].
  rewrite deliver_blocked by reflexivity. reflexivity.
Qed.

(** C10.  While [updateAllowed] is false, [setColor] returns at once and
    leaves the whole state as it is; so does the delivery of
    [colorChanged], whatever colours its slots pass to [setColor].  And
    [tellColorChanged], which clears the flag for the time of the
    delivery, returns with the hue, the saturation, the value and the
    dynamic range it was called with. *)
Theorem setColor_reentrancy_guard (d : Private)
    (Hblocked : updateAllowed d = false) :
  (forall color, setColor color d = Some (tt, d))
  /\ (forall colors, deliver colors d = Some (tt, d))
  /\ (forall c, emit_colorChanged c d = Some (tt, d))
  /\ (forall d0 conv,
        displayColorConverter d0 = Some conv ->
        updateAllowed (set_updateAllowed false d0) = false
        /\ emit_colorChanged (tellColorChanged_color (set_updateAllowed false d0) conv)
                             (set_updateAllowed false d0)
           = Some (tt, set_updateAllowed false d0)
        /\ tellColorChanged d0 = Some (tt, set_updateAllowed true d0)
        /\ hue (set_updateAllowed true d0) = hue d0
        /\ saturation (set_updateAllowed true d0) = saturation d0
        /\ value (set_updateAllowed true d0) = value d0
        /\ currentRelativeDynamicRange (set_updateAllowed true d0)
           = currentRelativeDynamicRange d0).
Proof.
  split; [|split; [|split]].
  - intros color. apply setColor_blocked, Hblocked.
  - intros colors. apply deliver_blocked, Hblocked.
  - intros c. apply deliver_blocked, Hblocked.
  - intros d0 conv Hconv. repeat split.
    + apply deliver_blocked. reflexivity.
    + rewrite tellColorChanged_eq, Hconv. reflexivity.
Qed.

End Guard.

(** ** HDR is on only with HDR hardware *)

Lemma ColorModelId_eqb_eq a b : ColorModelId_eqb a b = true <-> a = b.
Proof.
  destruct a, b; simpl; split; intros H; try congruence; try discriminate.
  - apply Nat.eqb_eq in H. congruence.
  - injection H as ->. apply Nat.eqb_refl.
Qed.

Lemma ColorDepthId_eqb_eq a b : ColorDepthId_eqb a b = true <-> a = b.
Proof.
  destruct a, b; simpl; split; intros H; try congruence; try discriminate.
  - apply Nat.eqb_eq in H. congruence.
  - injection H as ->. apply Nat.eqb_refl.
Qed.

Section Configuration.

Context {E : Externals}.

Lemma isFloatDepth_iff dp :
  isFloatDepth dp = true <->
  dp = Float16BitsColorDepthID \/ dp = Float32BitsColorDepthID
  \/ dp = Float64BitsColorDepthID.
Proof.
  unfold isFloatDepth. rewrite !orb_true_iff, !ColorDepthId_eqb_eq. tauto.
Qed.

(** [slotDisplayConfigurationChanged] returns, and what it leaves. *)
Lemma slotDisplayConfigurationChanged_spec d :
  exists d',
    slotDisplayConfigurationChanged d = Some (tt, d')
    /\ (hasHDR d' = true <-> hdrEligible d)
    /\ hasHardwareHDR d' = hasHardwareHDR d
    /\ displayColorConverter d' = displayColorConverter d
    /\ (dynamicRange d' = None <-> dynamicRange d = None)
    /\ (forall s, dynamicRange d' = Some s -> isEnabled s = hasHDR d')
    /\ hue d' = hue d /\ saturation d' = saturation d /\ value d' = value d
    /\ currentRelativeDynamicRange d' = currentRelativeDynamicRange d
    /\ updateAllowed d' = updateAllowed d.
Proof.
  assert (Hel : hdrEligible d <->
            (hasHardwareHDR d
             && match displayColorConverter d with
                | Some conv =>
                    ColorModelId_eqb (colorModelId (paintingColorSpace conv))
                                     RGBAColorModelID
                    && isFloatDepth (colorDepthId (paintingColorSpace conv))
                | None => false
                end = true)).
  { unfold hdrEligible. rewrite andb_true_iff.
    destruct (displayColorConverter d) as [conv|].
    - rewrite andb_true_iff, ColorModelId_eqb_eq, isFloatDepth_iff.
      split.
      + intros (Hhw & c & [= <-] & H1 & H2). auto.
      + intros (Hhw & H1 & H2). split; [assumption|]. exists conv. auto.
    - split.
      + intros (_ & c & [=] & _).
      + intros (_ & [=]). }
  setoid_rewrite Hel. clear Hel.
  unfold slotDisplayConfigurationChanged, slotUpdatePalettes,
    bind, modify, get, ret. simpl.
  destruct (hasHardwareHDR d) eqn:Hhw;
    destruct (displayColorConverter d) as [conv|] eqn:Hc; simpl;
    destruct (dynamicRange d) as [s|] eqn:Hs; simpl;
    eexists; (split; [reflexivity|]); simpl; rewrite ?Hs; simpl;
    (split; [reflexivity || (split; discriminate) |]);
    repeat split; try congruence; try discriminate;
    intros ? [= <-]; reflexivity.
Qed.

(** An invariant that depends on the configuration only is kept by every
    call, once the two functions that write the configuration keep it. *)
Section ConfigInvariant.

Variable I : Private -> Prop.
Hypothesis I_keeps : forall f d, keeps_config f -> I d -> I (f d).
Hypothesis I_display : preserves I slotDisplayConfigurationChanged.
Hypothesis I_converter :
  forall converter, preserves I (setDisplayColorConverter converter).

Ltac keepc :=
  apply preserves_modify; intros; cbv beta;
  lazymatch goal with
  | |- I (?f ?x) =>
      apply (I_keeps (f:=f) (d:=x));
      [ intros ?; repeat split; try reflexivity; simpl; intros;
        (assumption || discriminate)
      | assumption ]
  end.

Lemma setHSV_with_config tell h s v n :
  preserves I tell -> preserves I (setHSV_with tell h s v n).
Proof.
  intros Ht. unfold setHSV_with. preserves_auto; try keepc; assumption.
Qed.

Lemma slotUpdateDynamicRange_config l :
  preserves I (slotUpdateDynamicRange l).
Proof.
  unfold slotUpdateDynamicRange, slotUpdatePalettes.
  preserves_auto; try keepc.
  apply setHSV_with_config, preserves_ret.
Qed.

Lemma dynamicRange_setValue_config v :
  preserves I (dynamicRange_setValue v).
Proof.
  unfold dynamicRange_setValue.
  preserves_auto; try keepc; apply slotUpdateDynamicRange_config.
Qed.

Lemma setColor_config color : preserves I (setColor color).
Proof.
  unfold setColor, setColor_scale, setColor_rangeCoeff.
  preserves_auto; try keepc;
    first [ apply I_display
          | apply slotUpdateDynamicRange_config
          | apply dynamicRange_setValue_config
          | apply setHSV_with_config, preserves_ret ].
Qed.

Lemma deliver_config colors : preserves I (deliver colors).
Proof.
  induction colors as [|c rest IH]; simpl.
  - apply preserves_ret.
  - apply preserves_bind; [apply setColor_config | intros _; exact IH].
Qed.

Lemma tellColorChanged_config : preserves I tellColorChanged.
Proof.
  unfold tellColorChanged, tellColorChanged_with, emit_colorChanged.
  preserves_auto; try keepc; apply deliver_config.
Qed.

Lemma setHue_config h : preserves I (setHue h).
Proof.
  unfold setHue. preserves_auto; try keepc. apply tellColorChanged_config.
Qed.

Lemma run_config c :
  (forall converter, c <> CconverterChanges converter) ->
  preserves I (run c).
Proof.
  intros Hc. destruct c; simpl.
  - apply setHue_config.
  - apply setHSV_with_config, tellColorChanged_config.
  - apply setColor_config.
  - apply I_converter.
  - apply preserves_ret.
  - unfold slotHueSliderChanged. preserves_auto. apply setHue_config.
  - unfold slotValueSliderChanged. preserves_auto.
    apply setHSV_with_config, tellColorChanged_config.
  - apply slotUpdateDynamicRange_config.
  - apply I_display.
  - apply preserves_ret.
  - exfalso. exact (Hc converter eq_refl).
Qed.

End ConfigInvariant.

End Configuration.

(** ** Invariants of the reachable states *)

Section Reachable.

Context {E : Externals}.

Lemma reachable_invariant (allowed : Call -> Prop) (I : Private -> Prop) :
  (forall useHDRMode, I (KisSmallColorWidget_new useHDRMode)) ->
  (forall c, allowed c -> preserves I (run c)) ->
  forall d, reachable allowed d -> I d.
Proof.
  intros Hnew Hrun d Hd. induction Hd as [b | d c d' Hd IH Hc Hexec].
  - apply Hnew.
  - unfold exec in Hexec.
    destruct (run c d) as [[u d1]|] eqn:Erun; [|discriminate].
    injection Hexec as <-. exact (Hrun c Hc d u d1 IH Erun).
Qed.

Lemma reachable_weaken (allowed allowed' : Call -> Prop) d :
  (forall c, allowed c -> allowed' c) ->
  reachable allowed d -> reachable allowed' d.
Proof.
  intros Hsub Hd. induction Hd as [b | d c d' Hd IH Hc Hexec].
  - apply reachable_new.
  - eapply reachable_run; eauto.
Qed.

Lemma wired_new useHDRMode : wired (KisSmallColorWidget_new useHDRMode).
Proof.
  split; simpl.
  - discriminate.
  - intros ->. discriminate.
Qed.

Lemma wired_keeps f d : keeps_config f -> wired d -> wired (f d).
Proof.
  intros K [H1 H2]. destruct (K d) as (Eh & Ew & _ & Es).
  split; rewrite ?Eh, ?Ew.
  - exact H1.
  - intros H N. exact (H2 H (Es N)).
Qed.

Lemma wired_display : preserves wired slotDisplayConfigurationChanged.
Proof.
  intros d u d' [H1 H2] Hrun.
  destruct (slotDisplayConfigurationChanged_spec d)
    as (d1 & Heq & Hhdr & Hhw & _ & Hs & _).
  rewrite Heq in Hrun. injection Hrun as _ <-.
  split.
  - intros H. apply Hhdr in H. rewrite Hhw. apply H.
  - rewrite Hhw. intros H N. apply Hs in N. exact (H2 H N).
Qed.

Lemma wired_converter converter :
  preserves wired (setDisplayColorConverter converter).
Proof.
  unfold setDisplayColorConverter.
  apply preserves_bind; [|intros _; apply wired_display].
  apply preserves_modify. intros d Hd. exact Hd.
Qed.

Lemma wired_run c : preserves wired (run c).
Proof.
  assert (Hother : (forall converter, c <> CconverterChanges converter) ->
                   preserves wired (run c)).
  { apply run_config.
    - apply wired_keeps.
    - apply wired_display.
    - apply wired_converter. }
  destruct c; try (apply Hother; discriminate).
  simpl. unfold converterChanges. apply preserves_modify. intros d H.
  destruct (displayColorConverter d); exact H.
Qed.

Lemma reachable_wired allowed d : reachable allowed d -> wired d.
Proof.
  apply reachable_invariant.
  - apply wired_new.
  - intros c _. apply wired_run.
Qed.

Lemma hdrEligible_ext d d' :
  hasHardwareHDR d' = hasHardwareHDR d ->
  displayColorConverter d' = displayColorConverter d ->
  hdrEligible d' <-> hdrEligible d.
Proof. unfold hdrEligible. intros -> ->. reflexivity. Qed.

Lemma hdr_tracked_keeps hw0 b0 f d :
  keeps_config f -> hdr_tracked hw0 b0 d -> hdr_tracked hw0 b0 (f d).
Proof.
  intros K [H1 H2]. destruct (K d) as (Eh & Ew & Ec & _).
  split; [congruence|].
  rewrite Eh, (hdrEligible_ext d (f d) Ew Ec). exact H2.
Qed.

Lemma hdr_tracked_display_any hw0 b0 :
  hoare (fun d => hasHardwareHDR d = hw0) slotDisplayConfigurationChanged
        (fun _ => hdr_tracked hw0 b0).
Proof.
  intros d u d' H Hrun.
  destruct (slotDisplayConfigurationChanged_spec d)
    as (d1 & Heq & Hhdr & Hhw & Hc & _).
  rewrite Heq in Hrun. injection Hrun as _ <-.
  split; [congruence|]. right.
  rewrite (hdrEligible_ext d d1 Hhw Hc). exact Hhdr.
Qed.

Lemma hdr_tracked_display hw0 b0 :
  preserves (hdr_tracked hw0 b0) slotDisplayConfigurationChanged.
Proof.
  intros d u d' [H _] Hrun.
  eapply hdr_tracked_display_any; [exact H | exact Hrun].
Qed.

Lemma hdr_tracked_converter hw0 b0 converter :
  preserves (hdr_tracked hw0 b0) (setDisplayColorConverter converter).
Proof.
  unfold setDisplayColorConverter.
  eapply hoare_bind with (Q := fun _ d => hasHardwareHDR d = hw0).
  - intros d u d' [H _] [= _ <-]. exact H.
  - intros _. apply hdr_tracked_display_any.
Qed.

Lemma hdr_tracked_run hw0 b0 c :
  (forall converter, c <> CconverterChanges converter) ->
  preserves (hdr_tracked hw0 b0) (run c).
Proof.
  apply run_config.
  - intros f d. apply hdr_tracked_keeps.
  - apply hdr_tracked_display.
  - apply hdr_tracked_converter.
Qed.

(** C9.  In every reachable state HDR is on only if the hardware has
    HDR.  The flag starts false; [slotDisplayConfigurationChanged]
    returns and sets it exactly when there is HDR hardware and the
    painting colour space is RGBA with a 16-, 32- or 64-bit float depth;
    and every call leaves the hardware flag alone and the HDR flag either
    as it was or recomputed in that way. *)
Theorem hasHDR_implies_hasHardwareHDR (d : Private)
    (Hreach : reachable anyCall d) :
  (hasHDR d = true -> hasHardwareHDR d = true)
  /\ (forall useHDRMode, hasHDR (KisSmallColorWidget_new useHDRMode) = false)
  /\ (exists d', slotDisplayConfigurationChanged d = Some (tt, d')
                 /\ (hasHDR d' = true <-> hdrEligible d))
  /\ (forall c d', exec (run c) d = Some d' ->
                   hasHardwareHDR d' = hasHardwareHDR d
                   /\ (hasHDR d' = hasHDR d
                       \/ (hasHDR d' = true <-> hdrEligible d'))).
Proof.
  split; [|split; [|split]].
  - apply (reachable_wired Hreach).
  - reflexivity.
  - destruct (slotDisplayConfigurationChanged_spec d) as (d' & Heq & Hhdr & _).
    exists d'. auto.
  - intros c d' Hexec. unfold exec in Hexec.
    destruct (run c d) as [[u d1]|] eqn:Erun; [|discriminate].
    injection Hexec as <-.
    assert (Hother : (forall converter, c <> CconverterChanges converter) ->
                     hdr_tracked (hasHardwareHDR d) (hasHDR d) d1).
    { intros Hc. eapply hdr_tracked_run; [exact Hc | | exact Erun].
      split; auto. }
    destruct c; try (apply Hother; discriminate).
    simpl in Erun. unfold converterChanges, modify in Erun.
    injection Erun as _ <-.
    destruct (displayColorConverter d); split; auto.
Qed.

Lemma reachable_hsv_in_range allowed d :
  reachable allowed d -> hsv_in_range d.
Proof.
  apply reachable_invariant.
  - apply hsv_in_range_new.
  - intros c _. apply run_in_range.
Qed.

End Reachable.

(** ** What the member functions store *)

Lemma qBound_id (x : ieee) : 0 <= x <= 1 -> qBound 0 x 1 = x.
Proof.
  intros [H0 H1]. unfold qBound, qMin, qMax.
  rewrite (fle_not_lt H1).
  destruct (0 <? x) eqn:E2; [reflexivity|].
  destruct (fle_number H0) as [N0 Nx].
  apply fle_antisym; [exact H0 | apply fltb_false; assumption].
Qed.

Lemma qBound_above (x : ieee) : 1 < x -> qBound 0 x 1 = 1.
Proof.
  intros H. unfold qBound, qMin, qMax. unfold flt in H. rewrite H.
  reflexivity.
Qed.

Lemma qBound_below (x : ieee) : x < 0 -> qBound 0 x 1 = 0.
Proof.
  intros H. unfold qBound, qMin, qMax.
  assert (H1 : (1 <? x) = false).
  { apply fle_not_lt. apply fle_trans with 0; [apply flt_le_weak, H|reflexivity]. }
  rewrite H1. rewrite (fle_not_lt (flt_le_weak H)). reflexivity.
Qed.

(** Stored to a [float], or to a [half], a value of the unit range stays
    in it. *)
Lemma to_float_1 : to_float 1 = 1.
Proof. apply same_number_eq. vm_compute. reflexivity. Qed.

Lemma to_half_1 : to_half 1 = 1.
Proof. apply same_number_eq. vm_compute. reflexivity. Qed.

Lemma to_float_number (x : ieee) : x <> NaN -> to_float x <> NaN.
Proof. destruct x; simpl; try congruence. intros _. apply rnd_number. Qed.

Lemma to_float_mono (x y : ieee) : x <= y -> to_float x <= to_float y.
Proof.
  intros H. destruct (fle_number H) as [Nx Ny].
  destruct x as [|[]|a]; try congruence.
  - apply fle_ninf, to_float_number, Ny.
  - destruct y as [|[]|b]; try congruence; try (exfalso; revert H; ieee_order; fail).
    reflexivity.
  - destruct y as [|[]|b]; try congruence.
    + exfalso. revert H. ieee_order.
    + apply fle_pinf, to_float_number, Nx.
    + apply rnd32_mono. apply fle_Fin, H.
Qed.

Lemma to_float_unit (x : ieee) : 0 <= x <= 1 -> 0 <= to_float x <= 1.
Proof.
  intros [H0 H1]. split.
  - change 0 with (to_float 0). apply to_float_mono, H0.
  - rewrite <- to_float_1. apply to_float_mono, H1.
Qed.

Section Stores.

Context {E : Externals}.

(** [setHSV] without the notification. *)
Lemma setHSV_with_eq tell h s v n d :
  setHSV_with tell h s v n d =
  let d' := set_saturation (qBound 0 s 1)
              (set_value (qBound 0 v 1) (set_hue (qBound 0 h 1) d)) in
  if n then tell d' else Some (tt, d').
Proof.
  unfold setHSV_with, bind, modify, ret. destruct n; reflexivity.
Qed.

Lemma setHue_eq h d :
  setHue h d =
  match displayColorConverter d with
  | Some _ => Some (tt, set_updateAllowed true (set_hue (qBound 0 h 1) d))
  | None => None
  end.
Proof.
  unfold setHue, bind, modify. rewrite tellColorChanged_eq. reflexivity.
Qed.

Lemma setHSV_eq h s v n d :
  setHSV h s v n d =
  let d' := set_saturation (qBound 0 s 1)
              (set_value (qBound 0 v 1) (set_hue (qBound 0 h 1) d)) in
  if n then
    match displayColorConverter d with
    | Some _ => Some (tt, set_updateAllowed true d')
    | None => None
    end
  else Some (tt, d').
Proof.
  unfold setHSV. rewrite setHSV_with_eq. cbv zeta.
  destruct n; [|reflexivity].
  rewrite tellColorChanged_eq. reflexivity.
Qed.

(** C8.  In every reachable state the hue, the saturation and the value
    lie between 0 and 1.  The constructor puts them there; [setHue] and
    [setHSV] store each component they are given bounded by
    [qBound(0.0, x, 1.0)], and return unless they notify without a
    converter; and every call that returns, from a reachable state,
    leaves the three in the unit range. *)
Theorem hsv_always_in_unit_range (d : Private)
    (Hreach : reachable anyCall d) :
  hsv_in_range d
  /\ (forall useHDRMode,
        hue (KisSmallColorWidget_new useHDRMode) = 0
        /\ saturation (KisSmallColorWidget_new useHDRMode) = 0
        /\ value (KisSmallColorWidget_new useHDRMode) = 0)
  /\ (forall h,
        exec (setHue h) d
        = match displayColorConverter d with
          | Some _ => Some (set_updateAllowed true (set_hue (qBound 0 h 1) d))
          | None => None
          end)
  /\ (forall h s v n,
        exec (setHSV h s v n) d
        = let d' := set_saturation (qBound 0 s 1)
                      (set_value (qBound 0 v 1) (set_hue (qBound 0 h 1) d)) in
          if n then
            match displayColorConverter d with
            | Some _ => Some (set_updateAllowed true d')
            | None => None
            end
          else Some d')
  /\ (forall c d', exec (run c) d = Some d' -> hsv_in_range d').
Proof.
  assert (Hd : hsv_in_range d) by exact (reachable_hsv_in_range Hreach).
  split; [exact Hd|]. split; [intros b; repeat split|].
  split; [|split].
  - intros h. unfold exec. rewrite setHue_eq.
    destruct (displayColorConverter d); reflexivity.
  - intros h s v n. unfold exec. rewrite setHSV_eq. cbv zeta.
    destruct n; [destruct (displayColorConverter d)|]; reflexivity.
  - intros c d' Hexec. unfold exec in Hexec.
    destruct (run c d) as [[u d1]|] eqn:Erun; [|discriminate].
    injection Hexec as <-. eapply run_in_range; [exact Hd | exact Erun].
Qed.

(** What [slotUpdateDynamicRange] makes of one channel [x] with the
    coefficient [k]: [qBound(0.0, x * k, 1.0)] stored to a [float]. *)
Lemma remapped_channel (k x : ieee) :
  let x' := to_float (qBound 0 (x * k) 1) in
  0 <= x' <= 1
  /\ (0 <= x * k <= 1 -> x' = to_float (x * k))
  /\ (1 < x * k -> x' = 1)
  /\ (x * k < 0 -> x' = 0)
  /\ (x * k = NaN -> x' = 0)
  /\ (x = 0 -> x' = 0).
Proof.
  cbv zeta. split; [apply to_float_unit, qBound_unit|].
  split; [intros H; rewrite (qBound_id H); reflexivity|].
  split; [intros H; rewrite (qBound_above H); apply to_float_1|].
  split; [intros H; rewrite (qBound_below H); reflexivity|].
  split; [intros ->; rewrite qBound_NaN; reflexivity|].
  intros ->. destruct k as [|s|q].
  - reflexivity.
  - reflexivity.
  - cbn [fmul]. rewrite Qcmult_0_l. reflexivity.
Qed.

(** C4.  [slotUpdateDynamicRange] leaves the state alone when the new
    range, the luminance over 80, is fuzzily equal to the current one.
    Otherwise it returns, and the displayed colour, the RGB of the
    stored HSV, is kept up to rescaling: each channel is multiplied by
    the one coefficient new range over old range and bounded to the unit
    range, so that the new channel lies between 0 and 1, is the product
    (as a float) when that lies between 0 and 1, is 1 when it is
    greater, is 0 when it is less or no number, and stays 0 when it was
    0.  These channels are turned back into HSV, which is stored (the
    hue over 360, each component bounded by [setHSV]); when no product
    leaves the unit range, the HSV stored is that of the old colour with
    every channel times the coefficient.  The current range is the new
    one, the handles of the two image widgets follow, and nothing else
    changes. *)
Theorem slotUpdateDynamicRange_remaps (d : Private) (maxLuminance : Z) :
  let oldRange := currentRelativeDynamicRange d in
  let newRange := ofInt maxLuminance / lit 80 1 in
  let transformCoeff := newRange / oldRange in
  let remapped x x' :=
    0 <= x' <= 1
    /\ (0 <= x * transformCoeff <= 1 -> x' = to_float (x * transformCoeff))
    /\ (1 < x * transformCoeff -> x' = 1)
    /\ (x * transformCoeff < 0 -> x' = 0)
    /\ (x * transformCoeff = NaN -> x' = 0)
    /\ (x = 0 -> x' = 0) in
  (qFuzzyCompare oldRange newRange = true ->
     slotUpdateDynamicRange maxLuminance d = Some (tt, d))
  /\ (qFuzzyCompare oldRange newRange = false ->
      forall r g b,
        HSVToRGB (to_float (hue d * lit 360 1)) (to_float (saturation d))
                 (to_float (value d)) = (r, g, b) ->
        exists r' g' b' h' s' v' d',
          remapped r r' /\ remapped g g' /\ remapped b b'
          /\ RGBToHSV r' g' b' = (h', s', v')
          /\ (0 <= r * transformCoeff <= 1 ->
              0 <= g * transformCoeff <= 1 ->
              0 <= b * transformCoeff <= 1 ->
              RGBToHSV (to_float (r * transformCoeff))
                       (to_float (g * transformCoeff))
                       (to_float (b * transformCoeff)) = (h', s', v'))
          /\ slotUpdateDynamicRange maxLuminance d = Some (tt, d')
          /\ hue d' = qBound 0 (h' / lit 360 1) 1
          /\ saturation d' = qBound 0 s' 1
          /\ value d' = qBound 0 v' 1
          /\ (0 <= h' / lit 360 1 <= 1 -> hue d' = h' / lit 360 1)
          /\ (0 <= s' <= 1 -> saturation d' = s')
          /\ (0 <= v' <= 1 -> value d' = v')
          /\ currentRelativeDynamicRange d' = newRange
          /\ normalizedPos (hueWidget d') = (h' / lit 360 1, 0)
          /\ normalizedPos (valueWidget d') = (s', 1 - v')
          /\ updateAllowed d' = updateAllowed d
          /\ dynamicRange d' = dynamicRange d
          /\ displayColorConverter d' = displayColorConverter d
          /\ hasHDR d' = hasHDR d
          /\ hasHardwareHDR d' = hasHardwareHDR d).
Proof.
  cbv zeta. split.
  - intros Hf. unfold slotUpdateDynamicRange, bind, get. rewrite Hf. reflexivity.
  - intros Hf r g b Hrgb.
    set (k := ofInt maxLuminance / lit 80 1 / currentRelativeDynamicRange d).
    destruct (RGBToHSV (to_float (qBound 0 (r * k) 1))
                       (to_float (qBound 0 (g * k) 1))
                       (to_float (qBound 0 (b * k) 1)))
      as [[h' s'] v'] eqn:Hhsv.
    exists (to_float (qBound 0 (r * k) 1)), (to_float (qBound 0 (g * k) 1)),
      (to_float (qBound 0 (b * k) 1)), h', s', v'.
    unfold slotUpdateDynamicRange, setHSV_with, slotUpdatePalettes,
      bind, get, modify, ret.
    rewrite Hf, Hrgb. fold k. rewrite Hhsv.
    eexists.
    split; [apply remapped_channel|]. split; [apply remapped_channel|].
    split; [apply remapped_channel|]. split; [reflexivity|].
    split.
    { intros Hr Hg Hb. rewrite <- Hhsv.
      rewrite (qBound_id Hr), (qBound_id Hg), (qBound_id Hb). reflexivity. }
    split; [reflexivity|]. simpl.
    repeat split; try reflexivity; try (intros H; apply qBound_id; exact H).
Qed.

(** [setColor] from the channels on, in a state that passes its guard
    and its two assertions. *)
Lemma setColor_after_scale color conv d r g b r' g' b' d1 h s v :
  updateAllowed d = true ->
  (forall sl, dynamicRange d = Some sl -> isEnabled sl = hasHDR d) ->
  (hasHDR d = true -> hasHardwareHDR d = true) ->
  displayColorConverter d = Some conv ->
  setColor_channels color conv = (r, g, b) ->
  setColor_scale r g b d = Some ((r', g', b'), d1) ->
  RGBToHSV r' g' b' = (h, s, v) ->
  exists d2,
    setColor color d = Some (tt, d2)
    /\ hue d2 = qBound 0 (h / lit 360 1) 1
    /\ saturation d2 = qBound 0 s 1
    /\ value d2 = qBound 0 v 1
    /\ normalizedPos (hueWidget d2) = (h / lit 360 1, 0)
    /\ normalizedPos (valueWidget d2) = (s, 1 - v)
    /\ currentRelativeDynamicRange d2 = currentRelativeDynamicRange d1
    /\ dynamicRange d2 = dynamicRange d1
    /\ hasHDR d2 = hasHDR d1.
Proof.
  intros Hu Hen Hw Hc Hch Hsc Hhsv.
  assert (Hen' : forall sl, dynamicRange d = Some sl ->
                            Bool.eqb (hasHDR d) (isEnabled sl) = true).
  { intros sl Hsl. rewrite (Hen sl Hsl). apply Bool.eqb_reflx. }
  assert (Hw' : negb (negb (hasHDR d) || hasHardwareHDR d) = false).
  { destruct (hasHDR d); [rewrite (Hw eq_refl)|]; reflexivity. }
  unfold setColor, setHSV_with.
  unfold bind at 1. unfold get at 1. rewrite Hu. cbn [negb]. cbv iota.
  unfold bind at 1.
  assert (Hrec : forall X : option (unit * Private),
    X = (match dynamicRange d with
         | Some s0 => if Bool.eqb (hasHDR d) (isEnabled s0) then ret tt
                      else slotDisplayConfigurationChanged
         | None => ret tt
         end) d -> X = Some (tt, d)).
  { intros X ->. destruct (dynamicRange d) as [sl|]; [|reflexivity].
    rewrite (Hen' sl eq_refl). reflexivity. }
  rewrite (Hrec _ eq_refl).
  unfold bind at 1. unfold get at 1. rewrite Hw', Hc, Hch.
  unfold bind at 1. rewrite Hsc. rewrite Hhsv.
  unfold bind, modify, ret.
  eexists. split; [reflexivity|]. simpl. repeat split.
Qed.


End Stores.

(** ** Channel order and colour space *)

Section Channels.

Context {E : Externals}.

Lemma ColorDepthId_eqb_neq a b : ColorDepthId_eqb a b = false <-> a <> b.
Proof.
  rewrite <- ColorDepthId_eqb_eq. destruct (ColorDepthId_eqb a b); split;
    congruence.
Qed.

Lemma ColorModelId_eqb_neq a b : ColorModelId_eqb a b = false <-> a <> b.
Proof.
  rewrite <- ColorModelId_eqb_eq. destruct (ColorModelId_eqb a b); split;
    congruence.
Qed.

(** [setColor] that gets past its guard and its assertions and returns
    has scaled the channels and stored the HSV of what it got. *)
Lemma setColor_returned color conv d d' r g b :
  updateAllowed d = true ->
  slider_synced d ->
  (hasHDR d = true -> hasHardwareHDR d = true) ->
  displayColorConverter d = Some conv ->
  setColor_channels color conv = (r, g, b) ->
  setColor color d = Some (tt, d') ->
  exists r' g' b' d1 h s v,
    setColor_scale r g b d = Some ((r', g', b'), d1)
    /\ RGBToHSV r' g' b' = (h, s, v)
    /\ hue d' = qBound 0 (h / lit 360 1) 1
    /\ saturation d' = qBound 0 s 1
    /\ value d' = qBound 0 v 1
    /\ normalizedPos (hueWidget d') = (h / lit 360 1, 0)
    /\ normalizedPos (valueWidget d') = (s, 1 - v).
Proof.
  intros Hu Hen Hw Hc Hch.
  assert (Hen' : forall sl, dynamicRange d = Some sl ->
                            Bool.eqb (hasHDR d) (isEnabled sl) = true).
  { intros sl Hsl. rewrite (Hen sl Hsl). apply Bool.eqb_reflx. }
  assert (Hw' : negb (negb (hasHDR d) || hasHardwareHDR d) = false).
  { destruct (hasHDR d); [rewrite (Hw eq_refl)|]; reflexivity. }
  unfold setColor, setHSV_with.
  unfold bind at 1. unfold get at 1. rewrite Hu. cbn [negb]. cbv iota.
  unfold bind at 1.
  assert (Hrec : forall X : option (unit * Private),
    X = (match dynamicRange d with
         | Some s0 => if Bool.eqb (hasHDR d) (isEnabled s0) then ret tt
                      else slotDisplayConfigurationChanged
         | None => ret tt
         end) d -> X = Some (tt, d)).
  { intros X ->. destruct (dynamicRange d) as [sl|]; [|reflexivity].
    rewrite (Hen' sl eq_refl). reflexivity. }
  rewrite (Hrec _ eq_refl).
  unfold bind at 1. unfold get at 1. rewrite Hw', Hc, Hch.
  unfold bind at 1.
  destruct (setColor_scale r g b d) as [[[[r' g'] b'] d1]|]; [|discriminate].
  destruct (RGBToHSV r' g' b') as [[h s] v] eqn:Hhsv.
  unfold bind, modify, ret. intros [= <-].
  exists r', g', b', d1, h, s, v. simpl. repeat split. exact Hhsv.
Qed.

End Channels.

(** ** The palette images *)

Lemma length_upto n : length (upto n) = Z.to_nat n.
Proof. unfold upto. rewrite length_map, length_seq. reflexivity. Qed.

Lemma nth_error_upto n i :
  (0 <= i < n)%Z -> nth_error (upto n) (Z.to_nat i) = Some i.
Proof.
  intros H. unfold upto.
  rewrite nth_error_map, nth_error_seq.
  assert (L : (Z.to_nat i <? Z.to_nat n)%nat = true) by (apply Nat.ltb_lt; lia).
  rewrite L. simpl. rewrite Z2Nat.id by lia. reflexivity.
Qed.

(** In a list of rows of one length, element [j] of row [i]. *)
Lemma nth_error_flat_map_rows {A B} (f : A -> list B) (k : nat) (l : list A) :
  (forall a, length (f a) = k) ->
  forall i j a, nth_error l i = Some a -> (j < k)%nat ->
  nth_error (flat_map f l) (i * k + j) = nth_error (f a) j.
Proof.
  intros Hlen. induction l as [|a0 l IH]; intros i j a Hi Hj.
  - destruct i; discriminate.
  - simpl. destruct i as [|i].
    + injection Hi as ->. simpl.
      rewrite nth_error_app1 by (rewrite Hlen; exact Hj). reflexivity.
    + simpl in Hi. rewrite nth_error_app2 by (rewrite Hlen; simpl; lia).
      rewrite Hlen. replace (S i * k + j - k)%nat with (i * k + j)%nat by (simpl; lia).
      apply IH; assumption.
Qed.

Lemma nth_error_forEachPixel (w h : Z) (f : Z -> Z -> Rgba) (x y : Z) :
  (0 <= x < w)%Z -> (0 <= y < h)%Z ->
  nth_error (forEachPixel w h f) (Z.to_nat (y * w + x)) = Some (f x y).
Proof.
  intros Hx Hy. unfold forEachPixel.
  replace (Z.to_nat (y * w + x)) with (Z.to_nat y * Z.to_nat w + Z.to_nat x)%nat
    by nia.
  rewrite (@nth_error_flat_map_rows _ _ _ (Z.to_nat w) (upto h)) with (a := y).
  - rewrite nth_error_map, nth_error_upto by exact Hx. reflexivity.
  - intros a. rewrite length_map, length_upto. reflexivity.
  - apply nth_error_upto. exact Hy.
  - lia.
Qed.

Section Palettes.

Context {E : Externals}.

Lemma uploadPaletteData_pixel policy w h d x y :
  skipsDisplayConversion d = true ->
  (0 <= x < w)%Z -> (0 <= y < h)%Z ->
  pixel (uploadPaletteData policy (w, h) d) x y =
  Some (let '(r, g, b) :=
          getRGB policy (hue d) (to_float (1 / ofInt w))
                 (to_float (1 / ofInt h)) x y in
        let k := to_float (effectiveRelativeDynamicRange d) in
        {| pxl_r := to_half (mulf r k);
           pxl_g := to_half (mulf g k);
           pxl_b := to_half (mulf b k);
           pxl_a := 1 |}).
Proof.
  intros Hskip Hx Hy. unfold uploadPaletteData, pixel. rewrite Hskip.
  cbn [fst snd width height data].
  rewrite nth_error_forEachPixel by assumption.
  destruct (getRGB _ _ _ _ _ _) as [[r g] b].
  unfold halves. cbn [pxl_r pxl_g pxl_b pxl_a]. rewrite to_half_1.
  reflexivity.
Qed.

(** C3.  When the display conversion is skipped, the pixel at column [x]
    of row [y] of the hue palette is [HSVToRGB(360 x / width, 1, 1)], and
    that of the saturation and value palette is
    [HSVToRGB(360 hue, x / width, 1 - y / height)], each channel times the
    effective relative dynamic range, with alpha 1; all of it as the
    code computes it: [x / width] is the float product of [x] and the
    double [1 / width] stored to a float, [360 x / width] the float
    product of that and 360, the range is the effective range stored to
    a float, the product with a channel is a float product, and the
    pixel holds it as a half. *)
Theorem palette_pixels (d : Private) (w h x y : Z)
    (Hskip : skipsDisplayConversion d = true)
    (Hx : (0 <= x < w)%Z) :
  let k := to_float (effectiveRelativeDynamicRange d) in
  let x_over_width := mulf (to_float (1 / ofInt w)) (ofIntf x) in
  let y_over_height := mulf (to_float (1 / ofInt h)) (ofIntf y) in
  let pxl r g b :=
    {| pxl_r := to_half (mulf r k); pxl_g := to_half (mulf g k);
       pxl_b := to_half (mulf b k); pxl_a := 1 |} in
  (forall r g b,
     (0 <= y < huePreferredHeight)%Z ->
     HSVToRGB (mulf x_over_width (litf 360 1)) 1 1 = (r, g, b) ->
     width (updateHuePalette w d) = w
     /\ height (updateHuePalette w d) = huePreferredHeight
     /\ pixel (updateHuePalette w d) x y = Some (pxl r g b))
  /\ (forall r g b,
        (0 <= y < h)%Z ->
        HSVToRGB (hue d * lit 360 1) x_over_width (1 - y_over_height)
        = (r, g, b) ->
        width (updateSVPalette w h d) = w
        /\ height (updateSVPalette w h d) = h
        /\ pixel (updateSVPalette w h d) x y = Some (pxl r g b)).
Proof.
  cbv zeta.
  split; intros r g b Hy Hrgb.
  - split; [|split].
    + unfold updateHuePalette, uploadPaletteData. rewrite Hskip. reflexivity.
    + unfold updateHuePalette, uploadPaletteData. rewrite Hskip. reflexivity.
    + unfold updateHuePalette. rewrite uploadPaletteData_pixel by assumption.
      unfold getRGB. rewrite Hrgb. reflexivity.
  - split; [|split].
    + unfold updateSVPalette, uploadPaletteData. rewrite Hskip. reflexivity.
    + unfold updateSVPalette, uploadPaletteData. rewrite Hskip. reflexivity.
    + unfold updateSVPalette. rewrite uploadPaletteData_pixel by assumption.
      unfold getRGB. rewrite Hrgb. reflexivity.
Qed.

End Palettes.

(** ** The dynamic range *)

Lemma finite_between (x lo hi : ieee) :
  is_finite lo = true -> is_finite hi = true -> lo <= x -> x <= hi ->
  exists q, x = Fin q.
Proof.
  destruct lo as [|?|a]; try discriminate.
  destruct hi as [|?|b]; try discriminate. intros _ _.
  destruct x as [|[]|q]; intros H1 H2;
    try (exfalso; revert H1 H2; ieee_order; fail).
  eauto.
Qed.

(** [std::max({r, g, b})] is NaN exactly when [r] is: a NaN that comes
    later is never the greater one. *)
Lemma max3_NaN (r g b : ieee) : max3 r g b = NaN <-> r = NaN.
Proof.
  unfold max3. split.
  - destruct (r <? g) eqn:E1.
    + destruct (flt_number E1) as [_ Ng].
      destruct (g <? b) eqn:E2; intros H;
        [destruct (flt_number E2); congruence | congruence].
    + destruct (r <? b) eqn:E2; intros H;
        [destruct (flt_number E2); congruence | exact H].
  - intros ->. reflexivity.
Qed.

Lemma max3_upper (r g b x : ieee) :
  max3 r g b <> NaN -> x = r \/ x = g \/ x = b -> x <> NaN ->
  x <= max3 r g b.
Proof.
  intros Hm Hx Nx.
  assert (Nr : r <> NaN) by (intros N; apply Hm, max3_NaN, N).
  clear Hm. unfold max3.
  destruct (r <? g) eqn:E1.
  - destruct (flt_number E1) as [_ Ng].
    destruct (g <? b) eqn:E2.
    + destruct Hx as [-> | [-> | ->]].
      * apply flt_le_weak. eapply flt_trans; eassumption.
      * apply flt_le_weak, E2.
      * apply fle_refl, Nx.
    + destruct Hx as [-> | [-> | ->]].
      * apply flt_le_weak, E1.
      * apply fle_refl, Nx.
      * apply fltb_false; assumption.
  - destruct (r <? b) eqn:E2.
    + destruct Hx as [-> | [-> | ->]].
      * apply flt_le_weak, E2.
      * apply flt_le_weak. eapply fle_lt_trans; [|exact E2].
        apply fltb_false; assumption.
      * apply fle_refl, Nx.
    + destruct Hx as [-> | [-> | ->]].
      * apply fle_refl, Nx.
      * apply fltb_false; assumption.
      * apply fltb_false; assumption.
Qed.

Lemma exceeds_max3 (c r g b : ieee) :
  max3 r g b <> NaN -> (c <? r) || (c <? g) || (c <? b) = true ->
  c < max3 r g b.
Proof.
  intros Hm. rewrite !orb_true_iff.
  intros [[H|H]|H]; destruct (flt_number H) as [_ N];
    (eapply flt_le_trans; [exact H | apply max3_upper; auto]).
Qed.

Lemma Qcdiv_le_1 (a c : Qc) : (0 < c)%Qc -> (a <= c)%Qc -> (a / c <= 1)%Qc.
Proof.
  intros Hc Ha. qc2q. apply Qle_shift_div_r; [assumption | lra].
Qed.

Lemma positive_Qc (q : Qc) : (0 < q)%Qc -> is_zero q = false /\ is_neg q = false.
Proof.
  intros H. unfold is_zero, is_neg.
  destruct (Qccompare_spec q 0%Qc) as [C|C|C]; auto.
  - subst q. exfalso. exact (Qlt_irrefl _ H).
  - exfalso. exact (Qlt_irrefl _ (Qclt_trans _ _ _ H C)).
Qed.

Lemma rnd64_1 : rnd binary64 1%Qc = 1.
Proof. apply same_number_eq. vm_compute. reflexivity. Qed.

(** A finite channel divided by a coefficient it does not exceed, stored
    as a [float], is at most 1. *)
Lemma scaled_at_most (q : Qc) (y : ieee) :
  0 < y -> (y <? Fin q) = false -> to_float (Fin q / y) <= 1.
Proof.
  intros Hy Hq.
  destruct y as [|[]|Y]; try (exfalso; revert Hy; ieee_order; fail).
  - reflexivity.
  - apply flt_Fin in Hy. apply fltb_Fin_false in Hq.
    unfold fdiv. rewrite (proj1 (positive_Qc Hy)).
    apply fle_trans with (to_float (rnd binary64 1%Qc)).
    + apply to_float_mono, rnd64_mono, Qcdiv_le_1; assumption.
    + rewrite rnd64_1, to_float_1. reflexivity.
Qed.

(** Whatever the channel is, divided by a coefficient it does not exceed
    it is not greater than 1. *)
Lemma scaled_not_above (x y : ieee) :
  0 < y -> (y <? x) = false -> (1 <? to_float (x / y)) = false.
Proof.
  intros Hy Hx. destruct x as [|s|q].
  - reflexivity.
  - destruct y as [|[]|Y]; try (exfalso; revert Hy; ieee_order; fail).
    + reflexivity.
    + destruct s.
      * apply flt_Fin in Hy. unfold fdiv.
        rewrite (proj2 (positive_Qc Hy)). reflexivity.
      * exfalso. revert Hx. ieee_order.
  - apply fle_not_lt, scaled_at_most; assumption.
Qed.

(** [int(x)] of a finite [x] that is not negative: the whole part. *)
Lemma toInt_floor (q : Qc) (z : Z) :
  (0 <= this q)%Q -> toInt (Fin q) = Some z ->
  (inject_Z z <= this q /\ this q < inject_Z z + 1)%Q.
Proof.
  intros H0. unfold toInt.
  destruct ((INT_MIN <=? _)%Z && _); [|discriminate].
  intros [= <-].
  unfold Qle in H0. simpl in H0.
  set (n := Qnum (this q)) in *. set (dn := Qden (this q)) in *.
  assert (Hn : (0 <= n)%Z) by lia.
  rewrite Z.quot_div_nonneg by lia.
  pose proof (Z.mul_div_le n (Z.pos dn) ltac:(lia)) as H1.
  pose proof (Z.mul_succ_div_gt n (Z.pos dn) ltac:(lia)) as H2.
  unfold Qle, Qlt, Qplus, inject_Z. simpl. fold n dn. split; nia.
Qed.

Lemma toInt_returns (q : Qc) :
  (0 <= this q)%Q -> (this q < inject_Z (2 ^ 31))%Q ->
  exists z, toInt (Fin q) = Some z.
Proof.
  intros H0 H1. unfold toInt.
  unfold Qle in H0. unfold Qlt in H1. simpl in H0, H1.
  set (n := Qnum (this q)) in *. set (dn := Qden (this q)) in *.
  assert (Hq0 : (0 <= n ÷ Z.pos dn)%Z) by (apply Z.quot_pos; lia).
  assert (Hq1 : (n ÷ Z.pos dn < 2 ^ 31)%Z).
  { apply Z.quot_lt_upper_bound; lia. }
  assert (Hb : ((INT_MIN <=? n ÷ Z.pos dn)%Z && (n ÷ Z.pos dn <=? INT_MAX)%Z) = true).
  { apply andb_true_iff. unfold INT_MIN, INT_MAX.
    split; apply Z.leb_le; lia. }
  rewrite Hb. eauto.
Qed.

Lemma toInt_finite (x : ieee) (z : Z) : toInt x = Some z -> exists q, x = Fin q.
Proof. destruct x as [|s|q]; try discriminate. eauto. Qed.

Lemma toInt_range (x : ieee) (z : Z) :
  toInt x = Some z -> (INT_MIN <= z <= INT_MAX)%Z.
Proof.
  destruct x as [|s|q]; try discriminate. unfold toInt.
  destruct ((INT_MIN <=? _)%Z && _) eqn:Hb; [|discriminate].
  intros [= <-]. apply andb_true_iff in Hb. destruct Hb as [H1 H2].
  apply Z.leb_le in H1, H2. split; assumption.
Qed.

Lemma half_plus_finite (x : ieee) (q : Qc) :
  x + lit 1 2 = Fin q -> exists a, x = Fin a.
Proof. destruct x as [|s|a]; try discriminate. eauto. Qed.

Lemma times80_finite (x : ieee) (q : Qc) :
  lit 80 1 * x = Fin q -> exists a, x = Fin a.
Proof. destruct x as [|s|a]; try discriminate. eauto. Qed.

(** [qRound] of a double that is at least 1: what it returns is above the
    double plus a half, rounded, less one. *)
Lemma qRound_above (D : Qc) (l : Z) :
  (1 <= this D)%Q -> qRound (Fin D) = Some l ->
  ((this D + (1 # 2)) * (9007199254740991 # 9007199254740992) - 1
   < inject_Z l)%Q.
Proof.
  intros HD. unfold qRound.
  assert (H0 : (0 <=? Fin D) = true).
  { apply fleb_Fin. unfold Qcle. simpl. lra. }
  rewrite H0. unfold lit. cbn [fadd].
  set (S := (D + Q2Qc (1 # 2))%Qc).
  assert (HS : (this S == this D + (1 # 2))%Q).
  { unfold S. qc2q. reflexivity. }
  assert (A : at_least (rnd binary64 S)
                ((this D + (1 # 2)) * (9007199254740991 # 9007199254740992))).
  { apply rnd64_at_least; rewrite HS; lra. }
  intros Hl. destruct (@toInt_finite _ _ Hl) as [s Hs]. rewrite Hs in *.
  cbn [at_least] in A.
  apply toInt_floor in Hl; [|lra]. lra.
Qed.

Lemma litf_11_10 : litf 11 10 = lit 9227469 8388608.
Proof. apply same_number_eq. vm_compute. reflexivity. Qed.

Lemma times110_finite (x : ieee) (q : Qc) :
  mulf x (litf 11 10) = Fin q -> exists a, x = Fin a.
Proof.
  rewrite litf_11_10. destruct x as [|s|a]; try discriminate. eauto.
Qed.

(** The float product of a channel that is at least 1 with [1.10f] is at
    least the channel. *)
Lemma raised_at_least (m : Qc) :
  (1 <= this m)%Q ->
  at_least (mulf (Fin m) (litf 11 10)) (this m * (109 # 100)).
Proof.
  intros Hm. rewrite litf_11_10. unfold mulf, lit. cbn [fmul].
  assert (HP : (this (m * Q2Qc (9227469 # 8388608))%Qc
                == this m * (9227469 # 8388608))%Q).
  { qc2q. reflexivity. }
  apply rnd32_at_least; rewrite HP; lra.
Qed.

(** 80 times a coefficient that is at least 1, in double. *)
Lemma times80_at_least (R : Qc) :
  (1 <= this R)%Q ->
  at_least (lit 80 1 * Fin R)
           (80 * this R * (9007199254740991 # 9007199254740992)).
Proof.
  intros HR. unfold lit. cbn [fmul].
  assert (HP : (this (Q2Qc (80 # 1) * R)%Qc == 80 * this R)%Q).
  { qc2q. reflexivity. }
  apply rnd64_at_least; rewrite HP; lra.
Qed.

(** The luminance of a raised coefficient [R >= 1] is more than
    [79 R]. *)
Lemma luminance_above (R : Qc) (l : Z) :
  (1 <= this R)%Q -> qRound (lit 80 1 * Fin R) = Some l ->
  (79 * this R < inject_Z l)%Q.
Proof.
  intros HR Hl. pose proof (@times80_at_least R HR) as A.
  destruct (lit 80 1 * Fin R) as [|[]|D] eqn:ED; try discriminate Hl.
  cbn [at_least] in A.
  apply qRound_above in Hl; [|lra].
  revert A Hl HR. generalize (this D) (this R) (inject_Z l). intros. lra.
Qed.

(** A luminance over 80, in double. *)
Lemma over80 (a : Qc) :
  Fin a / lit 80 1 = rnd binary64 (a / Q2Qc (80 # 1))%Qc.
Proof. reflexivity. Qed.

Lemma this_over80 (a : Qc) :
  (this (a / Q2Qc (80 # 1))%Qc == this a * (1 # 80))%Q.
Proof. qc2q. reflexivity. Qed.

Lemma this_ofInt (z : Z) : (this (Q2Qc (inject_Z z)) == inject_Z z)%Q.
Proof. apply this_Q2Qc. Qed.

Lemma range_of_luminance (l : Z) : (80 <= l)%Z -> 1 <= ofInt l / lit 80 1.
Proof.
  intros H. unfold ofInt. rewrite over80. rewrite <- rnd64_1.
  apply rnd64_mono. unfold Qcle. rewrite this_over80, this_ofInt.
  assert (H' : (inject_Z 80 <= inject_Z l)%Q) by (rewrite <- Zle_Qle; exact H).
  revert H'. generalize (inject_Z l). intros t Ht.
  change (inject_Z 80) with (80 # 1) in Ht. change (this 1%Qc) with 1%Q. lra.
Qed.

Lemma range_at_least (l : Z) :
  (80 <= l)%Z ->
  at_least (ofInt l / lit 80 1)
           (inject_Z l * (1 # 80) * (9007199254740991 # 9007199254740992)).
Proof.
  intros H. unfold ofInt. rewrite over80.
  assert (H' : (inject_Z 80 <= inject_Z l)%Q) by (rewrite <- Zle_Qle; exact H).
  change (inject_Z 80) with (80 # 1) in H'.
  apply rnd64_at_least; rewrite this_over80, this_ofInt.
  - revert H'. generalize (inject_Z l). intros t Ht. lra.
  - apply Qle_refl.
Qed.

(** The luminance of a range: every [int] over 80 is a finite double. *)
Lemma range_finite (l : Z) :
  (INT_MIN <= l <= INT_MAX)%Z -> exists q, ofInt l / lit 80 1 = Fin q.
Proof.
  intros [H1 H2]. unfold ofInt. rewrite over80.
  apply finite_between
    with (lo := rnd binary64 (Q2Qc (inject_Z INT_MIN) / Q2Qc (80 # 1))%Qc)
         (hi := rnd binary64 (Q2Qc (inject_Z INT_MAX) / Q2Qc (80 # 1))%Qc).
  - vm_compute. reflexivity.
  - vm_compute. reflexivity.
  - apply rnd64_mono. unfold Qcle.
    rewrite !this_over80, !this_ofInt.
    assert (H' : (inject_Z INT_MIN <= inject_Z l)%Q) by (rewrite <- Zle_Qle; exact H1).
    revert H'. generalize (inject_Z l) (inject_Z INT_MIN). intros. lra.
  - apply rnd64_mono. unfold Qcle.
    rewrite !this_over80, !this_ofInt.
    assert (H' : (inject_Z l <= inject_Z INT_MAX)%Q) by (rewrite <- Zle_Qle; exact H2).
    revert H'. generalize (inject_Z l) (inject_Z INT_MAX). intros. lra.
Qed.

Lemma qAbs_nonneg (q : Qc) : (0 <= this q)%Q -> qAbs (Fin q) = Fin q.
Proof.
  intros H. unfold qAbs.
  assert (E : (0 <=? Fin q) = true) by (apply fleb_Fin; exact H).
  rewrite E. reflexivity.
Qed.

Lemma qAbs_nonneg_result (x : ieee) : x <> NaN -> 0 <= qAbs x.
Proof.
  intros N. unfold qAbs. destruct (0 <=? x) eqn:E; [exact E|].
  apply fleb_false in E; [|discriminate|exact N].
  change 0 with (- 0). apply fle_fneg, flt_le_weak, E.
Qed.

(** [qFuzzyCompare(x, x)] holds of every finite double. *)
Lemma qFuzzyCompare_refl (q : Qc) : qFuzzyCompare (Fin q) (Fin q) = true.
Proof.
  unfold qFuzzyCompare.
  assert (E : Fin q - Fin q = 0).
  { unfold fsub. cbn [fadd fneg]. rewrite Qcplus_opp_r. reflexivity. }
  rewrite E. change (qAbs 0) with 0.
  assert (E2 : 0 * lit 1000000000000 1 = 0).
  { unfold lit. cbn [fmul]. rewrite Qcmult_0_l. reflexivity. }
  rewrite E2.
  assert (E3 : qMin (qAbs (Fin q)) (qAbs (Fin q)) = qAbs (Fin q)).
  { unfold qMin. destruct (_ <? _); reflexivity. }
  rewrite E3. apply qAbs_nonneg_result. discriminate.
Qed.

(** The absolute difference of two finite doubles that are apart. *)
Lemma qAbs_difference_at_least (a b : Qc) (lo : Q) :
  (1 # 1024 <= this b - this a)%Q ->
  (lo <= (this b - this a) * (9007199254740991 # 9007199254740992))%Q ->
  at_least (qAbs (Fin a - Fin b)) lo.
Proof.
  intros Hd Hlo. unfold fsub. cbn [fadd fneg].
  assert (HS : (this (a + - b)%Qc == this a - this b)%Q).
  { qc2q. reflexivity. }
  unfold rnd.
  destruct (Qccompare_spec (a + - b)%Qc 0%Qc) as [C|C|C].
  - exfalso. rewrite C in HS. change (this 0%Qc) with 0%Q in HS. lra.
  - assert (A : at_least (rnd_pos binary64 (- this (a + - b)%Qc)) lo).
    { apply rnd_pos_at_least.
      - apply normal64. rewrite HS. lra.
      - assert (E : (1 - half_ulp binary64
                     == 9007199254740991 # 9007199254740992)%Q)
          by (vm_compute; reflexivity).
        rewrite E, HS. lra. }
    assert (P : 0 <= rnd_pos binary64 (- this (a + - b)%Qc)).
    { apply rnd_pos_nonneg. rewrite HS. lra. }
    destruct (rnd_pos binary64 (- this (a + - b)%Qc)) as [|[]|p];
      cbn [at_least] in A; try tauto; try exact I.
    + apply fle_Fin in P. unfold Qcle in P. change (this 0%Qc) with 0%Q in P.
      cbn [fneg]. unfold qAbs.
      destruct (0 <=? Fin (- p)) eqn:E0.
      * apply fleb_Fin in E0. unfold Qcle in E0.
        change (this 0%Qc) with 0%Q in E0.
        assert (Ep : (this (- p)%Qc == - this p)%Q) by (qc2q; reflexivity).
        cbn [at_least]. rewrite Ep in *. 
        assert (Z0 : (this p == 0)%Q) by lra.
        assert (Hlo0 : (lo <= 0)%Q) by lra. lra.
      * cbn [fneg at_least].
        assert (Ep : (this (- - p)%Qc == this p)%Q).
        { rewrite Qcopp_involutive. reflexivity. }
        rewrite Ep. exact A.
  - exfalso. unfold Qclt in C. change (this 0%Qc) with 0%Q in C.
    rewrite HS in C. lra.
Qed.

Lemma times_1e12_at_least (x : ieee) (lo : Q) :
  (1 # 1024 <= lo)%Q ->
  at_least x lo ->
  at_least (x * lit 1000000000000 1) (lo * 999999999999).
Proof.
  intros Hlo A. destruct x as [|[]|p]; cbn [at_least] in A; try tauto;
    try exact I.
  - unfold lit. cbn [fmul].
    assert (HP : (this (p * Q2Qc (1000000000000 # 1))%Qc
                  == this p * 1000000000000)%Q).
    { qc2q. reflexivity. }
    apply rnd64_at_least; rewrite HP; lra.
Qed.

(** Two ranges of which the second is a sixteenth above the first are not
    fuzzily equal. *)
Lemma qFuzzyCompare_far (c : Qc) (n : ieee) :
  (1 <= this c)%Q -> at_least n (this c * (17 # 16)) ->
  qFuzzyCompare (Fin c) n = false.
Proof.
  intros Hc A. unfold qFuzzyCompare.
  assert (Ac : qAbs (Fin c) = Fin c) by (apply qAbs_nonneg; lra).
  rewrite Ac.
  destruct n as [|[]|N]; cbn [at_least] in A; try tauto;
    try reflexivity.
  - assert (An : qAbs (Fin N) = Fin N) by (apply qAbs_nonneg; lra).
    rewrite An.
    assert (Hm : qMin (Fin c) (Fin N) = Fin c).
    { unfold qMin.
      assert (E : (Fin c <? Fin N) = true).
      { apply fltb_Fin. unfold Qclt. lra. }
      rewrite E. reflexivity. }
    rewrite Hm.
    apply flt_not_le.
    assert (A1 : at_least (qAbs (Fin c - Fin N)) (this c * (1 # 32))).
    { apply qAbs_difference_at_least; lra. }
    apply times_1e12_at_least in A1; [|lra].
    eapply at_least_flt; [exact A1 | lra].
Qed.

(** The luminance [setColor] computes from a channel over a range of at
    least 1 is at least 80, and its range is not fuzzily equal to the old
    one. *)
Lemma raised_luminance_above (c m : Qc) (l : Z) :
  (1 <= this c)%Q -> (this c < this m)%Q ->
  qRound (lit 80 1 * mulf (Fin m) (litf 11 10)) = Some l ->
  (86 * this c < inject_Z l)%Q /\ (80 <= l)%Z.
Proof.
  intros Hc Hm Hl.
  assert (A : at_least (mulf (Fin m) (litf 11 10)) (this m * (109 # 100))).
  { apply raised_at_least. lra. }
  destruct (mulf (Fin m) (litf 11 10)) as [|[]|R] eqn:ER;
    try discriminate Hl.
  cbn [at_least] in A.
  apply luminance_above in Hl; [|lra].
  assert (H86 : (86 * this c < inject_Z l)%Q) by lra.
  split; [exact H86|].
  assert (H79 : (inject_Z 79 < inject_Z l)%Q).
  { change (inject_Z 79) with (79 # 1). lra. }
  rewrite <- Zlt_Qlt in H79. lia.
Qed.

Lemma raised_not_fuzzy (c m : Qc) (l : Z) :
  (1 <= this c)%Q -> (this c < this m)%Q ->
  qRound (lit 80 1 * mulf (Fin m) (litf 11 10)) = Some l ->
  qFuzzyCompare (Fin c) (ofInt l / lit 80 1) = false.
Proof.
  intros Hc Hm Hl.
  destruct (@raised_luminance_above c m l Hc Hm Hl) as [H86 H80].
  apply qFuzzyCompare_far; [exact Hc|].
  eapply at_least_weaken; [|apply range_at_least, H80].
  revert H86. generalize (inject_Z l). intros t Ht. lra.
Qed.

Lemma qRound_finite (d : ieee) (l : Z) : qRound d = Some l -> exists q, d = Fin q.
Proof. destruct d as [|[]|q]; try discriminate. eauto. Qed.

Lemma fltb_NaN_r (x : ieee) : (x <? NaN) = false.
Proof. destruct x as [|[]|q]; reflexivity. Qed.

(** With a range of at least 1 that some channel exceeds, the greatest
    channel and the range are finite once the luminance exists. *)
Lemma raised_finite (c r g b : ieee) (l : Z) :
  1 <= c -> (c <? r) || (c <? g) || (c <? b) = true ->
  qRound (lit 80 1 * mulf (max3 r g b) (litf 11 10)) = Some l ->
  exists cq m R,
    c = Fin cq /\ max3 r g b = Fin m /\ mulf (max3 r g b) (litf 11 10) = Fin R
    /\ (1 <= this cq)%Q /\ (this cq < this m)%Q /\ (this m <= this R)%Q.
Proof.
  intros Hc Hex Hl.
  destruct (@qRound_finite _ _ Hl) as [D HD].
  destruct (@times80_finite _ _ HD) as [R HR].
  destruct (@times110_finite _ _ HR) as [m Hm].
  assert (Nm : max3 r g b <> NaN) by (rewrite Hm; discriminate).
  pose proof (@exceeds_max3 c r g b Nm Hex) as Hlt. rewrite Hm in Hlt, HR.
  destruct (@finite_between c 1 (Fin m) eq_refl eq_refl Hc (flt_le_weak Hlt))
    as [cq ->].
  apply fle_Fin in Hc. apply flt_Fin in Hlt.
  unfold Qcle in Hc. unfold Qclt in Hlt. change (this 1%Qc) with 1%Q in Hc.
  assert (A : at_least (mulf (Fin m) (litf 11 10)) (this m * (109 # 100))).
  { apply raised_at_least. lra. }
  rewrite HR in A. cbn [at_least] in A.
  exists cq, m, R. rewrite Hm. repeat split; try assumption. lra.
Qed.

Lemma unit_finite (x : ieee) : 0 <= x <= 1 -> exists q, x = Fin q.
Proof.
  intros [H0 H1]. exact (@finite_between x 0 1 eq_refl eq_refl H0 H1).
Qed.

Lemma qFuzzyCompare_refl_unit (x : ieee) :
  0 <= x <= 1 -> qFuzzyCompare x x = true.
Proof.
  intros H. destruct (unit_finite H) as [q ->]. apply qFuzzyCompare_refl.
Qed.

(** With [y] in the unit range, [1.0 - y] is in it. *)
Lemma one_minus_unit (y : ieee) : 0 <= y <= 1 -> 0 <= 1 - y <= 1.
Proof.
  intros H. destruct (unit_finite H) as [q ->]. destruct H as [H0 H1].
  apply fle_Fin in H0, H1. unfold fsub. cbn [fadd fneg]. split.
  - rewrite <- (rnd_0 binary64). apply rnd64_mono. qc2q. lra.
  - rewrite <- rnd64_1. apply rnd64_mono. qc2q. lra.
Qed.

Section DynamicRange.

Context {E : Externals}.

Hypothesis Hslider : slider_in_range.

Lemma keeps_range_ok f d : keeps_range f -> range_ok d -> range_ok (f d).
Proof. intros K H. unfold range_ok. rewrite K. exact H. Qed.

Ltac keepr :=
  apply preserves_modify; intros; cbv beta;
  lazymatch goal with
  | |- range_ok (?f ?x) =>
      apply (keeps_range_ok (f:=f) (d:=x));
      [ intros ?; reflexivity | assumption ]
  end.

Lemma setHSV_with_range_ok tell h s v n :
  preserves range_ok tell -> preserves range_ok (setHSV_with tell h s v n).
Proof.
  intros Ht. unfold setHSV_with. preserves_auto; try keepr; assumption.
Qed.

Lemma slotUpdateDynamicRange_range_ok l :
  (80 <= l)%Z -> preserves range_ok (slotUpdateDynamicRange l).
Proof.
  intros Hl. unfold slotUpdateDynamicRange, slotUpdatePalettes.
  preserves_auto; try keepr.
  apply preserves_modify. intros d _. apply range_of_luminance, Hl.
Qed.

Lemma slotDisplayConfigurationChanged_range_ok :
  preserves range_ok slotDisplayConfigurationChanged.
Proof.
  unfold slotDisplayConfigurationChanged, slotUpdatePalettes.
  preserves_auto; try keepr.
  all: apply preserves_modify; intros d0 H0;
    destruct (dynamicRange d0); [|assumption]; exact H0.
Qed.

Lemma dynamicRange_setValue_range_ok v :
  preserves range_ok (dynamicRange_setValue v).
Proof.
  unfold dynamicRange_setValue.
  preserves_auto; try keepr.
  apply slotUpdateDynamicRange_range_ok.
  eapply Hslider. eassumption.
Qed.

Lemma effective_range_ok d :
  range_ok d -> 1 <= effectiveRelativeDynamicRange d.
Proof.
  intros H. unfold effectiveRelativeDynamicRange.
  destruct (hasHDR d); [exact H | reflexivity].
Qed.

(** The luminance [setColor] computes is inside the slider's lower end. *)
Lemma raised_luminance d r g b l :
  range_ok d ->
  (effectiveRelativeDynamicRange d <? r)
  || (effectiveRelativeDynamicRange d <? g)
  || (effectiveRelativeDynamicRange d <? b) = true ->
  qRound (lit 80 1 * mulf (max3 r g b) (litf 11 10)) = Some l ->
  (80 <= l)%Z.
Proof.
  intros Hd Hex Hq. apply effective_range_ok in Hd.
  destruct (@raised_finite _ r g b l Hd Hex Hq)
    as (cq & m & R & Hc & Hm & HR & H1 & H2 & H3).
  rewrite Hm in Hq.
  exact (proj2 (@raised_luminance_above cq m l H1 H2 Hq)).
Qed.

Lemma setColor_rangeCoeff_range_ok r g b :
  preserves range_ok (setColor_rangeCoeff r g b).
Proof.
  intros d a d' Hd. unfold setColor_rangeCoeff.
  unfold bind at 1. unfold get at 1.
  destruct ((effectiveRelativeDynamicRange d <? r) || _ || _) eqn:Hex.
  - destruct (qRound _) as [l|] eqn:Hq; [|discriminate].
    assert (Hl : (80 <= l)%Z) by (eapply raised_luminance; eassumption).
    assert (P : preserves range_ok
              (slotUpdateDynamicRange l ;;; dynamicRange_setValue l ;;;
               ret (mulf (max3 r g b) (litf 11 10)))).
    { preserves_auto.
      - apply slotUpdateDynamicRange_range_ok, Hl.
      - apply dynamicRange_setValue_range_ok. }
    intros Hrun. eapply P; eassumption.
  - intros [= _ <-]. exact Hd.
Qed.

Lemma setColor_range_ok color : preserves range_ok (setColor color).
Proof.
  unfold setColor, setColor_scale.
  preserves_auto; try keepr;
    first [ apply slotDisplayConfigurationChanged_range_ok
          | apply setColor_rangeCoeff_range_ok
          | apply setHSV_with_range_ok, preserves_ret ].
Qed.

Lemma deliver_range_ok colors : preserves range_ok (deliver colors).
Proof.
  induction colors as [|c rest IH]; simpl.
  - apply preserves_ret.
  - apply preserves_bind; [apply setColor_range_ok | intros _; exact IH].
Qed.

Lemma tellColorChanged_range_ok : preserves range_ok tellColorChanged.
Proof.
  unfold tellColorChanged, tellColorChanged_with, emit_colorChanged.
  preserves_auto; try keepr; apply deliver_range_ok.
Qed.

Lemma setHue_range_ok h : preserves range_ok (setHue h).
Proof.
  unfold setHue. preserves_auto; try keepr. apply tellColorChanged_range_ok.
Qed.

Lemma run_range_ok c : sliderCall c -> preserves range_ok (run c).
Proof.
  destruct c; simpl; intros Hc.
  - apply setHue_range_ok.
  - apply setHSV_with_range_ok, tellColorChanged_range_ok.
  - apply setColor_range_ok.
  - unfold setDisplayColorConverter. preserves_auto; try keepr.
    apply slotDisplayConfigurationChanged_range_ok.
  - apply preserves_ret.
  - unfold slotHueSliderChanged. preserves_auto. apply setHue_range_ok.
  - unfold slotValueSliderChanged. preserves_auto.
    apply setHSV_with_range_ok, tellColorChanged_range_ok.
  - apply slotUpdateDynamicRange_range_ok. lia.
  - apply slotDisplayConfigurationChanged_range_ok.
  - apply preserves_ret.
  - unfold converterChanges. apply preserves_modify. intros d H.
    destruct (displayColorConverter d); exact H.
Qed.

Lemma reachable_range_ok d : reachable sliderCall d -> range_ok d.
Proof.
  apply reachable_invariant.
  - intros b. reflexivity.
  - apply run_range_ok.
Qed.

(** [slotUpdateDynamicRange] returns and keeps the slider. *)
Lemma slotUpdateDynamicRange_returns l d :
  exists d', slotUpdateDynamicRange l d = Some (tt, d')
             /\ dynamicRange d' = dynamicRange d.
Proof.
  unfold slotUpdateDynamicRange, setHSV_with, slotUpdatePalettes,
    bind, get, modify, ret.
  destruct (qFuzzyCompare _ _); [eauto|].
  destruct (HSVToRGB _ _ _) as [[r g] b].
  destruct (RGBToHSV _ _ _) as [[h s] v].
  eexists. split; reflexivity.
Qed.

Lemma dynamicRange_setValue_returns v d :
  dynamicRange d <> None -> exists d', dynamicRange_setValue v d = Some (tt, d').
Proof.
  intros Hs. unfold dynamicRange_setValue. unfold bind at 1. unfold get at 1.
  destruct (dynamicRange d) as [s|]; [|congruence].
  destruct (sliderSetValue _ _) as [shown [e|]].
  - unfold bind, modify.
    destruct (slotUpdateDynamicRange_returns e
                (set_dynamicRange
                   (Some {| sliderValue := shown; isEnabled := isEnabled s |}) d))
      as (d' & Hd' & _).
    exists d'. exact Hd'.
  - unfold bind, modify, ret. eauto.
Qed.

(** [slotUpdateDynamicRange] on a range that is not fuzzily equal. *)
Lemma slotUpdateDynamicRange_sets l d :
  qFuzzyCompare (currentRelativeDynamicRange d) (ofInt l / lit 80 1) = false ->
  exists d', slotUpdateDynamicRange l d = Some (tt, d')
             /\ currentRelativeDynamicRange d' = ofInt l / lit 80 1
             /\ dynamicRange d' = dynamicRange d.
Proof.
  intros Hf.
  unfold slotUpdateDynamicRange, setHSV_with, slotUpdatePalettes,
    bind, get, modify, ret.
  rewrite Hf.
  destruct (HSVToRGB _ _ _) as [[r g] b].
  destruct (RGBToHSV _ _ _) as [[h s] v].
  eexists. repeat split.
Qed.

(** [slotUpdateDynamicRange] on the range that is already there. *)
Lemma slotUpdateDynamicRange_same l d :
  (INT_MIN <= l <= INT_MAX)%Z ->
  currentRelativeDynamicRange d = ofInt l / lit 80 1 ->
  slotUpdateDynamicRange l d = Some (tt, d).
Proof.
  intros Hl H. unfold slotUpdateDynamicRange, bind, get.
  rewrite H. destruct (range_finite Hl) as [q ->].
  rewrite qFuzzyCompare_refl. reflexivity.
Qed.

(** The slider given the value the range already has: if it tells that
    value, or nothing, the range stays. *)
Lemma dynamicRange_setValue_same l d d' s :
  (INT_MIN <= l <= INT_MAX)%Z ->
  currentRelativeDynamicRange d = ofInt l / lit 80 1 ->
  dynamicRange d = Some s ->
  snd (sliderSetValue (sliderValue s) l) = None
  \/ snd (sliderSetValue (sliderValue s) l) = Some l ->
  dynamicRange_setValue l d = Some (tt, d') ->
  currentRelativeDynamicRange d' = ofInt l / lit 80 1.
Proof.
  intros Hl Hr Hs Hem. unfold dynamicRange_setValue.
  unfold bind at 1. unfold get at 1. rewrite Hs.
  destruct (sliderSetValue (sliderValue s) l) as [shown em].
  simpl in Hem. unfold bind, modify.
  destruct Hem as [-> | ->].
  - intros [= <-]. exact Hr.
  - rewrite slotUpdateDynamicRange_same by assumption.
    intros [= <-]. exact Hr.
Qed.

Lemma qRound_int (d : qreal) (l : Z) :
  0 <= d -> qRound d = Some l -> (INT_MIN <= l <= INT_MAX)%Z.
Proof.
  intros H0. unfold qRound. unfold fle in H0. rewrite H0.
  apply toInt_range.
Qed.

(** The float product with [1.10f] of a greatest channel above a range
    of at least 1 is above the range. *)
Lemma raised_above (c m : ieee) :
  1 <= c -> c < m -> c < mulf m (litf 11 10).
Proof.
  intros Hc Hlt. rewrite litf_11_10.
  destruct m as [|[]|mq].
  - exfalso. destruct (flt_number Hlt) as [_ N]. congruence.
  - exfalso. pose proof (fle_lt_trans Hc Hlt) as H. discriminate H.
  - exact Hlt.
  - rewrite <- litf_11_10.
    destruct (@finite_between c 1 (Fin mq) eq_refl eq_refl Hc (flt_le_weak Hlt))
      as [cq ->].
    apply fle_Fin in Hc. apply flt_Fin in Hlt.
    unfold Qcle in Hc. unfold Qclt in Hlt. change (this 1%Qc) with 1%Q in Hc.
    apply at_least_flt with (lo := (this mq * (109 # 100))%Q).
    + apply raised_at_least. lra.
    + lra.
Qed.

(** The channels divided by a positive coefficient that none of them
    exceeds. *)
Lemma scaled_bounded (k x : ieee) :
  0 < k -> (k <? x) = false ->
  (1 <? to_float (x / k)) = false
  /\ (forall q, x = Fin q -> to_float (x / k) <= 1)
  /\ (x = NaN -> to_float (x / k) = NaN).
Proof.
  intros Hk Hx. split; [|split].
  - apply scaled_not_above; assumption.
  - intros q ->. apply scaled_at_most; assumption.
  - intros ->. reflexivity.
Qed.

(** C2.  In a reachable state with HDR on, the effective range
    coefficient [c] is at least 1 and [setColor] compares the channels
    with it.  If no channel exceeds it, the state is left alone and the
    channels are divided by [c].  If one does, the coefficient becomes
    the float product of the greatest channel and [1.10f], which is more
    than [c] unless it is NaN; the new maximum luminance is [qRound] of
    80 times that, which exists when it fits an [int] and is then at
    least 80; [slotUpdateDynamicRange] makes it, over 80, the current
    range, the slider is given it, and the range stays if the slider
    tells its slots that value or nothing; and the channels are divided
    by the new coefficient.  Each quotient is computed in double and
    stored as a float.  Either way no resulting channel is greater than
    1, each that comes from a finite channel is at most 1, and a NaN
    channel stays NaN; and [setColor] stores the HSV of the divided
    channels. *)
Theorem setColor_HDR_scaling (d : Private) (r g b : float)
    (Hreach : reachable sliderCall d) (HDR : hasHDR d = true) :
  let c := effectiveRelativeDynamicRange d in
  let raised := mulf (max3 r g b) (litf 11 10) in
  let scaled k := (to_float (r / k), to_float (g / k), to_float (b / k)) in
  let bounded k :=
    forall x, x = r \/ x = g \/ x = b ->
      (1 <? to_float (x / k)) = false
      /\ (forall q, x = Fin q -> to_float (x / k) <= 1)
      /\ (x = NaN -> to_float (x / k) = NaN) in
  1 <= c
  /\ ((c <? r) || (c <? g) || (c <? b) = false ->
      setColor_rangeCoeff r g b d = Some (c, d)
      /\ setColor_scale r g b d = Some (scaled c, d)
      /\ bounded c)
  /\ ((c <? r) || (c <? g) || (c <? b) = true ->
      (raised <> NaN -> c < raised)
      /\ (lit 80 1 * raised + lit 1 2 < ofInt (2 ^ 31) ->
          exists newMaxLuminance,
            qRound (lit 80 1 * raised) = Some newMaxLuminance)
      /\ (forall newMaxLuminance,
            qRound (lit 80 1 * raised) = Some newMaxLuminance ->
            exists d1 d',
              (80 <= newMaxLuminance)%Z
              /\ slotUpdateDynamicRange newMaxLuminance d = Some (tt, d1)
              /\ currentRelativeDynamicRange d1
                 = ofInt newMaxLuminance / lit 80 1
              /\ dynamicRange_setValue newMaxLuminance d1 = Some (tt, d')
              /\ (forall s,
                    dynamicRange d1 = Some s ->
                    snd (sliderSetValue (sliderValue s) newMaxLuminance) = None
                    \/ snd (sliderSetValue (sliderValue s) newMaxLuminance)
                       = Some newMaxLuminance ->
                    currentRelativeDynamicRange d'
                    = ofInt newMaxLuminance / lit 80 1)
              /\ setColor_rangeCoeff r g b d = Some (raised, d')
              /\ setColor_scale r g b d = Some (scaled raised, d')
              /\ bounded raised))
  /\ (forall color conv rangeCoeff d1 h s v,
        updateAllowed d = true ->
        (forall sl, dynamicRange d = Some sl -> isEnabled sl = true) ->
        displayColorConverter d = Some conv ->
        setColor_channels color conv = (r, g, b) ->
        setColor_rangeCoeff r g b d = Some (rangeCoeff, d1) ->
        RGBToHSV (to_float (r / rangeCoeff)) (to_float (g / rangeCoeff))
                 (to_float (b / rangeCoeff))
        = (h, s, v) ->
        exists d2,
          setColor color d = Some (tt, d2)
          /\ hue d2 = qBound 0 (h / lit 360 1) 1
          /\ saturation d2 = qBound 0 s 1
          /\ value d2 = qBound 0 v 1
          /\ currentRelativeDynamicRange d2 = currentRelativeDynamicRange d1).
Proof.
  cbv zeta.
  assert (Hc : 1 <= effectiveRelativeDynamicRange d)
    by (apply effective_range_ok, reachable_range_ok, Hreach).
  assert (Hpos : 0 < effectiveRelativeDynamicRange d).
  { apply flt_le_trans with 1; [reflexivity | exact Hc]. }
  split; [exact Hc|]. split; [|split].
  - intros Hex.
    assert (Hrc : setColor_rangeCoeff r g b d
                  = Some (effectiveRelativeDynamicRange d, d)).
    { unfold setColor_rangeCoeff, bind, get. rewrite Hex. reflexivity. }
    split; [exact Hrc|]. split.
    + unfold setColor_scale. unfold bind at 1. unfold get at 1. rewrite HDR.
      unfold bind. rewrite Hrc. reflexivity.
    + apply orb_false_iff in Hex. destruct Hex as [Hex Hb].
      apply orb_false_iff in Hex. destruct Hex as [Hr Hg].
      intros x [-> | [-> | ->]]; apply scaled_bounded; assumption.
  - intros Hex. split; [|split].
    + intros Nr. apply raised_above; [exact Hc|].
      apply exceeds_max3; [|exact Hex].
      intros N. apply Nr. rewrite N. reflexivity.
    + intros Hfit.
      assert (HR : mulf (max3 r g b) (litf 11 10) <> NaN ->
                   0 < mulf (max3 r g b) (litf 11 10)).
      { intros Nr.
        apply flt_trans with (effectiveRelativeDynamicRange d); [exact Hpos|].
        apply raised_above; [exact Hc|].
        apply exceeds_max3; [|exact Hex].
        intros N. apply Nr. rewrite N. reflexivity. }
      destruct (mulf (max3 r g b) (litf 11 10)) as [|[]|R];
        try discriminate Hfit.
      { exfalso. assert (H : 0 < Inf true) by (apply HR; discriminate).
        discriminate H. }
      assert (HR' : 0 < Fin R) by (apply HR; discriminate).
      clear HR. rename HR' into HR.
      apply flt_Fin in HR.
      assert (H0 : 0 <= lit 80 1 * Fin R).
      { unfold lit. cbn [fmul]. rewrite <- (rnd_0 binary64).
        apply rnd64_mono. clear - HR. qc2q. lra. }
      unfold qRound. unfold fle in H0. rewrite H0.
      destruct (lit 80 1 * Fin R) as [|[]|D] eqn:ED;
        try discriminate Hfit; try discriminate H0.
      apply fleb_Fin in H0.
      assert (HS : 0 <= Fin D + lit 1 2).
      { unfold lit. cbn [fadd]. rewrite <- (rnd_0 binary64).
        apply rnd64_mono. clear - H0. qc2q. lra. }
      destruct (Fin D + lit 1 2) as [|[]|S] eqn:ES;
        try discriminate Hfit; try discriminate HS.
      apply fle_Fin in HS. apply flt_Fin in Hfit.
      apply toInt_returns.
      * exact HS.
      * unfold Qclt in Hfit. rewrite this_ofInt in Hfit. exact Hfit.
    + intros l Hq.
      destruct (@raised_finite _ r g b l Hc Hex Hq)
        as (cq & m & R & Ec & Em & ER & H1 & H2 & H3).
      assert (Hcur : currentRelativeDynamicRange d
                     = effectiveRelativeDynamicRange d).
      { unfold effectiveRelativeDynamicRange. rewrite HDR. reflexivity. }
      assert (Hq' : qRound (lit 80 1 * mulf (Fin m) (litf 11 10)) = Some l)
        by (rewrite <- Em; exact Hq).
      assert (H80 : (80 <= l)%Z)
        by exact (proj2 (@raised_luminance_above cq m l H1 H2 Hq')).
      assert (Hnf : qFuzzyCompare (currentRelativeDynamicRange d)
                                  (ofInt l / lit 80 1) = false).
      { rewrite Hcur, Ec. exact (@raised_not_fuzzy cq m l H1 H2 Hq'). }
      assert (Hint : (INT_MIN <= l <= INT_MAX)%Z).
      { apply (@qRound_int (lit 80 1 * mulf (max3 r g b) (litf 11 10)));
          [|exact Hq].
        rewrite ER. unfold lit. cbn [fmul]. rewrite <- (rnd_0 binary64).
        apply rnd64_mono. clear - H1 H2 H3. qc2q. lra. }
      destruct (slotUpdateDynamicRange_sets l d Hnf) as (d1 & Hd1 & Hr1 & Hs1).
      assert (Hs : dynamicRange d1 <> None).
      { rewrite Hs1. apply (reachable_wired Hreach).
        apply (reachable_wired Hreach). exact HDR. }
      destruct (@dynamicRange_setValue_returns l d1 Hs) as (d2 & Hd2).
      assert (Hrc : setColor_rangeCoeff r g b d
                    = Some (mulf (max3 r g b) (litf 11 10), d2)).
      { unfold setColor_rangeCoeff. unfold bind at 1. unfold get at 1.
        rewrite Hex, Hq. unfold bind, ret. rewrite Hd1, Hd2. reflexivity. }
      exists d1, d2. split; [exact H80|]. split; [exact Hd1|].
      split; [exact Hr1|]. split; [exact Hd2|]. split.
      { intros s Hsl Hem.
        eapply dynamicRange_setValue_same; eassumption. }
      split; [exact Hrc|]. split.
      * unfold setColor_scale. unfold bind at 1. unfold get at 1. rewrite HDR.
        unfold bind. rewrite Hrc. reflexivity.
      * assert (Nm : max3 r g b <> NaN) by (rewrite Em; discriminate).
        assert (HmR : max3 r g b <= Fin R).
        { rewrite Em. apply fle_Fin. exact H3. }
        assert (HRpos : 0 < Fin R).
        { apply flt_Fin. unfold Qclt. change (this 0%Qc) with 0%Q. lra. }
        rewrite ER.
        intros x Hx. apply scaled_bounded; [exact HRpos|].
        destruct x as [|sx|qx] eqn:Ex; [reflexivity| |].
        -- apply fle_not_lt. apply fle_trans with (max3 r g b); [|exact HmR].
           apply max3_upper; [exact Nm|exact Hx|discriminate].
        -- apply fle_not_lt. apply fle_trans with (max3 r g b); [|exact HmR].
           apply max3_upper; [exact Nm|exact Hx|discriminate].
  - intros color conv rc d1 h s v Hu Hen Hconv Hch Hrc Hhsv.
    assert (Hsc : setColor_scale r g b d
                  = Some ((to_float (r / rc), to_float (g / rc),
                           to_float (b / rc)), d1)).
    { unfold setColor_scale. unfold bind at 1. unfold get at 1. rewrite HDR.
      unfold bind. rewrite Hrc. reflexivity. }
    assert (Hen' : forall sl, dynamicRange d = Some sl ->
                              isEnabled sl = hasHDR d).
    { intros sl Hsl. rewrite HDR. exact (Hen sl Hsl). }
    pose proof (proj1 (reachable_wired Hreach)) as Hw.
    destruct (setColor_after_scale color d Hu Hen' Hw Hconv Hch Hsc Hhsv)
      as (d2 & H1 & H2 & H3 & H4 & _ & _ & H5 & _).
    exists d2. auto.
Qed.

End DynamicRange.

(** ** The theorems at work on the sample instance *)

Lemma sample_slider_in_range : slider_in_range (E := sampleExternals).
Proof.
  intros shown asked shown' e. simpl. unfold sampleSetValue.
  intros [= _ <-]. apply Z.le_max_l.
Defined.

Lemma hdrState_reachable (allowed : @Call sampleExternals -> Prop) :
  allowed (CsetDisplayColorConverter (Some converterF32)) ->
  reachable allowed hdrState.
Proof.
  intros H.
  apply (@reachable_run sampleExternals allowed
           (KisSmallColorWidget_new (E := sampleExternals) true)
           (CsetDisplayColorConverter (Some converterF32)) hdrState).
  - apply reachable_new.
  - exact H.
  - reflexivity.
Defined.

(** With HDR on and the range at 1, the channel 3/2 raises the coefficient
    to the float product of 3/2 and [1.10f], the luminance is 132, and 3/2
    over the coefficient, stored as a float, is at most 1. *)
Lemma setColor_HDR_scaling_witness :
  slider_in_range (E := sampleExternals)
  /\ reachable (E := sampleExternals) sliderCall hdrState
  /\ hasHDR hdrState = true
  /\ effectiveRelativeDynamicRange hdrState
     < mulf (max3 (lit 1 2) (lit 3 2) (lit 1 4)) (litf 11 10)
  /\ qRound (lit 80 1 * mulf (max3 (lit 1 2) (lit 3 2) (lit 1 4)) (litf 11 10))
     = Some 132%Z
  /\ to_float (lit 3 2 / mulf (max3 (lit 1 2) (lit 3 2) (lit 1 4)) (litf 11 10))
     <= 1.
Proof.
  assert (Hr : reachable (E := sampleExternals) sliderCall hdrState)
    by (apply hdrState_reachable; exact I).
  pose proof (@setColor_HDR_scaling sampleExternals sample_slider_in_range
                hdrState (lit 1 2) (lit 3 2) (lit 1 4) Hr eq_refl) as T.
  cbv zeta in T. destruct T as (_ & _ & T & _).
  assert (Hex : (effectiveRelativeDynamicRange hdrState <? lit 1 2)
                || (effectiveRelativeDynamicRange hdrState <? lit 3 2)
                || (effectiveRelativeDynamicRange hdrState <? lit 1 4) = true)
    by (vm_compute; reflexivity).
  destruct (T Hex) as (T1 & _ & T3).
  assert (Hq : qRound (lit 80 1
                       * mulf (max3 (lit 1 2) (lit 3 2) (lit 1 4)) (litf 11 10))
               = Some 132%Z) by (vm_compute; reflexivity).
  assert (Nr : mulf (max3 (lit 1 2) (lit 3 2) (lit 1 4)) (litf 11 10) <> NaN)
    by (vm_compute; discriminate).
  destruct (T3 132%Z Hq) as (d1 & d' & _ & _ & _ & _ & _ & _ & _ & Hb).
  split; [exact sample_slider_in_range|].
  split; [exact Hr|]. split; [reflexivity|]. split; [exact (T1 Nr)|].
  split; [exact Hq|].
  exact (proj1 (proj2 (Hb (lit 3 2) (or_intror (or_introl eq_refl)))) _ eq_refl).
Defined.

(** A channel that is NaN exceeds no range and stays NaN when it is
    divided: it is not at most 1. *)
Lemma setColor_keeps_a_NaN_channel :
  reachable (E := sampleExternals) sliderCall hdrState
  /\ hasHDR hdrState = true
  /\ (exists r' b',
        setColor_scale (E := sampleExternals) (lit 1 2) NaN (lit 1 4) hdrState
        = Some ((r', NaN, b'), hdrState))
  /\ ~ NaN <= 1.
Proof.
  split; [apply hdrState_reachable; exact I|]. split; [reflexivity|].
  split.
  - eexists. eexists. vm_compute. reflexivity.
  - intros H. discriminate H.
Qed.

(** The pixel (1, 1) of a 3 by 2 saturation and value palette. *)
Lemma palette_pixels_witness :
  skipsDisplayConversion (E := sampleExternals) sdrState = true
  /\ (0 <= 1 < 3)%Z
  /\ exists v,
       v = 1 - mulf (to_float (1 / ofInt 2)) (ofIntf 1)
       /\ pixel (updateSVPalette (E := sampleExternals) 3 2 sdrState) 1 1
          = Some {| pxl_r := to_half (mulf v (to_float 1));
                    pxl_g := to_half (mulf v (to_float 1));
                    pxl_b := to_half (mulf v (to_float 1));
                    pxl_a := 1 |}.
Proof.
  assert (Hx : (0 <= 1 < 3)%Z) by lia.
  pose proof (@palette_pixels sampleExternals sdrState 3 2 1 1 eq_refl Hx) as T.
  cbv zeta in T. destruct T as [_ T].
  split; [reflexivity|]. split; [exact Hx|].
  assert (Hy : (0 <= 1 < 2)%Z) by lia.
  eexists. split; [reflexivity|].
  exact (proj2 (proj2 (T _ _ _ Hy eq_refl))).
Defined.

(** The slider of an HDR widget that shows a grey of value 1/2 goes from
    80 to 160: the channels are doubled, and the value becomes 1. *)
Lemma slotUpdateDynamicRange_remaps_witness :
  qFuzzyCompare (currentRelativeDynamicRange greyState) (ofInt 160 / lit 80 1)
  = false
  /\ exists r r' d',
       r = to_float (value greyState)
       /\ same_number r (lit 1 2) = true
       /\ r' = 1
       /\ slotUpdateDynamicRange (E := sampleExternals) 160 greyState
          = Some (tt, d')
       /\ currentRelativeDynamicRange d' = ofInt 160 / lit 80 1.
Proof.
  pose proof (@slotUpdateDynamicRange_remaps sampleExternals greyState 160) as T.
  cbv zeta in T. destruct T as [_ T].
  assert (Hf : qFuzzyCompare (currentRelativeDynamicRange greyState)
                             (ofInt 160 / lit 80 1) = false)
    by (vm_compute; reflexivity).
  destruct (T Hf _ _ _ eq_refl)
    as (r' & g' & b' & h' & s' & v' & d' & Hr & _ & _ & _ & _ & Hrun
        & _ & _ & _ & _ & _ & _ & Hrange & _).
  destruct Hr as (_ & Hr & _).
  assert (Hin : 0 <= to_float (value greyState)
                     * (ofInt 160 / lit 80 1 / currentRelativeDynamicRange greyState)
                <= 1) by (split; vm_compute; reflexivity).
  assert (H1 : to_float (to_float (value greyState)
                         * (ofInt 160 / lit 80 1
                            / currentRelativeDynamicRange greyState)) = 1)
    by (apply same_number_eq; vm_compute; reflexivity).
  split; [exact Hf|].
  exists (to_float (value greyState)), r', d'.
  split; [reflexivity|]. split; [vm_compute; reflexivity|].
  split; [rewrite (Hr Hin); exact H1|].
  split; [exact Hrun | exact Hrange].
Defined.


Lemma hsv_always_in_unit_range_witness :
  reachable (E := sampleExternals) anyCall hdrState
  /\ hsv_in_range hdrState.
Proof.
  assert (Hr : reachable (E := sampleExternals) anyCall hdrState)
    by (apply hdrState_reachable; exact I).
  split; [exact Hr|].
  exact (proj1 (@hsv_always_in_unit_range sampleExternals hdrState Hr)).
Defined.

Lemma hasHDR_implies_hasHardwareHDR_witness :
  reachable (E := sampleExternals) anyCall hdrState
  /\ hasHDR hdrState = true
  /\ hasHardwareHDR hdrState = true.
Proof.
  assert (Hr : reachable (E := sampleExternals) anyCall hdrState)
    by (apply hdrState_reachable; exact I).
  split; [exact Hr|]. split; [reflexivity|].
  exact (proj1 (@hasHDR_implies_hasHardwareHDR sampleExternals hdrState Hr) eq_refl).
Defined.

Lemma setColor_reentrancy_guard_witness :
  updateAllowed blockedState = false
  /\ setColor (E := sampleExternals) (rgbaF32, [lit 1 4; lit 1 2; lit 3 4; 1])
              blockedState
     = Some (tt, blockedState).
Proof.
  split; [reflexivity|].
  exact (proj1 (@setColor_reentrancy_guard sampleExternals blockedState eq_refl)
               (rgbaF32, [lit 1 4; lit 1 2; lit 3 4; 1])).
Defined.

(** ** What a call leaves alone *)

Section Frames.

Context {E : Externals}.

Lemma same_rest_refl d : same_rest d d.
Proof. repeat split. Qed.

Lemma same_rest_trans d1 d2 d3 :
  same_rest d1 d2 -> same_rest d2 d3 -> same_rest d1 d3.
Proof.
  intros (A1 & A2 & A3 & A4 & A5 & A6 & A7) (B1 & B2 & B3 & B4 & B5 & B6 & B7).
  repeat split; congruence.
Qed.

Lemma frames_ret {A} (a : A) : frames (ret a).
Proof. intros d x d' [= _ <-]. apply same_rest_refl. Qed.

Lemma frames_get : frames get.
Proof. intros d x d' [= _ <-]. apply same_rest_refl. Qed.

Lemma frames_crash {A} : frames (@crash A).
Proof. intros d x d' [=]. Qed.

Lemma frames_modify f : (forall d, same_rest d (f d)) -> frames (modify f).
Proof. intros Hf d x d' [= _ <-]. apply Hf. Qed.

Lemma frames_bind {A B} (m : M A) (k : A -> M B) :
  frames m -> (forall a, frames (k a)) -> frames (bind m k).
Proof.
  intros Hm Hk d b d'. unfold bind.
  destruct (m d) as [[a d1]|] eqn:Em; [|discriminate].
  intros Hkd. exact (same_rest_trans (Hm _ _ _ Em) (Hk a _ _ _ Hkd)).
Qed.

End Frames.

Ltac frames_step :=
  lazymatch goal with
  | |- frames (ret _) => apply frames_ret
  | |- frames get => apply frames_get
  | |- frames crash => apply frames_crash
  | |- frames (bind _ _) => apply frames_bind; [ | intros ? ]
  | |- frames (modify _) =>
      apply frames_modify; intros ?; repeat split
  | |- frames (match ?x with _ => _ end) => destruct x eqn:?
  end.

Ltac frames_auto := repeat frames_step.

Section FramesOfCalls.

Context {E : Externals}.

Lemma setHSV_with_frames tell h s v n :
  frames tell -> frames (setHSV_with tell h s v n).
Proof. intros Ht. unfold setHSV_with. frames_auto. exact Ht. Qed.

Lemma slotUpdateDynamicRange_frames l : frames (slotUpdateDynamicRange l).
Proof.
  unfold slotUpdateDynamicRange, slotUpdatePalettes. frames_auto.
  apply setHSV_with_frames, frames_ret.
Qed.

Lemma dynamicRange_setValue_frames v : frames (dynamicRange_setValue v).
Proof.
  intros d a d'. unfold dynamicRange_setValue.
  unfold bind at 1. unfold get at 1.
  destruct (dynamicRange d) as [s|] eqn:Hs; [|discriminate].
  destruct (sliderSetValue (sliderValue s) v) as [shown emitted].
  unfold bind at 1. unfold modify at 1.
  assert (H1 : same_rest d
            (set_dynamicRange
               (Some {| sliderValue := shown; isEnabled := isEnabled s |}) d)).
  { repeat split. simpl. rewrite Hs. reflexivity. }
  destruct emitted as [e|].
  - intros H2. apply slotUpdateDynamicRange_frames in H2.
    exact (same_rest_trans H1 H2).
  - intros [= _ <-]. exact H1.
Qed.

Lemma setColor_rangeCoeff_frames r g b : frames (setColor_rangeCoeff r g b).
Proof.
  unfold setColor_rangeCoeff. frames_auto.
  - apply slotUpdateDynamicRange_frames.
  - apply dynamicRange_setValue_frames.
Qed.

Lemma setColor_scale_frames r g b : frames (setColor_scale r g b).
Proof.
  unfold setColor_scale. frames_auto. apply setColor_rangeCoeff_frames.
Qed.

(** [setColor] past its guard: the first assertion may run
    [slotDisplayConfigurationChanged]; what follows changes the colour, the
    handles, the range and the slider's value only. *)
Lemma setColor_cases color d d' :
  updateAllowed d = true ->
  setColor color d = Some (tt, d') ->
  exists d0,
    ((slider_synced d /\ d0 = d)
     \/ (~ slider_synced d /\ slotDisplayConfigurationChanged d = Some (tt, d0)))
    /\ same_rest d0 d'.
Proof.
  intros Hu. unfold setColor. unfold bind at 1. unfold get at 1.
  rewrite Hu. cbn [negb]. cbv iota.
  lazymatch goal with
  | |- bind _ ?k d = _ -> _ => set (rest := k)
  end.
  unfold bind at 1.
  assert (Hrest : forall u, frames (rest u)).
  { intros u. unfold rest. frames_auto.
    - apply setColor_scale_frames.
    - apply setHSV_with_frames, frames_ret. }
  destruct (dynamicRange d) as [s|] eqn:Hs.
  - destruct (Bool.eqb (hasHDR d) (isEnabled s)) eqn:Hb.
    + unfold ret at 1. intros H. exists d. split.
      * left. split; [|reflexivity]. intros s' Hs'.
        rewrite Hs in Hs'. injection Hs' as <-.
        apply Bool.eqb_prop in Hb. congruence.
      * exact (Hrest tt _ _ _ H).
    + destruct (slotDisplayConfigurationChanged d) as [[u d0]|] eqn:Hd0;
        [|discriminate].
      intros H. exists d0. split.
      * right. split.
        -- intros Hsync. rewrite (Hsync s Hs) in Hb.
           rewrite Bool.eqb_reflx in Hb. discriminate.
        -- destruct u. reflexivity.
      * exact (Hrest u _ _ _ H).
  - unfold ret at 1. intros H. exists d. split.
    + left. split; [|reflexivity]. intros s' Hs'. rewrite Hs in Hs'. discriminate.
    + exact (Hrest tt _ _ _ H).
Qed.

End FramesOfCalls.

(** ** Invariants of the flags *)

Section FlagInvariants.

Context {E : Externals}.

(** [slotDisplayConfigurationChanged] leaves the slider and the handles
    in agreement with the HDR flag. *)
Lemma slotDisplayConfigurationChanged_synced d :
  exists d', slotDisplayConfigurationChanged d = Some (tt, d')
             /\ display_synced d'.
Proof.
  unfold slotDisplayConfigurationChanged, slotUpdatePalettes, display_synced,
    slider_synced, bind, modify, get, ret. simpl.
  destruct (hasHardwareHDR d); destruct (displayColorConverter d) as [conv|];
    simpl; destruct (dynamicRange d) as [s|] eqn:Hs; simpl;
    eexists; (split; [reflexivity|]); simpl; rewrite ?Hs; simpl;
    repeat split; try discriminate; intros ? [= <-]; reflexivity.
Qed.

(** An invariant of the fields [same_rest] compares is kept by every
    call, once the functions that write those fields keep it. *)
Section RestInvariant.

Variable I : Private -> Prop.
Hypothesis I_rest : forall d d', same_rest d d' -> I d -> I d'.
Hypothesis I_tell : forall d, I d -> I (set_updateAllowed true d).
Hypothesis I_display : preserves I slotDisplayConfigurationChanged.
Hypothesis I_converter :
  forall converter d, I d -> I (set_displayColorConverter converter d).

Lemma rest_frames {A} (m : M A) : frames m -> preserves I m.
Proof. intros Hm d a d' Hd Hrun. exact (I_rest (Hm _ _ _ Hrun) Hd). Qed.

Lemma rest_set_hue h d : I d -> I (set_hue h d).
Proof. apply I_rest. repeat split. Qed.

Lemma rest_setHSV h s v n : preserves I (setHSV h s v n).
Proof.
  intros d a d' Hd. rewrite setHSV_eq. cbv zeta.
  assert (H3 : I (set_saturation (qBound 0 s 1)
                    (set_value (qBound 0 v 1) (set_hue (qBound 0 h 1) d)))).
  { revert Hd. apply I_rest. repeat split. }
  destruct n; [destruct (displayColorConverter d); [|discriminate]|];
    intros [= _ <-]; [apply I_tell|]; exact H3.
Qed.

Lemma rest_setHue h : preserves I (setHue h).
Proof.
  intros d a d' Hd. rewrite setHue_eq.
  destruct (displayColorConverter d); [|discriminate].
  intros [= _ <-]. apply I_tell, rest_set_hue, Hd.
Qed.

Lemma rest_setColor color : preserves I (setColor color).
Proof.
  intros d a d' Hd Hrun. destruct a.
  destruct (updateAllowed d) eqn:Hu.
  - destruct (setColor_cases color d Hu Hrun) as (d0 & [[_ ->]|[_ H0]] & Hr).
    + exact (I_rest Hr Hd).
    + exact (I_rest Hr (I_display Hd H0)).
  - rewrite setColor_blocked in Hrun by exact Hu.
    injection Hrun as <-. exact Hd.
Qed.

Lemma rest_run c : preserves I (run c).
Proof.
  destruct c; simpl.
  - apply rest_setHue.
  - apply rest_setHSV.
  - apply rest_setColor.
  - unfold setDisplayColorConverter. apply preserves_bind.
    + apply preserves_modify. intros d. apply I_converter.
    + intros _. apply I_display.
  - apply preserves_ret.
  - unfold slotHueSliderChanged. preserves_auto. apply rest_setHue.
  - unfold slotValueSliderChanged. preserves_auto. apply rest_setHSV.
  - apply rest_frames, slotUpdateDynamicRange_frames.
  - apply I_display.
  - apply preserves_ret.
  - unfold converterChanges. apply preserves_modify. intros d Hd.
    destruct (displayColorConverter d); [apply I_converter|]; exact Hd.
Qed.

End RestInvariant.

Lemma display_synced_rest d d' :
  same_rest d d' -> display_synced d -> display_synced d'.
Proof.
  intros (_ & H2 & _ & _ & H5 & H6 & H7) (S1 & S2 & S3).
  unfold display_synced, slider_synced. rewrite H2, H5, H6.
  repeat split; try assumption.
  intros s Hs. rewrite Hs in H7. simpl in H7.
  destruct (dynamicRange d) as [s0|] eqn:Hs0; [|discriminate].
  injection H7 as ->. exact (S1 s0 Hs0).
Qed.

Lemma display_synced_display :
  preserves display_synced slotDisplayConfigurationChanged.
Proof.
  intros d a d' _ Hrun.
  destruct (slotDisplayConfigurationChanged_synced d) as (d1 & H1 & Hs).
  rewrite H1 in Hrun. injection Hrun as _ <-. exact Hs.
Qed.

(** X1.  Once [slotDisplayConfigurationChanged] has run, which
    [setDisplayColorConverter] makes it do, the slider is enabled exactly
    when HDR is on and the handles use their opacity exactly when it is
    off; and every call that returns keeps this. *)
Theorem display_stays_synced (d : Private) (Hs : display_synced d) :
  (forall c d', exec (run c) d = Some d' -> display_synced d')
  /\ (forall d0 converter,
        exists d1, setDisplayColorConverter converter d0 = Some (tt, d1)
                   /\ display_synced d1).
Proof.
  split.
  - intros c d' Hexec. unfold exec in Hexec.
    destruct (run c d) as [[u d1]|] eqn:Erun; [|discriminate].
    injection Hexec as <-.
    refine (rest_run (I := display_synced) _ _ _ _ c _ Hs Erun).
    + apply display_synced_rest.
    + intros d0 H0. exact H0.
    + apply display_synced_display.
    + intros converter d0 H0. exact H0.
  - intros d0 converter. unfold setDisplayColorConverter, bind, modify.
    apply slotDisplayConfigurationChanged_synced.
Qed.

(** X2.  The first assertion of [setColor] does its work: when
    [setColor] gets past its guard and returns, the slider is enabled
    exactly when HDR is on, whatever the state it started from. *)
Theorem setColor_recovers_the_slider (color : KoColor) (d d' : Private)
    (Hu : updateAllowed d = true)
    (Hrun : setColor color d = Some (tt, d')) :
  slider_synced d'.
Proof.
  destruct (setColor_cases color d Hu Hrun) as (d0 & Hd0 & Hr).
  assert (H0 : slider_synced d0).
  { destruct Hd0 as [[H ->]|[_ H]]; [exact H|].
    destruct (slotDisplayConfigurationChanged_synced d) as (d1 & H1 & Hs).
    rewrite H1 in H. injection H as <-. apply Hs. }
  destruct Hr as (_ & H2 & _ & _ & _ & _ & H7).
  intros s Hs. rewrite Hs in H7. simpl in H7. rewrite H2.
  destruct (dynamicRange d0) as [s0|] eqn:Hs0; [|discriminate].
  injection H7 as ->. exact (H0 s0 Hs0).
Qed.

Lemma updateAllowed_run c :
  preserves (fun d => updateAllowed d = true) (run c).
Proof.
  apply rest_run.
  - intros d d' (H1 & _) Hd. congruence.
  - reflexivity.
  - intros d a d' Hd Hrun.
    destruct (slotDisplayConfigurationChanged_spec d)
      as (d1 & H1 & _ & _ & _ & _ & _ & _ & _ & _ & _ & Hu).
    rewrite H1 in Hrun. injection Hrun as _ <-. congruence.
  - intros converter d Hd. exact Hd.
Qed.

Lemma slider_matches_hardware_run c :
  preserves slider_matches_hardware (run c).
Proof.
  apply rest_run.
  - intros d d' (_ & _ & H3 & _ & _ & _ & H7) Hd.
    unfold slider_matches_hardware in *. rewrite H3, <- Hd.
    destruct (dynamicRange d), (dynamicRange d'); simpl in H7;
      split; congruence.
  - intros d Hd. exact Hd.
  - intros d a d' Hd Hrun.
    destruct (slotDisplayConfigurationChanged_spec d)
      as (d1 & H1 & _ & Hhw & _ & Hs & _).
    rewrite H1 in Hrun. injection Hrun as _ <-.
    unfold slider_matches_hardware in *. rewrite Hhw, Hs. exact Hd.
  - intros converter d Hd. exact Hd.
Qed.

(** X3.  Between calls updates are allowed: in every reachable state
    [updateAllowed] is true, so that the guard of [setColor] only ever
    stops the calls made while [colorChanged] is delivered. *)
Theorem updates_allowed_between_calls (d : Private)
    (Hreach : reachable anyCall d) :
  updateAllowed d = true.
Proof.
  revert d Hreach. apply reachable_invariant.
  - reflexivity.
  - intros c _. apply updateAllowed_run.
Qed.

(** X4.  In every reachable state the luminance slider exists exactly
    when the hardware has HDR; in particular it is there whenever HDR is
    on, so that [setColor] never calls a slider that is null. *)
Theorem slider_exists_with_hardware (d : Private)
    (Hreach : reachable anyCall d) :
  slider_matches_hardware d
  /\ (hasHDR d = true -> exists s, dynamicRange d = Some s).
Proof.
  assert (H : slider_matches_hardware d).
  { revert d Hreach. apply reachable_invariant.
    - intros b. unfold slider_matches_hardware. simpl.
      destruct b; split; congruence.
    - intros c _. apply slider_matches_hardware_run. }
  split; [exact H|].
  intros Hhdr. pose proof (proj1 (reachable_wired Hreach) Hhdr) as Hhw.
  destruct (dynamicRange d) as [s|] eqn:Hs; [eauto|].
  apply H in Hs. congruence.
Qed.

End FlagInvariants.

(** ** Clicks on the two image widgets *)

Section Clicks.

Context {E : Externals}.

(** X5.  A click on the hue bar at a position between 0 and 1 leaves the
    stored hue fuzzily equal to the position: either it was so already
    and nothing happens, or the position is stored as it is.  Saturation
    and value are not touched.  The call fails exactly when the position
    is new and there is no converter to announce the colour with. *)
Theorem hue_click_is_stored (pos : qreal * qreal) (d : Private)
    (Hx : 0 <= fst pos <= 1) :
  (slotHueSliderChanged pos d = None <->
     qFuzzyCompare (fst pos) (hue d) = false /\ displayColorConverter d = None)
  /\ (qFuzzyCompare (fst pos) (hue d) = true ->
      slotHueSliderChanged pos d = Some (tt, d))
  /\ (forall d', exec (slotHueSliderChanged pos) d = Some d' ->
        qFuzzyCompare (fst pos) (hue d') = true
        /\ (hue d' = hue d \/ hue d' = fst pos)
        /\ saturation d' = saturation d
        /\ value d' = value d).
Proof.
  unfold exec, slotHueSliderChanged, bind, get.
  destruct (qFuzzyCompare (fst pos) (hue d)) eqn:Hf; cbn [negb]; cbv iota.
  - split; [|split].
    + unfold ret. split; [discriminate | intros [? _]; discriminate].
    + reflexivity.
    + unfold ret. intros d' [= <-]. auto.
  - rewrite setHue_eq. split; [|split].
    + destruct (displayColorConverter d); split; try discriminate; auto.
      intros [_ ?]; discriminate.
    + discriminate.
    + destruct (displayColorConverter d); [|discriminate].
      intros d' [= <-]. simpl. rewrite (qBound_id Hx).
      split; [apply qFuzzyCompare_refl_unit, Hx | auto].
Qed.

(** X6.  A click in the saturation and value square at a position inside
    the unit square, on a widget whose colour is in range, leaves the
    stored saturation fuzzily equal to x and the stored value fuzzily
    equal to 1 - y, and never moves the hue.  The call fails exactly when
    the position is new, [setHSV] notifies by default and there is no
    converter. *)
Theorem value_click_is_stored (pos : qreal * qreal) (d : Private)
    (Hx : 0 <= fst pos <= 1) (Hy : 0 <= snd pos <= 1)
    (Hd : hsv_in_range d) :
  (slotValueSliderChanged pos d = None <->
     (qFuzzyCompare (fst pos) (saturation d) = false
      \/ qFuzzyCompare (1 - snd pos) (value d) = false)
     /\ notifyChanged_default = true
     /\ displayColorConverter d = None)
  /\ (forall d', exec (slotValueSliderChanged pos) d = Some d' ->
        qFuzzyCompare (fst pos) (saturation d') = true
        /\ qFuzzyCompare (1 - snd pos) (value d') = true
        /\ hue d' = hue d).
Proof.
  assert (Hv : 0 <= 1 - snd pos <= 1) by (apply one_minus_unit, Hy).
  destruct Hd as (Hh & _ & _).
  unfold exec, slotValueSliderChanged, bind, get.
  destruct (qFuzzyCompare (fst pos) (saturation d)) eqn:Hfs;
    destruct (qFuzzyCompare (1 - snd pos) (value d)) eqn:Hfv;
    cbn [negb orb]; cbv iota.
  1: { unfold ret. split.
       - split; [discriminate|]. intros ([?|?] & _); discriminate.
       - intros d' [= <-]. auto. }
  all: rewrite setHSV_eq; cbv zeta;
    rewrite (qBound_id Hh), (qBound_id Hx), (qBound_id Hv);
    destruct notifyChanged_default;
    [ destruct (displayColorConverter d) | ];
    (split;
     [ split;
       [ try discriminate; intros _; repeat split; auto
       | intros (_ & Hn & Hc); try discriminate Hn; try discriminate Hc;
         reflexivity ]
     | try (intros d' [=]; fail);
       intros d' [= <-]; simpl; repeat split;
       apply qFuzzyCompare_refl_unit; assumption ]).
Qed.

End Clicks.

(** ** More on the dynamic range *)

Section MoreDynamicRange.

Context {E : Externals}.

(** X7.  Giving [slotUpdateDynamicRange] the same luminance, an [int],
    a second time changes nothing: the call always returns, and on the
    state it leaves it is the identity. *)
Theorem slotUpdateDynamicRange_idempotent (l : Z) (d : Private)
    (Hint : (INT_MIN <= l <= INT_MAX)%Z) :
  exists d1,
    slotUpdateDynamicRange l d = Some (tt, d1)
    /\ slotUpdateDynamicRange l d1 = Some (tt, d1).
Proof.
  destruct (qFuzzyCompare (currentRelativeDynamicRange d) (ofInt l / lit 80 1))
    eqn:Hf.
  - assert (H : slotUpdateDynamicRange l d = Some (tt, d)).
    { unfold slotUpdateDynamicRange, bind, get. rewrite Hf. reflexivity. }
    exists d. split; exact H.
  - destruct (slotUpdateDynamicRange_sets l d Hf) as (d1 & H1 & Hr & _).
    exists d1. split; [exact H1|].
    apply slotUpdateDynamicRange_same; [exact Hint | exact Hr].
Qed.

(** X8.  As long as the slider only ever tells values of its range, the
    relative dynamic range of a reachable widget is at least 1, with or
    without HDR: the divisions by it in [setColor] and
    [slotUpdateDynamicRange] never divide by zero. *)
Theorem dynamic_range_at_least_one (Hslider : slider_in_range)
    (d : Private) (Hreach : reachable sliderCall d) :
  1 <= currentRelativeDynamicRange d
  /\ 1 <= effectiveRelativeDynamicRange d
  /\ currentRelativeDynamicRange d <> 0
  /\ effectiveRelativeDynamicRange d <> 0.
Proof.
  assert (H1 : 1 <= currentRelativeDynamicRange d)
    by exact (reachable_range_ok Hslider Hreach).
  assert (H2 : 1 <= effectiveRelativeDynamicRange d)
    by (apply effective_range_ok; exact H1).
  repeat split; try assumption; intros N.
  - rewrite N in H1. discriminate H1.
  - rewrite N in H2. discriminate H2.
Qed.

End MoreDynamicRange.

(** ** More on the palette images *)

Lemma length_flat_map_rows {A B} (f : A -> list B) (k : nat) (l : list A) :
  (forall a, length (f a) = k) -> length (flat_map f l) = (length l * k)%nat.
Proof.
  intros Hlen. induction l as [|a l IH]; simpl.
  - reflexivity.
  - rewrite length_app, Hlen, IH. reflexivity.
Qed.

Lemma length_forEachPixel (w h : Z) (f : Z -> Z -> Rgba) :
  length (forEachPixel w h f) = (Z.to_nat h * Z.to_nat w)%nat.
Proof.
  unfold forEachPixel.
  rewrite (@length_flat_map_rows _ _ _ (Z.to_nat w)).
  - rewrite length_upto. reflexivity.
  - intros a. rewrite length_map, length_upto. reflexivity.
Qed.

Lemma Forall_forEachPixel (P : Rgba -> Prop) (w h : Z) (f : Z -> Z -> Rgba) :
  (forall x y, P (f x y)) -> Forall P (forEachPixel w h f).
Proof.
  intros Hf. unfold forEachPixel. apply Forall_flat_map.
  apply Forall_forall. intros y _. apply Forall_map.
  apply Forall_forall. intros x _. apply Hf.
Qed.

Section MorePalettes.

Context {E : Externals}.

(** X9.  When the display conversion is skipped, the image of either
    palette has height times width pixels, every one with alpha 1; it is
    empty when a side is zero or less; and a row at or beyond the height
    has no pixels. *)
Theorem palette_shape (policy : FillPolicy) (w h : Z) (d : Private)
    (Hskip : skipsDisplayConversion d = true) :
  let image := uploadPaletteData policy (w, h) d in
  width image = w
  /\ height image = h
  /\ length (data image) = (Z.to_nat h * Z.to_nat w)%nat
  /\ Forall (fun p => pxl_a p = 1) (data image)
  /\ ((w <= 0 \/ h <= 0)%Z -> data image = [])
  /\ (forall x y, (0 <= x < w)%Z -> (h <= y)%Z -> pixel image x y = None).
Proof.
  cbv zeta. unfold pixel, uploadPaletteData. rewrite Hskip.
  cbn [fst snd width height data].
  split; [reflexivity|]. split; [reflexivity|].
  split; [apply length_forEachPixel|]. split; [|split].
  - apply Forall_forEachPixel. intros x y.
    destruct (getRGB _ _ _ _ _ _) as [[r g] b]. exact to_half_1.
  - intros Hz. apply length_zero_iff_nil. rewrite length_forEachPixel.
    destruct Hz as [Hz|Hz].
    + replace (Z.to_nat w) with 0%nat by lia. lia.
    + replace (Z.to_nat h) with 0%nat by lia. lia.
  - intros x y Hx Hy. apply nth_error_None. rewrite length_forEachPixel. nia.
Qed.

(** The image depends on the state through the hue, the effective range
    and the converter only, and the hue palette not even on the hue. *)
Lemma uploadPaletteData_ext policy size d d' :
  hasHDR d' = hasHDR d ->
  currentRelativeDynamicRange d' = currentRelativeDynamicRange d ->
  displayColorConverter d' = displayColorConverter d ->
  (policy = FillSVPolicy -> hue d' = hue d) ->
  uploadPaletteData policy size d' = uploadPaletteData policy size d.
Proof.
  intros H1 H2 H3 H4.
  unfold uploadPaletteData, skipsDisplayConversion, generationColorSpace,
    effectiveRelativeDynamicRange.
  rewrite H1, H2, H3.
  destruct policy; [reflexivity|]. rewrite (H4 eq_refl). reflexivity.
Qed.

(** X10.  The palettes do not depend on the saturation and the value
    that are selected: on a widget whose colour is in range, [setHSV]
    with the hue as it is, and so a click in the saturation and value
    square, leaves both images as they were; and [setHue] leaves the
    image of the hue palette as it was. *)
Theorem palettes_ignore_saturation_and_value (d : Private) (w h : Z)
    (Hd : hsv_in_range d) :
  (forall s v n d',
     exec (setHSV (hue d) s v n) d = Some d' ->
     updateHuePalette w d' = updateHuePalette w d
     /\ updateSVPalette w h d' = updateSVPalette w h d)
  /\ (forall pos d',
        exec (slotValueSliderChanged pos) d = Some d' ->
        updateHuePalette w d' = updateHuePalette w d
        /\ updateSVPalette w h d' = updateSVPalette w h d)
  /\ (forall x d',
        exec (setHue x) d = Some d' ->
        updateHuePalette w d' = updateHuePalette w d).
Proof.
  destruct Hd as (Hh & _ & _).
  assert (A : forall s v n d',
            exec (setHSV (hue d) s v n) d = Some d' ->
            updateHuePalette w d' = updateHuePalette w d
            /\ updateSVPalette w h d' = updateSVPalette w h d).
  { intros s v n d'. unfold exec. rewrite setHSV_eq. cbv zeta.
    rewrite (qBound_id Hh).
    destruct n; [destruct (displayColorConverter d); [|discriminate]|];
      intros [= <-]; split; apply uploadPaletteData_ext;
      try reflexivity; discriminate. }
  split; [exact A|]. split.
  - intros pos d'. unfold exec, slotValueSliderChanged, bind, get.
    destruct (negb _ || negb _).
    + apply A.
    + unfold ret. intros [= <-]. split; reflexivity.
  - intros x d'. unfold exec. rewrite setHue_eq.
    destruct (displayColorConverter d); [|discriminate].
    intros [= <-]. apply uploadPaletteData_ext; try reflexivity. discriminate.
Qed.

(** X11.  The pixels of a palette are always generated in an RGBA colour
    space of 32-bit float depth, as is the output colour space: with the
    profile of the painting colour space when that one is RGBA, the
    painting colour space itself when it is RGBA of 32-bit float depth,
    and the output colour space otherwise.  This is what lets
    [uploadPaletteData] write the device as an array of floats. *)
Theorem palettes_are_generated_in_float_RGBA (d : Private) :
  colorModelId (generationColorSpace d) = RGBAColorModelID
  /\ colorDepthId (generationColorSpace d) = Float32BitsColorDepthID
  /\ colorModelId outputColorSpace = RGBAColorModelID
  /\ colorDepthId outputColorSpace = Float32BitsColorDepthID
  /\ (displayColorConverter d = None ->
      generationColorSpace d = outputColorSpace
      /\ skipsDisplayConversion d = true)
  /\ (forall conv,
        displayColorConverter d = Some conv ->
        let painting := paintingColorSpace conv in
        (colorModelId painting <> RGBAColorModelID ->
         generationColorSpace d = outputColorSpace)
        /\ (colorModelId painting = RGBAColorModelID ->
            profile (generationColorSpace d) = profile painting)
        /\ (colorModelId painting = RGBAColorModelID ->
            colorDepthId painting = Float32BitsColorDepthID ->
            generationColorSpace d = painting)).
Proof.
  assert (Ho : colorModelId outputColorSpace = RGBAColorModelID
               /\ colorDepthId outputColorSpace = Float32BitsColorDepthID).
  { unfold outputColorSpace. destruct surfaceColorSpace; split; reflexivity. }
  unfold generationColorSpace, skipsDisplayConversion.
  destruct (displayColorConverter d) as [conv|].
  - destruct (ColorModelId_eqb (colorModelId (paintingColorSpace conv))
                               RGBAColorModelID) eqn:Hm; cbn [negb]; cbv iota.
    + apply ColorModelId_eqb_eq in Hm.
      destruct (ColorDepthId_eqb (colorDepthId (paintingColorSpace conv))
                                 Float32BitsColorDepthID) eqn:Hdp;
        cbn [negb]; cbv iota.
      * apply ColorDepthId_eqb_eq in Hdp.
        split; [assumption|]. split; [assumption|].
        split; [apply Ho|]. split; [apply Ho|]. split; [discriminate|].
        intros conv0 [= <-]. cbv zeta.
        split; [congruence|]. split; reflexivity.
      * apply ColorDepthId_eqb_neq in Hdp.
        split; [reflexivity|]. split; [reflexivity|].
        split; [apply Ho|]. split; [apply Ho|]. split; [discriminate|].
        intros conv0 [= <-]. cbv zeta.
        split; [congruence|]. split; [reflexivity|congruence].
    + apply ColorModelId_eqb_neq in Hm.
      split; [apply Ho|]. split; [apply Ho|].
      split; [apply Ho|]. split; [apply Ho|]. split; [discriminate|].
      intros conv0 [= <-]. cbv zeta.
      split; [reflexivity|]. split; congruence.
  - split; [apply Ho|]. split; [apply Ho|].
    split; [apply Ho|]. split; [apply Ho|]. split; [split; reflexivity|].
    discriminate.
Qed.

End MorePalettes.

(** ** The guard between calls *)

Section ReachableFlags.

Context {E : Externals}.

Lemma reachable_updateAllowed allowed d :
  reachable allowed d -> updateAllowed d = true.
Proof.
  revert d. apply reachable_invariant.
  - reflexivity.
  - intros c _. apply updateAllowed_run.
Qed.

End ReachableFlags.

(** ** The converter *)

Section Converter.

Context {E : Externals}.

(** [setColor] past its guard dereferences the converter. *)
Lemma setColor_without_a_converter color d :
  updateAllowed d = true ->
  (hasHDR d = true -> hasHardwareHDR d = true) ->
  displayColorConverter d = None ->
  setColor color d = None.
Proof.
  intros Hu Hw Hn. unfold setColor. unfold bind at 1. unfold get at 1.
  rewrite Hu. cbn [negb]. cbv iota.
  lazymatch goal with
  | |- bind _ ?k d = _ => set (rest := k)
  end.
  assert (Hrest : forall u d0,
            displayColorConverter d0 = None ->
            (hasHDR d0 = true -> hasHardwareHDR d0 = true) ->
            rest u d0 = None).
  { intros u d0 H0 W0. unfold rest, bind, get.
    destruct (hasHDR d0); [rewrite (W0 eq_refl)|]; cbn [negb orb]; cbv iota;
      rewrite H0; reflexivity. }
  unfold bind at 1.
  assert (Hdisplay :
            match slotDisplayConfigurationChanged d with
            | Some (a, d') => rest a d'
            | None => None
            end = None).
  { destruct (slotDisplayConfigurationChanged_spec d)
      as (d1 & H1 & Hel & _ & Hc & _).
    rewrite H1. apply Hrest; [congruence|].
    intros H. apply Hel in H. destruct H as (_ & conv & Hconv & _).
    congruence. }
  destruct (dynamicRange d) as [s|].
  - destruct (Bool.eqb (hasHDR d) (isEnabled s)).
    + unfold ret at 1. apply Hrest; assumption.
    + exact Hdisplay.
  - unfold ret at 1. apply Hrest; assumption.
Qed.

(** X13.  The widget is constructed without a converter, and as long as
    it has none, [setColor], [setHue] and a notifying [setHSV] cannot
    return: each of them dereferences the converter.  Only
    [setDisplayColorConverter] with a converter that is not null gives
    the widget one; every other call that returns leaves it without. *)
Theorem converter_is_needed (d : Private)
    (Hreach : reachable anyCall d)
    (Hnull : displayColorConverter d = None) :
  (forall color, setColor color d = None)
  /\ (forall h, setHue h d = None)
  /\ (forall h s v, setHSV h s v true d = None)
  /\ (forall c d',
        exec (run c) d = Some d' ->
        displayColorConverter d' <> None ->
        exists conv,
          c = CsetDisplayColorConverter (Some conv)
          /\ displayColorConverter d' = Some conv).
Proof.
  assert (Hset : forall color, setColor color d = None).
  { intros color. apply setColor_without_a_converter.
    - exact (reachable_updateAllowed Hreach).
    - exact (proj1 (reachable_wired Hreach)).
    - exact Hnull. }
  assert (Hhue : forall h, setHue h d = None).
  { intros h. rewrite setHue_eq, Hnull. reflexivity. }
  assert (Hhsv : forall h s v n d',
            exec (setHSV h s v n) d = Some d' ->
            displayColorConverter d' = None).
  { intros h s v n d'. unfold exec. rewrite setHSV_eq. cbv zeta.
    rewrite Hnull. destruct n; [discriminate|].
    intros [= <-]. exact Hnull. }
  assert (Hdisplay : forall d0 d',
            displayColorConverter d0 = None ->
            exec slotDisplayConfigurationChanged d0 = Some d' ->
            displayColorConverter d' = None).
  { intros d0 d' H0. unfold exec.
    destruct (slotDisplayConfigurationChanged_spec d0)
      as (d1 & H1 & _ & _ & Hc & _).
    rewrite H1. intros [= <-]. congruence. }
  split; [exact Hset|]. split; [exact Hhue|]. split.
  { intros h s v. rewrite setHSV_eq. cbv zeta. rewrite Hnull. reflexivity. }
  intros c d' Hexec Hsome.
  assert (Hkeep : displayColorConverter d' = None -> False) by exact Hsome.
  destruct c; simpl in Hexec.
  - unfold exec in Hexec. rewrite Hhue in Hexec. discriminate.
  - exfalso. eapply Hkeep, Hhsv, Hexec.
  - unfold exec in Hexec. rewrite Hset in Hexec. discriminate.
  - destruct converter as [conv|].
    + exists conv. split; [reflexivity|].
      unfold exec, setDisplayColorConverter, bind, modify in Hexec.
      destruct (slotDisplayConfigurationChanged_spec
                  (set_displayColorConverter (Some conv) d))
        as (d1 & H1 & _ & _ & Hc & _).
      rewrite H1 in Hexec. injection Hexec as <-. exact Hc.
    + exfalso. apply Hkeep.
      unfold setDisplayColorConverter in Hexec.
      apply (Hdisplay (set_displayColorConverter None d) d'); [reflexivity|].
      exact Hexec.
  - exfalso. apply Hkeep. injection Hexec as <-. exact Hnull.
  - exfalso. apply Hkeep. revert Hexec.
    unfold exec, slotHueSliderChanged, bind, get.
    destruct (negb _); [rewrite Hhue; discriminate|].
    intros [= <-]. exact Hnull.
  - exfalso. apply Hkeep. revert Hexec.
    unfold slotValueSliderChanged. unfold exec, bind at 1, get at 1.
    destruct (negb _ || negb _).
    + apply Hhsv.
    + intros [= <-]. exact Hnull.
  - exfalso. apply Hkeep. unfold exec in Hexec.
    destruct (slotUpdateDynamicRange maxLuminance d) as [[u d1]|] eqn:Hrun;
      [|discriminate].
    injection Hexec as <-.
    destruct (slotUpdateDynamicRange_frames _ _ Hrun) as (_ & _ & _ & Hc & _).
    congruence.
  - exfalso. apply Hkeep. apply (Hdisplay d d' Hnull Hexec).
  - exfalso. apply Hkeep. injection Hexec as <-. exact Hnull.
  - exfalso. apply Hkeep. revert Hexec.
    unfold exec, converterChanges, modify. rewrite Hnull.
    intros [= <-]. exact Hnull.
Qed.

End Converter.

(** ** Setting the same colour again *)

Lemma KisClickableGLImageWidget_ext (w w' : KisClickableGLImageWidget) :
  normalizedPos w = normalizedPos w' ->
  useHandleOpacity w = useHandleOpacity w' ->
  w = w'.
Proof. destruct w, w'. simpl. intros -> ->. reflexivity. Qed.

Lemma Private_ext (d d' : Private) :
  hue d = hue d' -> value d = value d' -> saturation d = saturation d' ->
  updateAllowed d = updateAllowed d' ->
  hueWidget d = hueWidget d' -> valueWidget d = valueWidget d' ->
  dynamicRange d = dynamicRange d' ->
  currentRelativeDynamicRange d = currentRelativeDynamicRange d' ->
  displayColorConverter d = displayColorConverter d' ->
  hasHDR d = hasHDR d' -> hasHardwareHDR d = hasHardwareHDR d' ->
  d = d'.
Proof.
  destruct d, d'. simpl.
  intros -> -> -> -> -> -> -> -> -> -> ->. reflexivity.
Qed.

Section SameColour.

Context {E : Externals}.

Lemma slider_synced_rest d d' :
  same_rest d d' -> slider_synced d -> slider_synced d'.
Proof.
  intros (_ & H2 & _ & _ & _ & _ & H7) S1 s Hs.
  rewrite Hs in H7. simpl in H7. rewrite H2.
  destruct (dynamicRange d) as [s0|] eqn:Hs0; [|discriminate].
  injection H7 as ->. exact (S1 s0 Hs0).
Qed.

(** [setColor] past its guard, with the slider in agreement: when the
    second assertion fails the state is returned as it is. *)
Lemma setColor_unwired color d :
  updateAllowed d = true -> slider_synced d ->
  hasHDR d = true -> hasHardwareHDR d = false ->
  setColor color d = Some (tt, d).
Proof.
  intros Hu Hsync HDR Hhw. unfold setColor.
  unfold bind at 1. unfold get at 1. rewrite Hu. cbn [negb]. cbv iota.
  unfold bind at 1.
  assert (Hfirst : match dynamicRange d with
                   | Some s => if Bool.eqb (hasHDR d) (isEnabled s)
                               then ret tt else slotDisplayConfigurationChanged
                   | None => ret tt
                   end d = Some (tt, d)).
  { destruct (dynamicRange d) as [s|] eqn:Hs; [|reflexivity].
    rewrite (Hsync s Hs), Bool.eqb_reflx. reflexivity. }
  rewrite Hfirst. unfold bind at 1. unfold get at 1.
  rewrite HDR, Hhw. reflexivity.
Qed.

(** Without a raise the scaling of [setColor] leaves the state alone, and
    its result depends on the effective range only. *)
Lemma setColor_scale_quiet r g b d :
  hasHDR d = false
  \/ exceeds (effectiveRelativeDynamicRange d) r g b = false ->
  exists r' g' b',
    forall d2,
      hasHDR d2 = hasHDR d ->
      effectiveRelativeDynamicRange d2 = effectiveRelativeDynamicRange d ->
      setColor_scale r g b d2 = Some ((r', g', b'), d2).
Proof.
  intros Hq. destruct (hasHDR d) eqn:HDR.
  - destruct Hq as [Hq|Hq]; [discriminate|].
    eexists _, _, _. intros d2 H2 He.
    unfold setColor_scale, setColor_rangeCoeff, bind, get.
    unfold exceeds in Hq. rewrite H2, He, Hq. reflexivity.
  - eexists _, _, _. intros d2 H2 He.
    unfold setColor_scale, bind, get. rewrite H2. reflexivity.
Qed.

(** [setColor] past its guard is [setColor] on a state whose slider
    agrees with the HDR flag. *)
Lemma setColor_recovered color d d' :
  updateAllowed d = true ->
  setColor color d = Some (tt, d') ->
  exists d0,
    updateAllowed d0 = true
    /\ slider_synced d0
    /\ displayColorConverter d0 = displayColorConverter d
    /\ currentRelativeDynamicRange d0 = currentRelativeDynamicRange d
    /\ setColor color d0 = Some (tt, d').
Proof.
  intros Hu Hrun.
  destruct (dynamicRange d) as [s|] eqn:Hs.
  - destruct (Bool.eqb (hasHDR d) (isEnabled s)) eqn:Hb.
    + exists d. repeat split; try assumption.
      intros s' Hs'. rewrite Hs in Hs'. injection Hs' as <-.
      apply Bool.eqb_prop in Hb. congruence.
    + destruct (slotDisplayConfigurationChanged_spec d)
        as (d0 & H0 & _ & _ & Hc & _ & Hsync & _ & _ & _ & Hr & Hu0).
      exists d0. split; [congruence|]. split; [exact Hsync|].
      split; [exact Hc|]. split; [exact Hr|].
      revert Hrun. unfold setColor.
      unfold bind at 1. unfold get at 1. rewrite Hu. cbn [negb]. cbv iota.
      lazymatch goal with
      | |- bind _ ?k d = _ -> _ => set (rest := k)
      end.
      unfold bind at 1. rewrite Hs, Hb, H0. intros Hrun.
      unfold bind at 1. unfold get at 1.
      rewrite Hu0, Hu. cbn [negb]. cbv iota.
      fold rest. unfold bind at 1.
      destruct (dynamicRange d0) as [s0|] eqn:Hs0; [|exact Hrun].
      rewrite (Hsync s0 eq_refl), Bool.eqb_reflx. exact Hrun.
  - exists d. repeat split; try assumption.
    intros s' Hs'. rewrite Hs in Hs'. discriminate.
Qed.

Lemma setColor_again_synced color d d' :
  updateAllowed d = true -> slider_synced d ->
  (hasHDR d = false
   \/ forall conv r g b,
        displayColorConverter d = Some conv ->
        setColor_channels color conv = (r, g, b) ->
        exceeds (effectiveRelativeDynamicRange d) r g b = false) ->
  setColor color d = Some (tt, d') ->
  setColor color d' = Some (tt, d').
Proof.
  intros Hu Hsync Hq Hrun.
  destruct (hasHDR d) eqn:HDR; destruct (hasHardwareHDR d) eqn:Hhw.
  2: { rewrite (@setColor_unwired color d Hu Hsync HDR Hhw) in Hrun.
       injection Hrun as <-. apply setColor_unwired; assumption. }
  all: assert (Hw : hasHDR d = true -> hasHardwareHDR d = true)
      by (rewrite HDR, Hhw; auto; discriminate).
  all: destruct (displayColorConverter d) as [conv|] eqn:Hconv;
    [| rewrite (@setColor_without_a_converter E color d Hu Hw Hconv) in Hrun;
       discriminate ].
  all: destruct (setColor_channels color conv) as [[r g] b] eqn:Hch.
  all: assert (Hq' : hasHDR d = false
                     \/ exceeds (effectiveRelativeDynamicRange d) r g b = false)
      by (destruct Hq as [Hq|Hq]; [left; congruence | right; eauto]).
  all: destruct (@setColor_scale_quiet r g b d Hq') as (r' & g' & b' & Hsc).
  all: destruct (RGBToHSV r' g' b') as [[h s] v] eqn:Hhsv.
  all: destruct (@setColor_after_scale E color conv d _ _ _ _ _ _ d h s v
                   Hu Hsync Hw Hconv Hch (Hsc d eq_refl eq_refl) Hhsv)
      as (d1 & Hrun1 & A1 & A2 & A3 & A4 & A5 & A6 & A7 & A8).
  all: rewrite Hrun in Hrun1; injection Hrun1 as <-.
  all: destruct (setColor_cases color d Hu Hrun) as (d0 & Hd0 & Hrest);
    assert (Hrest' : same_rest d d')
      by (destruct Hd0 as [[_ ->]|[N _]]; [exact Hrest | contradiction]);
    clear d0 Hd0 Hrest.
  all: pose proof Hrest' as (R1 & R2 & R3 & R4 & R5 & R6 & R7).
  all: assert (Hu' : updateAllowed d' = true) by congruence.
  all: assert (Hsync' : slider_synced d')
      by exact (@slider_synced_rest d d' Hrest' Hsync).
  all: assert (Hw' : hasHDR d' = true -> hasHardwareHDR d' = true)
      by (rewrite R2, R3; exact Hw).
  all: assert (Hconv' : displayColorConverter d' = Some conv) by congruence.
  all: assert (He : effectiveRelativeDynamicRange d'
                    = effectiveRelativeDynamicRange d)
      by (unfold effectiveRelativeDynamicRange; rewrite R2, A6; reflexivity).
  all: destruct (@setColor_after_scale E color conv d' _ _ _ _ _ _ d' h s v
                   Hu' Hsync' Hw' Hconv' Hch (Hsc d' R2 He) Hhsv)
      as (d2 & Hrun2 & B1 & B2 & B3 & B4 & B5 & B6 & B7 & B8).
  all: rewrite Hrun2; f_equal; f_equal.
  all: destruct (setColor_cases color d' Hu' Hrun2) as (d0 & Hd0 & Hrest2);
    assert (Hrest2' : same_rest d' d2)
      by (destruct Hd0 as [[_ ->]|[N _]]; [exact Hrest2 | contradiction]);
    clear d0 Hd0 Hrest2.
  all: destruct Hrest2' as (S1 & S2 & S3 & S4 & S5 & S6 & S7).
  all: apply Private_ext; try congruence.
  all: apply KisClickableGLImageWidget_ext; congruence.
Qed.

(** X15.  Setting the same colour a second time changes nothing.  If
    [setColor] gets past its guard and returns, and either HDR is off
    afterwards or no channel of the colour exceeds the dynamic range, so
    that the range is not raised, then [setColor] with the same colour on
    the state it left returns that very state. *)
Theorem setColor_twice (color : KoColor) (d d' : Private)
    (Hu : updateAllowed d = true)
    (Hquiet :
       hasHDR d' = false
       \/ forall conv r g b,
            displayColorConverter d = Some conv ->
            setColor_channels color conv = (r, g, b) ->
            exceeds (currentRelativeDynamicRange d) r g b = false)
    (Hrun : setColor color d = Some (tt, d')) :
  setColor color d' = Some (tt, d').
Proof.
  destruct (@setColor_recovered color d d' Hu Hrun)
    as (d0 & Hu0 & Hsync0 & Hc0 & Hr0 & Hrun0).
  apply (@setColor_again_synced color d0 d' Hu0 Hsync0); [|exact Hrun0].
  destruct (setColor_cases color d0 Hu0 Hrun0) as (d1 & Hd1 & Hrest).
  assert (Hrest' : same_rest d0 d')
    by (destruct Hd1 as [[_ ->]|[N _]]; [exact Hrest | contradiction]).
  destruct Hrest' as (_ & R2 & _).
  destruct (hasHDR d0) eqn:HDR0.
  - destruct Hquiet as [Hq|Hq]; [congruence|].
    right. intros conv r g b Hconv Hch.
    unfold effectiveRelativeDynamicRange. rewrite HDR0, Hr0.
    apply (Hq conv); congruence.
  - left. reflexivity.
Qed.

End SameColour.

(** ** Channel order and colour space, in the member functions *)

Section ChannelOrder.

Context {E : Externals}.

(** [setColor] past its guard is [setColor] on the state its first
    assertion leaves: the state itself when the slider agrees with the
    HDR flag, the state after [slotDisplayConfigurationChanged]
    otherwise. *)
Lemma setColor_first_assertion color d d' :
  updateAllowed d = true ->
  setColor color d = Some (tt, d') ->
  exists d0,
    ((slider_synced d /\ d0 = d)
     \/ (~ slider_synced d
         /\ slotDisplayConfigurationChanged d = Some (tt, d0)))
    /\ updateAllowed d0 = true
    /\ slider_synced d0
    /\ displayColorConverter d0 = displayColorConverter d
    /\ setColor color d0 = Some (tt, d').
Proof.
  intros Hu Hrun.
  destruct (dynamicRange d) as [s|] eqn:Hs.
  - destruct (Bool.eqb (hasHDR d) (isEnabled s)) eqn:Hb.
    + assert (Hsync : slider_synced d).
      { intros s' Hs'. rewrite Hs in Hs'. injection Hs' as <-.
        apply Bool.eqb_prop in Hb. congruence. }
      exists d. repeat split; try assumption. left. split; [exact Hsync|reflexivity].
    + destruct (slotDisplayConfigurationChanged_spec d)
        as (d0 & H0 & _ & _ & Hc & _ & Hsync & _ & _ & _ & Hr & Hu0).
      exists d0. split.
      { right. split; [|exact H0].
        intros Hsync'. rewrite (Hsync' s Hs) in Hb.
        rewrite Bool.eqb_reflx in Hb. discriminate. }
      split; [congruence|]. split; [exact Hsync|].
      split; [exact Hc|].
      revert Hrun. unfold setColor.
      unfold bind at 1. unfold get at 1. rewrite Hu. cbn [negb]. cbv iota.
      lazymatch goal with
      | |- bind _ ?k d = _ -> _ => set (rest := k)
      end.
      unfold bind at 1. rewrite Hs, Hb, H0. intros Hrun.
      unfold bind at 1. unfold get at 1.
      rewrite Hu0, Hu. cbn [negb]. cbv iota.
      fold rest. unfold bind at 1.
      destruct (dynamicRange d0) as [s0|] eqn:Hs0; [|exact Hrun].
      rewrite (Hsync s0 eq_refl), Bool.eqb_reflx. exact Hrun.
  - assert (Hsync : slider_synced d).
    { intros s' Hs'. rewrite Hs in Hs'. discriminate. }
    exists d. repeat split; try assumption. left. split; [exact Hsync|reflexivity].
Qed.

(** C5.  Both [setColor] and [tellColorChanged] work in the painting
    colour space when its model is RGBA and in rgb8 otherwise.
    [setColor] itself, when it gets past its guard and returns, has
    first made the slider agree with the HDR flag, and then either has
    stopped at its second assertion, leaving that state, or has scaled
    and stored the channels it read from the normalised channel vector
    of the colour converted to that colour space: the elements 2, 1, 0
    as r, g, b with an 8-bit integer depth, the elements 0, 1, 2 with
    any other.  [tellColorChanged] itself, whatever the emission of
    [colorChanged] does with the colour, hands it the colour made in
    that colour space from the vector b, g, r, 1 with an 8-bit integer
    depth and r, g, b, 1 with any other, between clearing and setting
    [updateAllowed].  Reading what was written gives the channels
    back. *)
Theorem channels_follow_the_colour_space (conv : KisDisplayColorConverter) :
  let painting := paintingColorSpace conv in
  let cs := workingColorSpace conv in
  let eight := ColorDepthId_eqb (colorDepthId cs) Integer8BitsColorDepthID in
  (colorModelId painting <> RGBAColorModelID -> cs = rgb8)
  /\ (colorModelId painting = RGBAColorModelID -> cs = painting)
  /\ (forall color d d',
        updateAllowed d = true ->
        displayColorConverter d = Some conv ->
        setColor color d = Some (tt, d') ->
        let channels := normalisedChannelsValue cs (convertTo color cs) in
        let r := nth (if eight then 2 else 0)%nat channels 0 in
        let g := nth 1%nat channels 0 in
        let b := nth (if eight then 0 else 2)%nat channels 0 in
        exists d0,
          ((slider_synced d /\ d0 = d)
           \/ (~ slider_synced d
               /\ slotDisplayConfigurationChanged d = Some (tt, d0)))
          /\ ((hasHDR d0 = true /\ hasHardwareHDR d0 = false /\ d' = d0)
              \/ exists r' g' b' d1 h s v,
                   setColor_scale r g b d0 = Some ((r', g', b'), d1)
                   /\ RGBToHSV r' g' b' = (h, s, v)
                   /\ hue d' = qBound 0 (h / lit 360 1) 1
                   /\ saturation d' = qBound 0 s 1
                   /\ value d' = qBound 0 v 1))
  /\ (forall (emit : KoColor -> M unit) d r g b,
        displayColorConverter d = Some conv ->
        HSVToRGB (hue d * lit 360 1) (saturation d) (value d) = (r, g, b) ->
        let k := to_float (effectiveRelativeDynamicRange d) in
        let r' := if hasHDR d then mulf r k else r in
        let g' := if hasHDR d then mulf g k else g in
        let b' := if hasHDR d then mulf b k else b in
        tellColorChanged_with emit d
        = (emit (fromNormalisedChannelsValue cs
                   (if eight then [b'; g'; r'; 1] else [r'; g'; b'; 1])) ;;;
           modify (set_updateAllowed true)) (set_updateAllowed false d))
  /\ tellColorChanged = tellColorChanged_with emit_colorChanged
  /\ (forall r g b, channelsToRGB cs (rgbToValues cs r g b) = (r, g, b)).
Proof.
  cbv zeta. split; [|split; [|split; [|split; [|split]]]].
  - intros H. unfold workingColorSpace.
    apply ColorModelId_eqb_neq in H. rewrite H. reflexivity.
  - intros H. unfold workingColorSpace.
    apply ColorModelId_eqb_eq in H. rewrite H. reflexivity.
  - intros color d d' Hu Hc Hrun.
    destruct (@setColor_first_assertion color d d' Hu Hrun)
      as (d0 & Hd0 & Hu0 & Hsync0 & Hc0 & Hrun0).
    exists d0. split; [exact Hd0|].
    rewrite Hc in Hc0.
    destruct (hasHDR d0) eqn:HDR0; [destruct (hasHardwareHDR d0) eqn:Hhw0|].
    + right.
      destruct (setColor_channels color conv) as [[r g] b] eqn:Hch.
      destruct (@setColor_returned E color conv d0 d' r g b Hu0 Hsync0 (fun _ => Hhw0) Hc0 Hch Hrun0)
        as (r' & g' & b' & d1 & h & s & v & H1 & H2 & H3 & H4 & H5 & _).
      exists r', g', b', d1, h, s, v.
      unfold setColor_channels, channelsToRGB in Hch.
      destruct (ColorDepthId_eqb _ _); injection Hch as <- <- <-;
        repeat split; assumption.
    + left.
      rewrite (@setColor_unwired E color d0 Hu0 Hsync0 HDR0 Hhw0) in Hrun0.
      injection Hrun0 as <-. auto.
    + right.
      destruct (setColor_channels color conv) as [[r g] b] eqn:Hch.
      assert (Hw : hasHDR d0 = true -> hasHardwareHDR d0 = true)
        by (rewrite HDR0; discriminate).
      destruct (@setColor_returned E color conv d0 d' r g b Hu0 Hsync0 Hw Hc0 Hch Hrun0)
        as (r' & g' & b' & d1 & h & s & v & H1 & H2 & H3 & H4 & H5 & _).
      exists r', g', b', d1, h, s, v.
      unfold setColor_channels, channelsToRGB in Hch.
      destruct (ColorDepthId_eqb _ _); injection Hch as <- <- <-;
        repeat split; assumption.
  - intros emit d r g b Hc Hrgb.
    unfold tellColorChanged_with, tellColorChanged_color, rgbToValues.
    unfold bind at 1. unfold modify at 1.
    unfold bind at 1. unfold get at 1.
    cbn [displayColorConverter set_updateAllowed hue saturation value hasHDR].
    rewrite Hc, Hrgb.
    assert (He : effectiveRelativeDynamicRange (set_updateAllowed false d)
                 = effectiveRelativeDynamicRange d) by reflexivity.
    rewrite He.
    destruct (hasHDR d); destruct (ColorDepthId_eqb _ _); reflexivity.
  - reflexivity.
  - intros r g b. unfold channelsToRGB, rgbToValues.
    destruct (ColorDepthId_eqb _ _); reflexivity.
Qed.

End ChannelOrder.

(** The 8-bit converter: [setColor] reads blue, green, red. *)
Lemma channels_follow_the_colour_space_witness :
  colorDepthId (workingColorSpace (E := sampleExternals) converterU8)
  = Integer8BitsColorDepthID
  /\ updateAllowed u8State = true
  /\ displayColorConverter u8State = Some converterU8
  /\ (exists d',
        setColor (E := sampleExternals)
          (rgbaU8, [lit 1 4; lit 1 2; lit 3 4; 1]) u8State = Some (tt, d'))
  /\ exists r' g' b' d1,
       setColor_scale (E := sampleExternals) (lit 3 4) (lit 1 2) (lit 1 4) u8State
       = Some ((r', g', b'), d1).
Proof.
  pose proof (@channels_follow_the_colour_space sampleExternals converterU8) as T.
  cbv zeta in T. destruct T as (_ & _ & T & _).
  assert (Hsync : slider_synced u8State) by (intros s H; discriminate H).
  assert (Hrun : exists d',
             setColor (E := sampleExternals)
               (rgbaU8, [lit 1 4; lit 1 2; lit 3 4; 1]) u8State = Some (tt, d')).
  { eexists. vm_compute. reflexivity. }
  split; [reflexivity|]. split; [reflexivity|]. split; [reflexivity|].
  split; [exact Hrun|].
  destruct Hrun as [d' Hrun].
  destruct (T _ u8State d' eq_refl eq_refl Hrun) as (d0 & Hd0 & [Hstop | Hread]).
  - destruct Hstop as (HDR & _). exfalso.
    destruct Hd0 as [[_ ->] | [Hn _]]; [discriminate HDR | exact (Hn Hsync)].
  - destruct Hread as (r' & g' & b' & d1 & h & s & v & H1 & _).
    destruct Hd0 as [[_ ->] | [Hn _]]; [|exfalso; exact (Hn Hsync)].
    exists r', g', b', d1. exact H1.
Defined.

(** ** The dynamic range as a whole luminance *)

Lemma slider_value_is_int (l : Z) :
  (80 <= l <= 10000)%Z -> (INT_MIN <= l <= INT_MAX)%Z.
Proof. unfold INT_MIN, INT_MAX. simpl. lia. Qed.

(** The double of a luminance of the slider's range over 80. *)
Lemma range_between (l : Z) :
  (80 <= l <= 10000)%Z ->
  between (ofInt l / lit 80 1)
          (inject_Z l * (1 # 80) * (9007199254740991 # 9007199254740992))
          (inject_Z l * (1 # 80) * (9007199254740993 # 9007199254740992)).
Proof.
  intros [H1 H2]. unfold ofInt. rewrite over80.
  assert (H1' : (inject_Z 80 <= inject_Z l)%Q) by (rewrite <- Zle_Qle; exact H1).
  assert (H2' : (inject_Z l <= inject_Z 10000)%Q) by (rewrite <- Zle_Qle; exact H2).
  change (inject_Z 80) with (80 # 1) in H1'.
  change (inject_Z 10000) with (10000 # 1) in H2'.
  apply rnd64_between; rewrite ?this_over80, ?this_ofInt;
    revert H1' H2'; generalize (inject_Z l); intros t Ht1 Ht2; lra.
Qed.

Lemma qAbs_at_least (x : ieee) (lo : Q) :
  (0 <= lo)%Q -> at_least x lo -> at_least (qAbs x) lo.
Proof.
  intros Hlo A. destruct x as [|[]|r]; cbn [at_least] in A; try tauto;
    try exact I.
  rewrite qAbs_nonneg; [exact A|]. eapply Qle_trans; eassumption.
Qed.

(** Two ranges a whole luminance apart are not fuzzily equal, as long as
    the second is one the slider can show. *)
Lemma luminances_not_fuzzy (l0 l : Z) :
  (80 <= l0)%Z -> (80 <= l <= 10000)%Z -> l0 <> l ->
  qFuzzyCompare (ofInt l0 / lit 80 1) (ofInt l / lit 80 1) = false.
Proof.
  intros H0 Hl Hne.
  pose proof (range_between Hl) as B.
  assert (Hl' : (inject_Z 80 <= inject_Z l <= inject_Z 10000)%Q)
    by (rewrite <- !Zle_Qle; exact Hl).
  change (inject_Z 80) with (80 # 1) in Hl'.
  change (inject_Z 10000) with (10000 # 1) in Hl'.
  destruct (ofInt l / lit 80 1) as [|?|N] eqn:EN; cbn [between] in B; try tauto.
  unfold qFuzzyCompare.
  assert (AN : qAbs (Fin N) = Fin N) by (apply qAbs_nonneg; lra).
  rewrite AN.
  destruct (Z_lt_le_dec l0 l) as [Hlt|Hge].
  - assert (Hl0 : (80 <= l0 <= 10000)%Z) by lia.
    pose proof (range_between Hl0) as B0.
    assert (Hl0' : (inject_Z 80 <= inject_Z l0)%Q)
      by (rewrite <- Zle_Qle; exact H0).
    assert (Hd : (inject_Z l0 + 1 <= inject_Z l)%Q).
    { change 1%Q with (inject_Z 1). rewrite <- inject_Z_plus, <- Zle_Qle. lia. }
    change (inject_Z 80) with (80 # 1) in Hl0'.
    destruct (ofInt l0 / lit 80 1) as [|?|N0]; cbn [between] in B0; try tauto.
    revert B B0 Hl' Hl0' Hd. generalize (inject_Z l) (inject_Z l0).
    intros t t0 B B0 Ht Ht0 Hd.
    assert (AN0 : qAbs (Fin N0) = Fin N0) by (apply qAbs_nonneg; lra).
    rewrite AN0.
    assert (Hm : qMin (Fin N0) (Fin N) = Fin N0).
    { unfold qMin.
      assert (E : (Fin N0 <? Fin N) = true) by (apply fltb_Fin; unfold Qclt; lra).
      rewrite E. reflexivity. }
    rewrite Hm. apply flt_not_le.
    assert (A1 : at_least (qAbs (Fin N0 - Fin N)) (1 # 256)).
    { apply qAbs_difference_at_least; lra. }
    apply times_1e12_at_least in A1; [|lra].
    eapply at_least_flt; [exact A1 | lra].
  - assert (Hd : (inject_Z l + 1 <= inject_Z l0)%Q).
    { change 1%Q with (inject_Z 1). rewrite <- inject_Z_plus, <- Zle_Qle. lia. }
    pose proof (range_at_least H0) as A0.
    revert B A0 Hl' Hd. generalize (inject_Z l) (inject_Z l0).
    intros t t0 B A0 Ht Hd.
    assert (A1 : at_least (qAbs (ofInt l0 / lit 80 1 - Fin N)) (1 # 256)).
    { apply qAbs_at_least; [lra|].
      destruct (ofInt l0 / lit 80 1) as [|[]|N0]; cbn [at_least] in A0;
        try tauto; try exact I.
      unfold fsub. cbn [fadd fneg].
      assert (HS : (this (N0 + - N)%Qc == this N0 - this N)%Q).
      { qc2q. reflexivity. }
      apply rnd64_at_least; rewrite HS; lra. }
    apply times_1e12_at_least in A1; [|lra].
    assert (Hm : qMin (qAbs (ofInt l0 / lit 80 1)) (Fin N) = Fin N).
    { destruct (ofInt l0 / lit 80 1) as [|[]|N0]; cbn [at_least] in A0;
        try tauto; try reflexivity.
      rewrite qAbs_nonneg by lra. unfold qMin.
      assert (E : (Fin N0 <? Fin N) = false).
      { apply fltb_Fin_false. unfold Qcle. lra. }
      rewrite E. reflexivity. }
    rewrite Hm. apply flt_not_le.
    eapply at_least_flt; [exact A1 | lra].
Qed.

Section Grid.

Context {E : Externals}.

Hypothesis Hslider : slider_in_range.

Lemma on_grid_range_ok d : on_grid d -> range_ok d.
Proof.
  intros (l & Hl & Hr). unfold range_ok. rewrite Hr.
  apply range_of_luminance, Hl.
Qed.

Lemma on_grid_keeps f d : keeps_range f -> on_grid d -> on_grid (f d).
Proof. intros K (l & Hl & Hr). exists l. rewrite K. auto. Qed.

Ltac keepg :=
  apply preserves_modify; intros; cbv beta;
  lazymatch goal with
  | |- on_grid (?f ?x) =>
      apply (on_grid_keeps (f:=f) (d:=x));
      [ intros ?; reflexivity | assumption ]
  end.

Lemma setHSV_with_on_grid tell h s v n :
  preserves on_grid tell -> preserves on_grid (setHSV_with tell h s v n).
Proof.
  intros Ht. unfold setHSV_with. preserves_auto; try keepg; assumption.
Qed.

Lemma slotUpdateDynamicRange_on_grid l :
  (80 <= l)%Z -> preserves on_grid (slotUpdateDynamicRange l).
Proof.
  intros Hl. unfold slotUpdateDynamicRange, slotUpdatePalettes.
  preserves_auto; try keepg.
  apply preserves_modify. intros d _. exists l. split; [exact Hl|reflexivity].
Qed.

Lemma slotDisplayConfigurationChanged_on_grid :
  preserves on_grid slotDisplayConfigurationChanged.
Proof.
  intros d a d' Hd Hrun.
  destruct (slotDisplayConfigurationChanged_spec d)
    as (d1 & H1 & _ & _ & _ & _ & _ & _ & _ & _ & Hr & _).
  rewrite H1 in Hrun. injection Hrun as _ <-.
  destruct Hd as (l & Hl & Hd). exists l. split; [exact Hl|congruence].
Qed.

Lemma dynamicRange_setValue_on_grid v :
  preserves on_grid (dynamicRange_setValue v).
Proof.
  unfold dynamicRange_setValue.
  preserves_auto; try keepg.
  apply slotUpdateDynamicRange_on_grid.
  eapply Hslider. eassumption.
Qed.

Lemma setColor_rangeCoeff_on_grid r g b :
  preserves on_grid (setColor_rangeCoeff r g b).
Proof.
  intros d a d' Hd. unfold setColor_rangeCoeff.
  unfold bind at 1. unfold get at 1.
  destruct ((effectiveRelativeDynamicRange d <? r) || _ || _) eqn:Hex.
  - destruct (qRound _) as [l|] eqn:Hq; [|discriminate].
    assert (Hl : (80 <= l)%Z).
    { eapply raised_luminance; [apply on_grid_range_ok| |]; eassumption. }
    assert (P : preserves on_grid
              (slotUpdateDynamicRange l ;;; dynamicRange_setValue l ;;;
               ret (mulf (max3 r g b) (litf 11 10)))).
    { preserves_auto.
      - apply slotUpdateDynamicRange_on_grid, Hl.
      - apply dynamicRange_setValue_on_grid. }
    intros Hrun. eapply P; eassumption.
  - intros [= _ <-]. exact Hd.
Qed.

Lemma setColor_on_grid color : preserves on_grid (setColor color).
Proof.
  unfold setColor, setColor_scale.
  preserves_auto; try keepg;
    first [ apply slotDisplayConfigurationChanged_on_grid
          | apply setColor_rangeCoeff_on_grid
          | apply setHSV_with_on_grid, preserves_ret ].
Qed.

Lemma setHSV_on_grid h s v n : preserves on_grid (setHSV h s v n).
Proof.
  intros d a d' Hd. rewrite setHSV_eq. cbv zeta.
  destruct n; [destruct (displayColorConverter d); [|discriminate]|];
    intros [= _ <-]; exact Hd.
Qed.

Lemma setHue_on_grid h : preserves on_grid (setHue h).
Proof.
  intros d a d' Hd. rewrite setHue_eq.
  destruct (displayColorConverter d); [|discriminate].
  intros [= _ <-]. exact Hd.
Qed.

Lemma run_on_grid c : sliderCall c -> preserves on_grid (run c).
Proof.
  destruct c; simpl; intros Hc.
  - apply setHue_on_grid.
  - apply setHSV_on_grid.
  - apply setColor_on_grid.
  - unfold setDisplayColorConverter. preserves_auto; try keepg.
    apply slotDisplayConfigurationChanged_on_grid.
  - apply preserves_ret.
  - unfold slotHueSliderChanged. preserves_auto. apply setHue_on_grid.
  - unfold slotValueSliderChanged. preserves_auto. apply setHSV_on_grid.
  - apply slotUpdateDynamicRange_on_grid. lia.
  - apply slotDisplayConfigurationChanged_on_grid.
  - apply preserves_ret.
  - unfold converterChanges. apply preserves_modify. intros d H.
    destruct (displayColorConverter d); exact H.
Qed.

Lemma reachable_on_grid d : reachable sliderCall d -> on_grid d.
Proof.
  revert d. apply reachable_invariant.
  - intros b. exists 80%Z. split; [lia|].
    symmetry. apply same_number_eq. vm_compute. reflexivity.
  - apply run_on_grid.
Qed.

(** X16.  As long as the slider only ever tells values of its range, the
    relative dynamic range of a reachable widget is always the double
    quotient of a whole luminance of at least 80 by 80.  So the test with
    [qFuzzyCompare] in [slotUpdateDynamicRange] never swallows a change:
    for every luminance of the slider's range, 80 ... 10000, the call
    returns with the range the double quotient of that luminance by
    80. *)
Theorem dynamic_range_is_a_whole_luminance (d : Private)
    (Hreach : reachable sliderCall d) :
  on_grid d
  /\ forall l, (80 <= l <= 10000)%Z ->
       exists d',
         slotUpdateDynamicRange l d = Some (tt, d')
         /\ currentRelativeDynamicRange d' = ofInt l / lit 80 1.
Proof.
  pose proof (reachable_on_grid Hreach) as Hg.
  split; [exact Hg|]. intros l Hl.
  destruct (qFuzzyCompare (currentRelativeDynamicRange d) (ofInt l / lit 80 1))
    eqn:Hf.
  - exists d. destruct Hg as (l0 & Hl0 & Hr).
    assert (Heq : l0 = l).
    { destruct (Z.eq_dec l0 l) as [Heq|Hne]; [exact Heq|]. exfalso.
      rewrite Hr in Hf.
      rewrite (luminances_not_fuzzy Hl0 Hl Hne) in Hf. discriminate Hf. }
    subst l0. split; [|exact Hr].
    apply slotUpdateDynamicRange_same; [|exact Hr].
    apply slider_value_is_int, Hl.
  - destruct (slotUpdateDynamicRange_sets l d Hf) as (d' & H1 & H2 & _).
    exists d'. split; assumption.
Qed.

End Grid.

(** ** The further theorems at work on the sample instance *)

Lemma greyState_reachable (allowed : @Call sampleExternals -> Prop) :
  allowed (CsetDisplayColorConverter (Some converterF32)) ->
  allowed (CsetColor sampleGrey) ->
  reachable allowed greyState.
Proof.
  intros H1 H2.
  apply (@reachable_run sampleExternals allowed hdrState
           (CsetColor sampleGrey) greyState).
  - apply hdrState_reachable, H1.
  - exact H2.
  - vm_compute. reflexivity.
Defined.

Lemma hdrState_display_synced : display_synced hdrState.
Proof.
  split; [|split; reflexivity].
  intros s Hs. vm_compute in Hs. injection Hs as <-. reflexivity.
Defined.

Lemma display_stays_synced_witness :
  display_synced hdrState
  /\ forall c d',
       exec (run (E := sampleExternals) c) hdrState = Some d' ->
       display_synced d'.
Proof.
  split; [exact hdrState_display_synced|].
  exact (proj1 (@display_stays_synced sampleExternals hdrState
                  hdrState_display_synced)).
Defined.

(** The slider of the widget was enabled with HDR off; [setColor] turns
    HDR on, and the slider agrees. *)
Lemma setColor_recovers_the_slider_witness :
  updateAllowed unsyncedState = true
  /\ setColor (E := sampleExternals) sampleGrey unsyncedState
     = Some (tt, recoveredState)
  /\ slider_synced recoveredState.
Proof.
  assert (Hrun : setColor (E := sampleExternals) sampleGrey unsyncedState
                 = Some (tt, recoveredState))
    by (vm_compute; reflexivity).
  split; [reflexivity|]. split; [exact Hrun|].
  exact (@setColor_recovers_the_slider sampleExternals sampleGrey
           unsyncedState recoveredState eq_refl Hrun).
Defined.

Lemma updates_allowed_between_calls_witness :
  reachable (E := sampleExternals) anyCall greyState
  /\ updateAllowed greyState = true.
Proof.
  assert (Hr : reachable (E := sampleExternals) anyCall greyState)
    by (apply greyState_reachable; exact I).
  split; [exact Hr|].
  exact (@updates_allowed_between_calls sampleExternals greyState Hr).
Defined.

Lemma slider_exists_with_hardware_witness :
  reachable (E := sampleExternals) anyCall hdrState
  /\ hasHDR hdrState = true
  /\ exists s, dynamicRange hdrState = Some s.
Proof.
  assert (Hr : reachable (E := sampleExternals) anyCall hdrState)
    by (apply hdrState_reachable; exact I).
  split; [exact Hr|]. split; [reflexivity|].
  exact (proj2 (@slider_exists_with_hardware sampleExternals hdrState Hr) eq_refl).
Defined.

(** A click at three eighths of the hue bar. *)
Lemma hue_click_is_stored_witness :
  0 <= lit 3 8 <= 1
  /\ forall d',
       exec (slotHueSliderChanged (E := sampleExternals) (lit 3 8, 0)) hdrState
       = Some d' ->
       qFuzzyCompare (lit 3 8) (hue d') = true.
Proof.
  assert (Hx : 0 <= fst (lit 3 8, 0) <= 1) by (split; reflexivity).
  split; [exact Hx|].
  intros d' Hd'.
  exact (proj1 (proj2 (proj2 (@hue_click_is_stored sampleExternals
                                (lit 3 8, 0) hdrState Hx)) d' Hd')).
Defined.

(** A click at (3/8, 1/4) of the saturation and value square. *)
Lemma value_click_is_stored_witness :
  0 <= lit 3 8 <= 1
  /\ 0 <= lit 1 4 <= 1
  /\ hsv_in_range hdrState
  /\ forall d',
       exec (slotValueSliderChanged (E := sampleExternals) (lit 3 8, lit 1 4))
            hdrState = Some d' ->
       qFuzzyCompare (lit 3 8) (saturation d') = true
       /\ qFuzzyCompare (1 - lit 1 4) (value d') = true
       /\ hue d' = hue hdrState.
Proof.
  assert (Hx : 0 <= fst (lit 3 8, lit 1 4) <= 1) by (split; reflexivity).
  assert (Hy : 0 <= snd (lit 3 8, lit 1 4) <= 1) by (split; reflexivity).
  assert (Hd : hsv_in_range hdrState) by (repeat split; reflexivity).
  split; [exact Hx|]. split; [exact Hy|]. split; [exact Hd|].
  exact (proj2 (@value_click_is_stored sampleExternals
                  (lit 3 8, lit 1 4) hdrState Hx Hy Hd)).
Defined.

(** The slider of the grey widget told 160 twice. *)
Lemma slotUpdateDynamicRange_idempotent_witness :
  (INT_MIN <= 160 <= INT_MAX)%Z
  /\ exists d1,
       slotUpdateDynamicRange (E := sampleExternals) 160 greyState = Some (tt, d1)
       /\ slotUpdateDynamicRange (E := sampleExternals) 160 d1 = Some (tt, d1).
Proof.
  assert (Hl : (INT_MIN <= 160 <= INT_MAX)%Z) by (split; discriminate).
  split; [exact Hl|].
  exact (@slotUpdateDynamicRange_idempotent sampleExternals 160 greyState Hl).
Defined.

Lemma dynamic_range_at_least_one_witness :
  slider_in_range (E := sampleExternals)
  /\ reachable (E := sampleExternals) sliderCall greyState
  /\ 1 <= currentRelativeDynamicRange greyState.
Proof.
  assert (Hr : reachable (E := sampleExternals) sliderCall greyState)
    by (apply greyState_reachable; exact I).
  split; [exact sample_slider_in_range|]. split; [exact Hr|].
  exact (proj1 (@dynamic_range_at_least_one sampleExternals
                  sample_slider_in_range greyState Hr)).
Defined.

(** A palette of 3 by 2 pixels. *)
Lemma palette_shape_witness :
  skipsDisplayConversion (E := sampleExternals) hdrState = true
  /\ length (data (uploadPaletteData (E := sampleExternals)
                     FillSVPolicy (3%Z, 2%Z) hdrState)) = 6%nat
  /\ pixel (uploadPaletteData (E := sampleExternals)
              FillSVPolicy (3%Z, 2%Z) hdrState) 1 2 = None.
Proof.
  pose proof (@palette_shape sampleExternals FillSVPolicy 3 2 hdrState eq_refl)
    as T.
  cbv zeta in T. destruct T as (_ & _ & T3 & _ & _ & T6).
  split; [reflexivity|]. split; [exact T3|].
  apply T6; lia.
Defined.

Lemma palettes_ignore_saturation_and_value_witness :
  hsv_in_range hdrState
  /\ forall d',
       exec (setHSV (E := sampleExternals) (hue hdrState) (lit 1 4) (lit 3 4) true)
            hdrState = Some d' ->
       updateSVPalette (E := sampleExternals) 3 2 d'
       = updateSVPalette (E := sampleExternals) 3 2 hdrState.
Proof.
  assert (Hd : hsv_in_range hdrState) by (repeat split; reflexivity).
  split; [exact Hd|].
  intros d' Hd'.
  exact (proj2 (proj1 (@palettes_ignore_saturation_and_value sampleExternals
                         hdrState 3 2 Hd) (lit 1 4) (lit 3 4) true d' Hd')).
Defined.

(** A widget as constructed has no converter. *)
Lemma converter_is_needed_witness :
  reachable (E := sampleExternals) anyCall sdrState
  /\ displayColorConverter sdrState = None
  /\ setColor (E := sampleExternals) sampleGrey sdrState = None.
Proof.
  assert (Hr : reachable (E := sampleExternals) anyCall sdrState)
    by exact (reachable_new (E := sampleExternals) anyCall false).
  split; [exact Hr|]. split; [reflexivity|].
  exact (proj1 (@converter_is_needed sampleExternals sdrState Hr eq_refl)
               sampleGrey).
Defined.

(** The grey set a second time. *)
Lemma setColor_twice_witness :
  updateAllowed hdrState = true
  /\ setColor (E := sampleExternals) sampleGrey hdrState = Some (tt, greyState)
  /\ setColor (E := sampleExternals) sampleGrey greyState = Some (tt, greyState).
Proof.
  assert (Hq : hasHDR greyState = false
               \/ forall conv r g b,
                    displayColorConverter hdrState = Some conv ->
                    setColor_channels (E := sampleExternals) sampleGrey conv
                    = (r, g, b) ->
                    exceeds (currentRelativeDynamicRange hdrState) r g b = false).
  { right. intros conv r g b Hc. vm_compute in Hc. injection Hc as <-.
    intros Hch. vm_compute in Hch. injection Hch as <- <- <-. reflexivity. }
  assert (Hrun : setColor (E := sampleExternals) sampleGrey hdrState
                 = Some (tt, greyState))
    by (vm_compute; reflexivity).
  split; [reflexivity|]. split; [exact Hrun|].
  exact (@setColor_twice sampleExternals sampleGrey hdrState greyState
           eq_refl Hq Hrun).
Defined.

Lemma dynamic_range_is_a_whole_luminance_witness :
  slider_in_range (E := sampleExternals)
  /\ reachable (E := sampleExternals) sliderCall hdrState
  /\ exists d',
       slotUpdateDynamicRange (E := sampleExternals) 160 hdrState = Some (tt, d')
       /\ currentRelativeDynamicRange d' = ofInt 160 / lit 80 1.
Proof.
  assert (Hr : reachable (E := sampleExternals) sliderCall hdrState)
    by (apply hdrState_reachable; exact I).
  split; [exact sample_slider_in_range|]. split; [exact Hr|].
  apply (proj2 (@dynamic_range_is_a_whole_luminance sampleExternals
                  sample_slider_in_range hdrState Hr)).
  lia.
Defined.
